(** * Nishizumi IBT overlay: reference lap, cue scheduler and position unwrapper

    A shallow embedding of the analytical core of [nishizumi_ibt_overlay.py]:

    - [clamp];
    - [ReferenceLap]: the loader, on the channels read from the file
      ([_load_ibt]), event detection ([_build_events], [refresh_thresholds],
      [set_event_distances]) and the interpolated queries ([ref_at_pct], with
      the binary search of [bisect.bisect_left], and [ref_gear_at_pct]);
    - [AudioCues]: the staged cue scheduler ([update], [_handle_stage],
      [_approach_distances], [reset]), the tone tables ([_pattern_for]) and
      the enqueuing side of the playback queue ([_play_pattern],
      [_clear_audio_queue]);
    - [OverlayWindow]: the points of a telemetry line
      ([_build_line_points]);
    - [MemoryLogHandler]: [emit];
    - [NishizumiApp]: the position unwrapper ([_update_live_unwrapped]), the
      distance to the next brake point ([_next_brake_distance]) and the gear
      beep ([_maybe_play_gear_beep]).

    The Tk widgets and canvas calls, the telemetry thread and the audio
    thread are not embedded.

    Number model.  Python [float] values are idealised as exact rationals
    ([Q]): comparisons, [max], [%] and the arithmetic are those of the
    rationals, so rounding of binary64 is not represented.  Python [int]
    values are [Z].  Where the source mixes both, [int(n * 0.6)] on an
    integer [n], the result is the truncation of [3 n / 5]; that binary64
    gives the same integer is checked on primitive floats for every [n] from
    0 to 5000 ([int_mul_06_binary64_agrees]).

    Failure model.  Indexing a list out of range and dividing by zero raise
    in Python; fallible functions return a [PyResult].  [_load_ibt] and
    [_build_line_points], which raise other exceptions as well, return a sum
    with an error type of their own. *)

From Stdlib Require Import QArith Qround Qminmax Lqa ZArith Lia List Arith String Sorted
  Permutation.
From Stdlib Require Import Uint63 PrimFloat FloatOps SpecFloat.
From Equations Require Import Equations.
From stdpp Require Import base option gmap.
Import ListNotations.

Set Default Goal Selector "!".

(* ===================================================================== *)
(** ** Python values *)
(* ===================================================================== *)

Module Py.

Open Scope Q_scope.

(** [x < y] on floats. *)
Definition ltb (x y : Q) : bool := negb (Qle_bool y x).

(** [x <= y] on floats. *)
Definition leb (x y : Q) : bool := Qle_bool x y.

(** [x == y] on floats. *)
Definition eqb (x y : Q) : bool := Qeq_bool x y.

(** [max(a, b)]: the first argument unless the second is greater. *)
Definition max (a b : Q) : Q := if ltb a b then b else a.

(** [x % y] on floats, for [y <> 0]: the result has the sign of [y]. *)
Definition fmod (x y : Q) : Q := x - y * inject_Z (Qfloor (x / y)).

(** Truthiness of an optional float: [None] and [0.0] are false. *)
Definition truthy (o : option Q) : bool :=
  match o with
  | None => false
  | Some v => negb (eqb v 0)
  end.

(** [int(n * 0.6)] for an integer [n]: truncation towards zero. *)
Definition int_mul_06 (n : Z) : Z := Z.quot (3 * n) 5.

Inductive PyError := IndexError | ZeroDivisionError.

Inductive PyResult (A : Type) : Type :=
| Ok (a : A)
| Raise (e : PyError).
Arguments Ok {A} a.
Arguments Raise {A} e.

Definition bind {A B} (m : PyResult A) (k : A -> PyResult B) : PyResult B :=
  match m with
  | Ok a => k a
  | Raise e => Raise e
  end.

(** [l[i]] for a non-negative index. *)
Definition index {A} (l : list A) (i : nat) : PyResult A :=
  match nth_error l i with
  | Some a => Ok a
  | None => Raise IndexError
  end.

(** [l[-1]]. *)
Definition last {A} (l : list A) : PyResult A :=
  match l with
  | [] => Raise IndexError
  | _ => index l (length l - 1)
  end.

(** [x / y] on floats. *)
Definition div (x y : Q) : PyResult Q :=
  if eqb y 0 then Raise ZeroDivisionError else Ok (x / y).

(** A [for] loop whose body may raise. *)
Fixpoint for_each {S A} (body : S -> A -> PyResult S) (xs : list A) (s : S)
  : PyResult S :=
  match xs with
  | [] => Ok s
  | x :: xs' => bind (body s x) (for_each body xs')
  end.

(** [enumerate(xs)]. *)
Definition enumerate {A} (xs : list A) : list (nat * A) :=
  combine (seq 0 (length xs)) xs.

(** [list.sort()] on floats (ascending, stable). *)
Fixpoint insert_sorted (x : Q) (l : list Q) : list Q :=
  match l with
  | [] => [x]
  | y :: l' => if ltb x y then x :: l else y :: insert_sorted x l'
  end.

Definition sort (l : list Q) : list Q := fold_right insert_sorted [] l.

(** [min(a, b)]: the first argument unless the second is smaller. *)
Definition min (a b : Q) : Q := if ltb b a then b else a.

(** [max(l)] on the non-empty list [x :: l]: the first of the greatest. *)
Definition list_max (x : Q) (l : list Q) : Q := fold_left max l x.

(** [round(x)]: the nearest integer, a half going to the even neighbour. *)
Definition round (x : Q) : Z :=
  let f := Qfloor x in
  let r := x - inject_Z f in
  if ltb r (1 # 2) then f
  else if ltb (1 # 2) r then (f + 1)%Z
  else if Z.even f then f else (f + 1)%Z.

(** [l[s:e]] for [0 <= s <= e]: cut short where the list ends. *)
Definition slice {A} (l : list A) (s e : nat) : list A :=
  firstn (e - s) (skipn s l).

(** [d.append(x)] on a [deque] made with [maxlen]: the element is added on
    the right and, when that exceeds [maxlen], the leftmost one is dropped. *)
Definition deque_append {A} (maxlen : nat) (d : list A) (x : A) : list A :=
  let d' := d ++ [x] in
  if (maxlen <? length d')%nat then tl d' else d'.

End Py.

(** The one place where the source rounds a float to an integer, on binary64
    values, to compare with [Py.int_mul_06]. *)
Module Binary64.

(** [int(x)] for a finite [x]: truncation towards zero. *)
Definition int (x : float) : Z :=
  match Prim2SF x with
  | S754_finite s m e =>
      let magnitude :=
        if (0 <=? e)%Z then Z.shiftl (Zpos m) e else Z.shiftr (Zpos m) (- e) in
      if s then (- magnitude)%Z else magnitude
  | _ => 0%Z
  end.

(** The literal [0.6]: the binary64 value nearest to 6/10. *)
Definition lit_06 : float := 0x1.3333333333333p-1%float.

(** [int(n * 0.6)] for an integer [0 <= n < 2^63]. *)
Definition int_mul_06 (n : Z) : Z :=
  int (PrimFloat.mul (PrimFloat.of_uint63 (Uint63.of_Z n)) lit_06).

End Binary64.

Notation "'let*' x ':=' m 'in' k" := (Py.bind m (fun x => k))
  (at level 10, x name, m at level 100, k at level 200).

Import Py(PyResult, Ok, Raise, IndexError, ZeroDivisionError).

Open Scope string_scope.
Open Scope list_scope.
Open Scope Q_scope.

(* ===================================================================== *)
(** ** Module-level helpers *)
(* ===================================================================== *)

Definition clamp (value low high : Q) : Q := Py.max low (Py.min high value).

(* ===================================================================== *)
(** ** Reference events *)
(* ===================================================================== *)

Record RefEvent := mkRefEvent {
  kind : string;          (* "brake", "lift", "power" *)
  ev_lap_pct : Q;
  dist_m : option Q;
}.

(** [RefEvent(kind, lap_pct)]: [dist_m] defaults to [None]. *)
Definition new_event (k : string) (p : Q) : RefEvent :=
  {| kind := k; ev_lap_pct := p; dist_m := None |}.

(* ===================================================================== *)
(** ** ReferenceLap *)
(* ===================================================================== *)

Module ReferenceLap.

(** The sample series that the event scan reads, the thresholds and the
    derived lists.  Any channel (throttle, brake, steering, gear, speed) is
    handed to [ref_at_pct] as its [data] argument. *)
Record t := mk {
  lap_pct : list Q;
  throttle : list Q;
  brake : list Q;
  brake_threshold : Q;
  lift_threshold : Q;
  power_threshold : Q;
  events : list RefEvent;
  brake_points : list Q;
}.

(** The locals of the scan in [_build_events]. *)
Record Scan := mkScan {
  in_brake : bool;
  in_lift : bool;
  scan_events : list RefEvent;
  scan_brake_points : list Q;
}.

(** One iteration of the loop [for i in range(1, len(self.lap_pct))]. *)
Definition scan_step (self : t) (st : Scan) (i : nat) : PyResult Scan :=
  let* brake_val := Py.index (brake self) i in
  let* throttle_val := Py.index (throttle self) i in
  let* prev_brake := Py.index (brake self) (i - 1) in
  let* prev_throttle := Py.index (throttle self) (i - 1) in
  let brake_fires :=
    negb (in_brake st)
    && Py.ltb prev_brake (brake_threshold self)
    && Py.leb (brake_threshold self) brake_val in
  let* st1 :=
    (if brake_fires
     then let* p := Py.index (lap_pct self) i in
          Ok {| in_brake := true; in_lift := false;
                scan_events := scan_events st ++ [new_event "brake" p];
                scan_brake_points := scan_brake_points st ++ [p] |}
     else Ok st) in
  let st2 :=
    if in_brake st1 && Py.ltb brake_val (brake_threshold self * 0.5)
    then {| in_brake := false; in_lift := in_lift st1;
            scan_events := scan_events st1;
            scan_brake_points := scan_brake_points st1 |}
    else st1 in
  let lift_fires :=
    negb (in_brake st2)
    && negb (in_lift st2)
    && Py.leb (lift_threshold self) prev_throttle
    && Py.ltb throttle_val (lift_threshold self)
    && Py.ltb brake_val (brake_threshold self) in
  let* st3 :=
    (if lift_fires
     then let* p := Py.index (lap_pct self) i in
          Ok {| in_brake := in_brake st2; in_lift := true;
                scan_events := scan_events st2 ++ [new_event "lift" p];
                scan_brake_points := scan_brake_points st2 |}
     else Ok st2) in
  let st4 :=
    if in_lift st3 && Py.ltb (lift_threshold self * 1.2) throttle_val
    then {| in_brake := in_brake st3; in_lift := false;
            scan_events := scan_events st3;
            scan_brake_points := scan_brake_points st3 |}
    else st3 in
  let power_fires :=
    (in_brake st4 || in_lift st4)
    && Py.ltb prev_throttle (power_threshold self)
    && Py.leb (power_threshold self) throttle_val in
  if power_fires
  then let* p := Py.index (lap_pct self) i in
       Ok {| in_brake := in_brake st4; in_lift := in_lift st4;
             scan_events := scan_events st4 ++ [new_event "power" p];
             scan_brake_points := scan_brake_points st4 |}
  else Ok st4.

Definition with_events (self : t) (evs : list RefEvent) (bps : list Q) : t :=
  {| lap_pct := lap_pct self; throttle := throttle self; brake := brake self;
     brake_threshold := brake_threshold self;
     lift_threshold := lift_threshold self;
     power_threshold := power_threshold self;
     events := evs; brake_points := bps |}.

Definition _build_events (self : t) : PyResult t :=
  match lap_pct self with
  | [] => Ok (with_events self [] [])
  | _ =>
      let* st := Py.for_each (scan_step self)
              (seq 1 (length (lap_pct self) - 1))
              {| in_brake := false; in_lift := false;
                 scan_events := []; scan_brake_points := [] |} in
      Ok (with_events self (scan_events st) (Py.sort (scan_brake_points st)))
  end.

(** [bisect.bisect_left(a, x)]: the loop of the standard library,
<<
    while lo < hi:
        mid = (lo + hi) // 2
        if a[mid] < x: lo = mid + 1
        else: hi = mid
>>
    [mid] is below [hi <= len(a)], so [a[mid]] is always in range. *)
Equations? bisect_loop (a : list Q) (x : Q) (lo hi : nat) : nat
  by wf (hi - lo)%nat lt :=
  bisect_loop a x lo hi with lt_dec lo hi := {
    | left Hlt with Py.ltb (nth ((lo + hi) / 2) a 0) x := {
        | true := bisect_loop a x (S ((lo + hi) / 2)) hi
        | false := bisect_loop a x lo ((lo + hi) / 2) }
    | right _ := lo }.
Proof.
  all: change (fst (Nat.divmod (lo + hi) 1 0 1)) with ((lo + hi) / 2)%nat;
    assert (lo <= (lo + hi) / 2)%nat by (apply Nat.div_le_lower_bound; lia);
    assert ((lo + hi) / 2 < hi)%nat by (apply Nat.Div0.div_lt_upper_bound; lia);
    lia.
Qed.

Definition bisect_left (a : list Q) (x : Q) : nat :=
  bisect_loop a x 0 (length a).

(** The [return] statement that [ref_at_pct] leaves through. *)
Inductive Exit :=
| ExitEmpty          (* return 0.0 *)
| ExitFirst          (* return data[0] *)
| ExitLast           (* return data[-1] *)
| ExitEqualSamples   (* return data[idx] *)
| ExitInterpolate.   (* return data[idx-1] + (data[idx]-data[idx-1])*ratio *)

Definition ref_at_pct_exit (self : t) (data : list Q) (pct : Q)
  : PyResult (Exit * Q) :=
  match lap_pct self with
  | [] => Ok (ExitEmpty, 0)
  | _ =>
      let idx := bisect_left (lap_pct self) pct in
      if (idx <=? 0)%nat then
        let* v := Py.index data 0 in Ok (ExitFirst, v)
      else if (length (lap_pct self) <=? idx)%nat then
        let* v := Py.last data in Ok (ExitLast, v)
      else
        let* before := Py.index (lap_pct self) (idx - 1) in
        let* after := Py.index (lap_pct self) idx in
        if Py.eqb after before then
          let* v := Py.index data idx in Ok (ExitEqualSamples, v)
        else
          let* ratio := Py.div (pct - before) (after - before) in
          let* d0 := Py.index data (idx - 1) in
          let* d1 := Py.index data idx in
          Ok (ExitInterpolate, d0 + (d1 - d0) * ratio)
  end.

Definition ref_at_pct (self : t) (data : list Q) (pct : Q) : PyResult Q :=
  let* r := ref_at_pct_exit self data pct in Ok (snd r).

Definition refresh_thresholds (self : t) (brake_th lift_th power_th : Q)
  : PyResult t :=
  _build_events
    {| lap_pct := lap_pct self; throttle := throttle self; brake := brake self;
       brake_threshold := brake_th;
       lift_threshold := lift_th;
       power_threshold := power_th;
       events := events self; brake_points := brake_points self |}.

Definition set_event_distances (self : t) (track_len_m : Q) : t :=
  with_events self
    (map (fun event =>
            {| kind := kind event; ev_lap_pct := ev_lap_pct event;
               dist_m := Some (ev_lap_pct event * track_len_m) |})
         (events self))
    (brake_points self).

(** The whole object: the part that the event scan works on, the other
    channels and the track length read from the file. *)
Record Lap := mkLap {
  core : t;
  steering : list Q;
  gear : list Z;
  speed : list Q;
  track_length_m : option Q;
}.

Definition ref_gear_at_pct (self : Lap) (pct : Q) : PyResult Z :=
  let* v := ref_at_pct (core self) (map inject_Z (gear self)) pct in
  Ok (Py.round v).

(** The channels of an IBT file as [ibt.get_all] hands them over.  A
    variable that the file does not have is the empty list here: the loader
    tests the channels for truth only, and an empty list and [None] are both
    false. *)
Record Ibt := mkIbt {
  LapDistPct : list Q;
  LapDist : list Q;
  Throttle : list Q;
  Brake : list Q;
  SteeringWheelAngle : list Q;
  Gear : list Z;
  Speed : list Q;
}.

(** One iteration of the loop of [_load_ibt] that cuts the samples at lap
    rollovers: the segments found so far and [start].  The index [i] runs
    over [range(1, len(lap_pct_all))], so both reads are in range. *)
Definition cut_step (lap_pct_all : list Q) (acc : list (nat * nat) * nat)
    (i : nat) : list (nat * nat) * nat :=
  let '(segments, start) := acc in
  if Py.ltb (nth i lap_pct_all 0) (nth (i - 1) lap_pct_all 0 - 0.5)
  then (segments ++ [(start, i)], i)
  else (segments, start).

Definition cut_segments (lap_pct_all : list Q) : list (nat * nat) :=
  let '(segments, start) :=
    fold_left (cut_step lap_pct_all) (seq 1 (length lap_pct_all - 1))
      ([], 0%nat) in
  segments ++ [(start, length lap_pct_all)].

(** [max(seg :: segments, key=lambda seg: seg[1] - seg[0])]: the first of
    the longest. *)
Definition longest (seg : nat * nat) (segments : list (nat * nat))
  : nat * nat :=
  fold_left
    (fun best seg =>
       if (snd best - fst best <? snd seg - fst seg)%nat then seg else best)
    segments seg.

(** How [ReferenceLap(...)] can fail: the [ValueError] of the loader, or an
    exception of the event scan. *)
Inductive LoadError := ValueError | ScanError (e : Py.PyError).

(** [__init__] followed by [_load_ibt], from the channels read from the
    file. *)
Definition _load_ibt (ibt : Ibt) (brake_th lift_th power_th : Q)
  : LoadError + Lap :=
  match LapDistPct ibt with
  | [] => inl ValueError
  | _ =>
      match cut_segments (LapDistPct ibt) with
      | [] => inl ValueError
      | seg :: segments =>
          let '(s, e) := longest seg segments in
          let lap_pct := Py.slice (LapDistPct ibt) s e in
          let lap_pct :=
            match lap_pct with
            | [] => lap_pct
            | x :: rest =>
                if Py.ltb 1.5 (Py.list_max x rest)
                then map (fun pct => pct / 100.0) lap_pct
                else lap_pct
            end in
          let length := (e - s)%nat in
          let channel (all : list Q) : list Q :=
            match all with
            | [] => repeat 0.0 length
            | _ => Py.slice all s e
            end in
          let track_length_m :=
            match LapDist ibt with
            | [] => None
            | _ =>
                match Py.slice (LapDist ibt) s e with
                | [] => None
                | d :: rest =>
                    let max_dist := Py.list_max d rest in
                    if Py.ltb 0 max_dist then Some max_dist else None
                end
            end in
          match
            _build_events
              {| lap_pct := lap_pct;
                 throttle := channel (Throttle ibt);
                 brake := channel (Brake ibt);
                 brake_threshold := brake_th;
                 lift_threshold := lift_th;
                 power_threshold := power_th;
                 events := []; brake_points := [] |}
          with
          | Raise e => inl (ScanError e)
          | Ok lap =>
              inr {| core := lap;
                     steering := channel (SteeringWheelAngle ibt);
                     gear := match Gear ibt with
                             | [] => repeat 0%Z length
                             | _ => Py.slice (Gear ibt) s e
                             end;
                     speed := channel (Speed ibt);
                     track_length_m := track_length_m |}
          end
      end
  end.

End ReferenceLap.

(* ===================================================================== *)
(** ** AudioCues *)
(* ===================================================================== *)

Module AudioCues.

(** Priority values (lower = higher priority). *)
Definition _PRIORITY_C : Z := 0.
Definition _PRIORITY_B : Z := 1.
Definition _PRIORITY_A : Z := 2.

Definition DEFAULT_APPROACH_SPEED_MPS : Q := 25.

(** The stage names ["a"], ["b"], ["c"]. *)
Inductive Stage := StageA | StageB | StageC.

#[global] Instance Stage_eq_dec : EqDecision Stage.
Proof. solve_decision. Defined.

(** A tone [(frequency, duration_ms, gap_ms)] and a pattern of tones. *)
Definition Tone : Type := Z * Z * Z.
Definition Pattern : Type := list Tone.

(** The per-event dictionary [{"a": .., "b": .., "c": ..}]. *)
Record StageFlags := mkFlags { flag_a : bool; flag_b : bool; flag_c : bool }.

Definition no_flags : StageFlags :=
  {| flag_a := false; flag_b := false; flag_c := false |}.

Definition flag_of (f : StageFlags) (st : Stage) : bool :=
  match st with
  | StageA => flag_a f
  | StageB => flag_b f
  | StageC => flag_c f
  end.

Definition raise_flag (f : StageFlags) (st : Stage) : StageFlags :=
  match st with
  | StageA => {| flag_a := true; flag_b := flag_b f; flag_c := flag_c f |}
  | StageB => {| flag_a := flag_a f; flag_b := true; flag_c := flag_c f |}
  | StageC => {| flag_a := flag_a f; flag_b := flag_b f; flag_c := true |}
  end.

(** The fields of the scheduler.  [_audio_queue] holds the pending items,
    oldest first, as the enqueuing side finds them; the thread that consumes
    the queue is not part of this model. *)
Record t := mk {
  _stage_state : gmap nat StageFlags;
  _last_dist_to_event : gmap nat Q;
  _last_lap_pct : option Q;
  _lap_id : Z;
  _audio_queue : list (Z * Pattern);
  _current_priority : option Z;
}.

(** The object after [__init__]. *)
Definition init : t :=
  {| _stage_state := ∅; _last_dist_to_event := ∅; _last_lap_pct := None;
     _lap_id := 0; _audio_queue := []; _current_priority := None |}.

(** A call of [_play_pattern] made by [trigger], with the lap counter, the
    event index and the [force_c] argument of the enclosing
    [_handle_stage] call. *)
Record Cue := mkCue {
  cue_lap : Z;
  cue_idx : nat;
  cue_stage : Stage;
  cue_forced : bool;
}.

#[global] Instance Cue_eq_dec : EqDecision Cue.
Proof. solve_decision. Defined.

(** The arguments of one call of [update]. *)
Record Args := mkArgs {
  lap_pct : option Q;
  track_len_m : option Q;
  events : list RefEvent;
  approach_a_s : Q;
  approach_b_s : Q;
  final_cue_offset_m : Q;
  enable_brake : bool;
  enable_lift : bool;
  enable_power : bool;
  quiet_mode : bool;
  speed_mps : option Q;
}.

Definition _pattern_for (kind : string) (stage : Stage) : Pattern :=
  if String.eqb kind "lift" then
    match stage with
    | StageA => [(520, 80, 0)]
    | StageB => [(700, 110, 0)]
    | StageC => [(980, 190, 0)]
    end%Z
  else if String.eqb kind "power" then
    match stage with
    | StageA => [(640, 80, 0)]
    | StageB => [(860, 110, 0)]
    | StageC => [(1200, 190, 0)]
    end%Z
  else
    match stage with
    | StageA => [(560, 90, 0)]
    | StageB => [(820, 130, 0)]
    | StageC => [(1300, 700, 0)]
    end%Z.

(** [_clear_audio_queue]: [get_nowait] until the queue is empty. *)
Fixpoint drain (q : list (Z * Pattern)) : list (Z * Pattern) :=
  match q with
  | [] => []
  | _ :: q' => drain q'
  end.

Definition _clear_audio_queue (self : t) : t :=
  {| _stage_state := _stage_state self;
     _last_dist_to_event := _last_dist_to_event self;
     _last_lap_pct := _last_lap_pct self;
     _lap_id := _lap_id self;
     _audio_queue := drain (_audio_queue self);
     _current_priority := _current_priority self |}.

(** The quiet-mode scaling in [_play_pattern]. *)
Definition quiet_tone (tone : Tone) : Tone :=
  let '(freq, duration, gap) := tone in
  (freq, Z.max 40 (Py.int_mul_06 duration), Py.int_mul_06 gap).

Definition quiet (pattern : Pattern) : Pattern := map quiet_tone pattern.

(** [priority_map.get(stage, _PRIORITY_A)]. *)
Definition priority_of (stage : Stage) : Z :=
  match stage with
  | StageC => _PRIORITY_C
  | StageB => _PRIORITY_B
  | StageA => _PRIORITY_A
  end.

Definition reset (self : t) : t :=
  _clear_audio_queue
    {| _stage_state := ∅; _last_dist_to_event := ∅; _last_lap_pct := None;
       _lap_id := 0; _audio_queue := _audio_queue self;
       _current_priority := _current_priority self |}.

Definition _approach_distances (speed_mps : option Q)
    (approach_a_s approach_b_s : Q) : Q * Q :=
  let speed :=
    match speed_mps with
    | Some v => if Py.truthy speed_mps && Py.ltb 0 v then v
                else DEFAULT_APPROACH_SPEED_MPS
    | None => DEFAULT_APPROACH_SPEED_MPS
    end in
  let approach_a_m := Py.max 1.0 (speed * approach_a_s) in
  let approach_b_m := Py.max 0.5 (speed * approach_b_s) in
  let approach_b_m :=
    if Py.leb approach_a_m approach_b_m
    then Py.max 0.5 (approach_a_m * 0.5)
    else approach_b_m in
  (approach_a_m, approach_b_m).

Section Platform.

(** Whether the [winsound] module could be imported. *)
Variable winsound : bool.

Definition put (self : t) (item : Z * Pattern) : t :=
  {| _stage_state := _stage_state self;
     _last_dist_to_event := _last_dist_to_event self;
     _last_lap_pct := _last_lap_pct self;
     _lap_id := _lap_id self;
     _audio_queue := _audio_queue self ++ [item];
     _current_priority := _current_priority self |}.

Definition set_current_priority (self : t) (p : option Z) : t :=
  {| _stage_state := _stage_state self;
     _last_dist_to_event := _last_dist_to_event self;
     _last_lap_pct := _last_lap_pct self;
     _lap_id := _lap_id self;
     _audio_queue := _audio_queue self;
     _current_priority := p |}.

(** Without [winsound] the cue is [root.bell()], which leaves the object
    as it is. *)
Definition _play_pattern (self : t) (pattern : Pattern) (quiet_mode : bool)
    (stage : Stage) : t :=
  let pattern := if quiet_mode then quiet pattern else pattern in
  let priority := priority_of stage in
  if winsound then
    let self :=
      if (priority <=? _PRIORITY_B)%Z
      then set_current_priority (_clear_audio_queue self) (Some priority)
      else self in
    put self (priority, pattern)
  else self.

Definition with_stage_state (self : t) (m : gmap nat StageFlags) : t :=
  {| _stage_state := m;
     _last_dist_to_event := _last_dist_to_event self;
     _last_lap_pct := _last_lap_pct self;
     _lap_id := _lap_id self;
     _audio_queue := _audio_queue self;
     _current_priority := _current_priority self |}.

Definition with_last_dist (self : t) (m : gmap nat Q) : t :=
  {| _stage_state := _stage_state self;
     _last_dist_to_event := m;
     _last_lap_pct := _last_lap_pct self;
     _lap_id := _lap_id self;
     _audio_queue := _audio_queue self;
     _current_priority := _current_priority self |}.

(** [self._stage_state.setdefault(idx, {...})]. *)
Definition setdefault (self : t) (idx : nat) : t :=
  match _stage_state self !! idx with
  | Some _ => self
  | None => with_stage_state self (<[idx := no_flags]> (_stage_state self))
  end.

(** [state[stage]], where [state] is the dictionary stored under [idx]. *)
Definition stage_flag (self : t) (idx : nat) (stage : Stage) : bool :=
  match _stage_state self !! idx with
  | Some f => flag_of f stage
  | None => false
  end.

(** [state[stage] = True]. *)
Definition set_stage_flag (self : t) (idx : nat) (stage : Stage) : t :=
  match _stage_state self !! idx with
  | Some f =>
      with_stage_state self (<[idx := raise_flag f stage]> (_stage_state self))
  | None => self
  end.

Definition trigger (self : t) (idx : nat) (event : RefEvent)
    (quiet_mode force_c : bool) (stage : Stage) : t * list Cue :=
  if stage_flag self idx stage then (self, [])
  else
    let self := set_stage_flag self idx stage in
    (_play_pattern self (_pattern_for (kind event) stage) quiet_mode stage,
     [{| cue_lap := _lap_id self; cue_idx := idx; cue_stage := stage;
         cue_forced := force_c |}]).

Definition crossed (distance : Q) (last_distance : option Q) (threshold : Q)
  : bool :=
  match last_distance with
  | None => Py.leb distance threshold
  | Some last => Py.ltb threshold last && Py.leb distance threshold
  end.

Definition _handle_stage (self : t) (idx : nat) (event : RefEvent)
    (distance : Q) (last_distance : option Q) (approach_a approach_b : Q)
    (final_cue_offset_m : Q) (quiet_mode pct_mode force_c : bool)
  : t * list Cue :=
  let self := setdefault self idx in
  if force_c then trigger self idx event quiet_mode force_c StageC
  else
    let '(self, cues_a) :=
      if crossed distance last_distance approach_a
         && negb (stage_flag self idx StageA)
      then trigger self idx event quiet_mode force_c StageA
      else (self, []) in
    let '(self, cues_b) :=
      if crossed distance last_distance approach_b
         && negb (stage_flag self idx StageB)
      then trigger self idx event quiet_mode force_c StageB
      else (self, []) in
    let final_threshold :=
      if pct_mode then 0.001 else Py.max 0.0 final_cue_offset_m in
    let '(self, cues_c) :=
      if crossed distance last_distance final_threshold
         && negb (stage_flag self idx StageC)
      then trigger self idx event quiet_mode force_c StageC
      else (self, []) in
    (self, cues_a ++ cues_b ++ cues_c).

(** The three [continue] tests on the event kind. *)
Definition kind_disabled (a : Args) (event : RefEvent) : bool :=
  (String.eqb (kind event) "brake" && negb (enable_brake a))
  || (String.eqb (kind event) "lift" && negb (enable_lift a))
  || (String.eqb (kind event) "power" && negb (enable_power a)).

(** The two calls of [_handle_stage] for one event and the update of the
    last-distance cache; shared by both loops of [update]. *)
Definition stage_event (a : Args) (pct_mode : bool)
    (approach_a approach_b : Q) (self : t) (idx : nat) (event : RefEvent)
    (distance : Q) : t * list Cue :=
  let last := _last_dist_to_event self !! idx in
  let '(self, cues) :=
    _handle_stage self idx event distance last approach_a approach_b
      (final_cue_offset_m a) (quiet_mode a) pct_mode false in
  let '(self, forced) :=
    match last with
    | Some l =>
        if Py.leb l approach_b && Py.ltb l distance
        then _handle_stage self idx event 0.0 last approach_a approach_b
               (final_cue_offset_m a) (quiet_mode a) pct_mode true
        else (self, [])
    | None => (self, [])
    end in
  (with_last_dist self (<[idx := distance]> (_last_dist_to_event self)),
   cues ++ forced).

(** Body of the loop of the distance mode. *)
Definition distance_body (a : Args) (lap_pct track_len_m : Q)
    (approach_a_m approach_b_m : Q) (acc : t * list Cue)
    (ie : nat * RefEvent) : t * list Cue :=
  let '(self, log) := acc in
  let '(idx, event) := ie in
  match dist_m event with
  | None => acc
  | Some event_dist_m =>
      if kind_disabled a event then acc
      else
        let current_dist_m := lap_pct * track_len_m in
        let dist_to_event :=
          Py.fmod (event_dist_m - current_dist_m) track_len_m in
        let '(self, cues) :=
          stage_event a false approach_a_m approach_b_m self idx event
            dist_to_event in
        (self, log ++ cues)
  end.

(** Body of the loop of the fraction mode. *)
Definition fraction_body (a : Args) (lap_pct : Q) (acc : t * list Cue)
    (ie : nat * RefEvent) : t * list Cue :=
  let '(self, log) := acc in
  let '(idx, event) := ie in
  if kind_disabled a event then acc
  else
    let delta_pct := Py.fmod (ev_lap_pct event - lap_pct) 1.0 in
    let '(self, cues) :=
      stage_event a true 0.02 0.01 self idx event delta_pct in
    (self, log ++ cues).

(** The lap-rollover test at the head of [update]. *)
Definition rollover (self : t) (lap_pct : Q) : bool :=
  match _last_lap_pct self with
  | Some last => Py.ltb lap_pct (last - 0.5)
  | None => false
  end.

(** The head of [update]: rollover handling and [_last_lap_pct]. *)
Definition begin_tick (self : t) (lap_pct : Q) : t :=
  if rollover self lap_pct then
    {| _stage_state := ∅; _last_dist_to_event := ∅;
       _last_lap_pct := Some lap_pct;
       _lap_id := (_lap_id self + 1)%Z;
       _audio_queue := _audio_queue self;
       _current_priority := _current_priority self |}
  else
    {| _stage_state := _stage_state self;
       _last_dist_to_event := _last_dist_to_event self;
       _last_lap_pct := Some lap_pct;
       _lap_id := _lap_id self;
       _audio_queue := _audio_queue self;
       _current_priority := _current_priority self |}.

Definition update (self : t) (a : Args) : t * list Cue :=
  match lap_pct a with
  | None => (self, [])
  | Some lap_pct =>
      let self := begin_tick self lap_pct in
      match events a with
      | [] => (self, [])
      | _ =>
          match track_len_m a with
          | Some len =>
              if Py.truthy (track_len_m a) && Py.ltb 1.0 len then
                let '(approach_a_m, approach_b_m) :=
                  _approach_distances (speed_mps a) (approach_a_s a)
                    (approach_b_s a) in
                fold_left
                  (distance_body a lap_pct len approach_a_m approach_b_m)
                  (Py.enumerate (events a)) (self, [])
              else
                fold_left (fraction_body a lap_pct)
                  (Py.enumerate (events a)) (self, [])
          | None =>
              fold_left (fraction_body a lap_pct)
                (Py.enumerate (events a)) (self, [])
          end
      end
  end.

(** A sequence of scheduler ticks, with the cues of all of them. *)
Fixpoint run (self : t) (ticks : list Args) : t * list Cue :=
  match ticks with
  | [] => (self, [])
  | a :: rest =>
      let '(self, cues) := update self a in
      let '(self, later) := run self rest in
      (self, cues ++ later)
  end.

End Platform.

End AudioCues.

(* ===================================================================== *)
(** ** OverlayWindow: the points of a telemetry line *)
(* ===================================================================== *)

Module OverlayWindow.

(** A sample of the flow window: a dictionary from series names, and ["t"]
    for the time stamp, to optional floats. *)
Definition Sample : Type := gmap string (option Q).

(** What [_build_line_points] can raise: [sample["t"]] on a dictionary
    without that key, and the division by [flow_window_s]. *)
Inductive LineError := KeyError | DivisionByZero.

(** One iteration of the loop over the window, on [segments] and
    [current_points]. *)
Definition point_step (key : string)
    (origin_x bottom height cutoff flow_window_s split_x series_offset_s : Q)
    (acc : list (list Q) * list Q) (sample : Sample)
  : LineError + (list (list Q) * list Q) :=
  let '(segments, current_points) := acc in
  match sample !! key with
  | Some (Some value) =>
      match sample !! "t" with
      | None => inl KeyError
      | Some None => inr (segments, current_points)
      | Some (Some t) =>
          let effective_t := t - series_offset_s in
          if Py.eqb flow_window_s 0 then inl DivisionByZero
          else
            let x :=
              origin_x
              + ((effective_t - cutoff) / flow_window_s) * (split_x - origin_x) in
            let normalized := clamp value 0.0 1.0 in
            let y := bottom - normalized * height in
            inr (segments, current_points ++ [x; y])
      end
  | _ =>
      inr (if (4 <=? length current_points)%nat
           then segments ++ [current_points] else segments,
           [])
  end.

Fixpoint point_loop (step : list (list Q) * list Q -> Sample
                            -> LineError + (list (list Q) * list Q))
    (window : list Sample) (acc : list (list Q) * list Q)
  : LineError + (list (list Q) * list Q) :=
  match window with
  | [] => inr acc
  | sample :: rest =>
      match step acc sample with
      | inl e => inl e
      | inr acc' => point_loop step rest acc'
      end
  end.

Definition _build_line_points (window : list Sample) (key : string)
    (origin_x bottom height cutoff flow_window_s split_x series_offset_s : Q)
  : LineError + list (list Q) :=
  match
    point_loop
      (point_step key origin_x bottom height cutoff flow_window_s split_x
         series_offset_s)
      window ([], [])
  with
  | inl e => inl e
  | inr (segments, current_points) =>
      inr (if (4 <=? length current_points)%nat
           then segments ++ [current_points] else segments)
  end.

End OverlayWindow.

(* ===================================================================== *)
(** ** MemoryLogHandler *)
(* ===================================================================== *)

Module MemoryLogHandler.

Record t := mk {
  max_entries : nat;
  entries : list string;
}.

Definition init (max_entries : nat) : t :=
  {| max_entries := max_entries; entries := [] |}.

Section Format.

(** The log records and [logging.Handler.format]. *)
Variable LogRecord : Type.
Variable format : LogRecord -> string.

Definition emit (self : t) (record : LogRecord) : t :=
  let msg := format record in
  {| max_entries := max_entries self;
     entries := Py.deque_append (max_entries self) (entries self) msg |}.

End Format.

End MemoryLogHandler.

(* ===================================================================== *)
(** ** NishizumiApp *)
(* ===================================================================== *)

Module NishizumiApp.

Record t := mk {
  last_live_lap_pct : option Q;
  live_unwrapped_m : option Q;
}.

(** The fields after [__init__], and after telemetry disconnects. *)
Definition unset : t :=
  {| last_live_lap_pct := None; live_unwrapped_m := None |}.

Definition _update_live_unwrapped (self : t) (lap_pct track_len_m : Q)
  : t * option Q :=
  if Py.leb track_len_m 0 then (self, None)
  else
    match last_live_lap_pct self, live_unwrapped_m self with
    | Some last, Some unwrapped =>
        let delta_pct := lap_pct - last in
        let delta_pct :=
          if Py.ltb delta_pct (-0.5) then delta_pct + 1.0 else delta_pct in
        let unwrapped := unwrapped + delta_pct * track_len_m in
        ({| last_live_lap_pct := Some lap_pct;
            live_unwrapped_m := Some unwrapped |}, Some unwrapped)
    | _, _ =>
        ({| last_live_lap_pct := Some lap_pct;
            live_unwrapped_m := Some (lap_pct * track_len_m) |},
         Some (lap_pct * track_len_m))
    end.

(** Feeding a sequence of lap fractions, with the value returned at each
    tick. *)
Fixpoint feed (self : t) (track_len_m : Q) (pcts : list Q)
  : t * list (option Q) :=
  match pcts with
  | [] => (self, [])
  | p :: rest =>
      let '(self, r) := _update_live_unwrapped self p track_len_m in
      let '(self, rs) := feed self track_len_m rest in
      (self, r :: rs)
  end.

(** What [_maybe_play_gear_beep] sounds: [winsound.Beep(frequency, duration)]
    or [root.bell()]. *)
Inductive Sound := Beep (frequency duration : Z) | Bell.

(** The method reads and writes [self.last_gear] only; [audio_gear_beep] is
    the value of the check box. *)
Definition _maybe_play_gear_beep (winsound audio_gear_beep : bool)
    (last_gear gear : option Z) : option Z * list Sound :=
  if negb audio_gear_beep then (gear, [])
  else
    match gear with
    | None => (None, [])
    | Some g =>
        let sounds :=
          match last_gear with
          | Some l =>
              if negb (g =? l)%Z
              then [if winsound then Beep 1100 80 else Bell]
              else []
          | None => []
          end in
        (gear, sounds)
    end.

Definition _next_brake_distance (reference : option ReferenceLap.t)
    (lap_pct : Q) (track_len_m : option Q) : PyResult (option Q) :=
  match reference with
  | None => Ok None
  | Some reference =>
      match ReferenceLap.brake_points reference, track_len_m with
      | [], _ => Ok None
      | _, None => Ok None
      | _, Some len =>
          if negb (Py.truthy track_len_m) then Ok None
          else
            let current_dist := lap_pct * len in
            let dist_list :=
              map (fun p => p * len) (ReferenceLap.brake_points reference) in
            let idx := ReferenceLap.bisect_left dist_list current_dist in
            let* next_dist :=
              (if (idx <? length dist_list)%nat
               then Py.index dist_list idx
               else Py.index dist_list 0) in
            let distance_to := Py.fmod (next_dist - current_dist) len in
            Ok (Some distance_to)
      end
  end.

End NishizumiApp.

(* ===================================================================== *)
(** ** Measures used by the statements *)
(* ===================================================================== *)

Definition duration_ms (tone : AudioCues.Tone) : Z := snd (fst tone).
Definition gap_ms (tone : AudioCues.Tone) : Z := snd tone.

(** Total duration of a pattern: the sum of all durations and gaps. *)
Definition total_ms (pattern : AudioCues.Pattern) : Z :=
  fold_right (fun tone acc => (duration_ms tone + gap_ms tone + acc)%Z) 0%Z
    pattern.

(** The speed that [_approach_distances] works with. *)
Definition speed_or_default (speed_mps : option Q) : Q :=
  match speed_mps with
  | Some v => if Qlt_le_dec 0 v then v else AudioCues.DEFAULT_APPROACH_SPEED_MPS
  | None => AudioCues.DEFAULT_APPROACH_SPEED_MPS
  end.

(** How many cues of a log belong to a lap, an event and a stage. *)
Definition fired (log : list AudioCues.Cue) (lap : Z) (idx : nat)
    (stage : AudioCues.Stage) : nat :=
  length
    (List.filter
       (fun c =>
          bool_decide (AudioCues.cue_lap c = lap
                       /\ AudioCues.cue_idx c = idx
                       /\ AudioCues.cue_stage c = stage))
       log).

(** The cues of a log that belong to one event. *)
Definition cues_of (log : list AudioCues.Cue) (idx : nat) : list AudioCues.Cue :=
  List.filter (fun c => bool_decide (AudioCues.cue_idx c = idx)) log.


(** The unwrapper holds [last] as its last fraction and [last] times the track
    length as its distance. *)
Definition in_step (track_len_m : Q) (self : NishizumiApp.t) (last : Q) : Prop :=
  NishizumiApp.last_live_lap_pct self = Some last
  /\ exists u, NishizumiApp.live_unwrapped_m self = Some u
               /\ u == last * track_len_m.

(** One iteration of the scan of [_build_events] with the lift and power
    tests left out: the brake test and the brake release. *)
Definition brake_step (th : Q) (st : ReferenceLap.Scan)
    (prev_brake brake_val p : Q) : ReferenceLap.Scan :=
  let st1 :=
    if negb (ReferenceLap.in_brake st)
       && Py.ltb prev_brake th && Py.leb th brake_val
    then {| ReferenceLap.in_brake := true; ReferenceLap.in_lift := false;
            ReferenceLap.scan_events :=
              ReferenceLap.scan_events st ++ [new_event "brake" p];
            ReferenceLap.scan_brake_points :=
              ReferenceLap.scan_brake_points st ++ [p] |}
    else st in
  if ReferenceLap.in_brake st1 && Py.ltb brake_val (th * 0.5)
  then {| ReferenceLap.in_brake := false;
          ReferenceLap.in_lift := ReferenceLap.in_lift st1;
          ReferenceLap.scan_events := ReferenceLap.scan_events st1;
          ReferenceLap.scan_brake_points := ReferenceLap.scan_brake_points st1 |}
  else st1.

(** A tick at lap fraction [p] on a 5000 m track with two brake events 20 m
    apart (at 2500 m and 2520 m), at 25 m/s, lead times 2 s and 1 s. *)
Definition close_events_tick (p : Q) : AudioCues.Args :=
  {| AudioCues.lap_pct := Some p;
     AudioCues.track_len_m := Some 5000;
     AudioCues.events :=
       [ {| kind := "brake"; ev_lap_pct := 0.5; dist_m := Some 2500 |};
         {| kind := "brake"; ev_lap_pct := 0.504; dist_m := Some 2520 |} ];
     AudioCues.approach_a_s := 2;
     AudioCues.approach_b_s := 1;
     AudioCues.final_cue_offset_m := 0;
     AudioCues.enable_brake := true;
     AudioCues.enable_lift := true;
     AudioCues.enable_power := true;
     AudioCues.quiet_mode := false;
     AudioCues.speed_mps := Some 25 |}.

(* ===================================================================== *)
(** ** The scheduler seen tick by tick *)
(* ===================================================================== *)

Import AudioCues.

(** [s'] continues the lap of [s]: same lap, stage flags only raised, and
    the cues are exactly the flags raised. *)
Definition advances (s : AudioCues.t) (cues : list Cue) (s' : AudioCues.t) : Prop :=
  _lap_id s' = _lap_id s
  /\ (forall i st, stage_flag s i st = true -> stage_flag s' i st = true)
  /\ (forall L i st,
        fired cues L i st
        = if bool_decide (L = _lap_id s) && stage_flag s' i st
             && negb (stage_flag s i st)
          then 1%nat else 0%nat).

(** A step that concerns the event [idx] only. *)
Definition event_step (idx : nat) (s : AudioCues.t) (cues : list Cue)
    (s' : AudioCues.t) : Prop :=
  advances s cues s'
  /\ _last_dist_to_event s' = _last_dist_to_event s
  /\ (is_Some (_stage_state s !! idx) -> is_Some (_stage_state s' !! idx))
  /\ Forall (fun c => cue_idx c = idx) cues.

(** Whether [update] takes the branch of the distance mode. *)
Definition distance_mode (a : Args) : bool :=
  match track_len_m a with
  | Some len => Py.truthy (track_len_m a) && Py.ltb 1.0 len
  | None => false
  end.

(** The far and near thresholds [update] works with on a tick. *)
Definition tick_thresholds (a : Args) : Q * Q :=
  if distance_mode a
  then _approach_distances (speed_mps a) (approach_a_s a) (approach_b_s a)
  else (0.02, 0.01).

(** The distance [update] computes for an event on a tick at lap fraction
    [p]; [None] when the loop skips the event. *)
Definition tick_distance (a : Args) (p : Q) (event : RefEvent) : option Q :=
  if distance_mode a then
    match track_len_m a, dist_m event with
    | Some len, Some event_dist_m =>
        if kind_disabled a event then None
        else Some (Py.fmod (event_dist_m - p * len) len)
    | _, _ => None
    end
  else
    if kind_disabled a event then None
    else Some (Py.fmod (ev_lap_pct event - p) 1.0).

(** The common shape of the two loop bodies of [update]. *)
Definition tick_body (w : bool) (a : Args) (p : Q) (acc : AudioCues.t * list Cue)
    (ie : nat * RefEvent) : AudioCues.t * list Cue :=
  match tick_distance a p (snd ie) with
  | None => acc
  | Some d =>
      let r :=
        stage_event w a (negb (distance_mode a)) (fst (tick_thresholds a))
          (snd (tick_thresholds a)) (fst acc) (fst ie) (snd ie) d in
      (fst r, snd acc ++ snd r)
  end.

(** The log accounts for the flags: in the current lap a cue has been fired
    exactly for the stages whose flag is set, and no cue belongs to a later
    lap. *)
Definition consistent (s : AudioCues.t) (log : list Cue) : Prop :=
  (forall i st,
      fired log (_lap_id s) i st = if stage_flag s i st then 1%nat else 0%nat)
  /\ (forall L i st, (_lap_id s < L)%Z -> fired log L i st = 0%nat).

(** A lap on a 5000 m track with one brake event at 2500 m, driven at
    50 m/s, followed by the start of the next lap up to the same event. *)
Definition lap_tick (p : Q) : Args :=
  {| lap_pct := Some p;
     track_len_m := Some 5000;
     events := [ {| kind := "brake"; ev_lap_pct := 0.5; dist_m := Some 2500 |} ];
     approach_a_s := 2;
     approach_b_s := 1;
     final_cue_offset_m := 0;
     enable_brake := true;
     enable_lift := true;
     enable_power := true;
     quiet_mode := false;
     speed_mps := Some 50 |}.

Definition two_laps : list Args :=
  map lap_tick [0.4; 0.481; 0.492; 0.4995; 0.5005; 0.9;
                0.1; 0.481; 0.492; 0.4995; 0.5005].

(** A brake event 2 m before the start/finish line of a 5000 m track, and a
    tick at lap fraction [p], at 50 m/s. *)
Definition line_event : RefEvent :=
  {| kind := "brake"; ev_lap_pct := 0.9996; dist_m := Some 4998 |}.

Definition line_tick (p : Q) : Args :=
  {| lap_pct := Some p;
     track_len_m := Some 5000;
     events := [ line_event ];
     approach_a_s := 2;
     approach_b_s := 1;
     final_cue_offset_m := 0;
     enable_brake := true;
     enable_lift := true;
     enable_power := true;
     quiet_mode := false;
     speed_mps := Some 50 |}.

(* ===================================================================== *)
(** ** Measures and sample data of the further properties *)
(* ===================================================================== *)

(** The events of one kind. *)
Definition events_of_kind (k : string) (evs : list RefEvent) : list RefEvent :=
  List.filter (fun e => String.eqb (kind e) k) evs.

(** Whether the brake rises through the threshold at sample [i]: below it at
    the sample before, at or above it at [i]. *)
Definition brake_rises (self : ReferenceLap.t) (i : nat) : bool :=
  Py.ltb (nth (i - 1) (ReferenceLap.brake self) 0)
    (ReferenceLap.brake_threshold self)
  && Py.leb (ReferenceLap.brake_threshold self)
       (nth i (ReferenceLap.brake self) 0).

(** Whether the brake at sample [i] is below half the threshold. *)
Definition brake_released (self : ReferenceLap.t) (i : nat) : bool :=
  Py.ltb (nth i (ReferenceLap.brake self) 0)
    (ReferenceLap.brake_threshold self * 0.5).

(** The scan of [_build_events] over the samples 1 to [k]. *)
Definition scan_upto (self : ReferenceLap.t) (k : nat)
  : PyResult ReferenceLap.Scan :=
  Py.for_each (ReferenceLap.scan_step self) (seq 1 k)
    {| ReferenceLap.in_brake := false; ReferenceLap.in_lift := false;
       ReferenceLap.scan_events := []; ReferenceLap.scan_brake_points := [] |}.

(** A lap of five samples on which the brake is applied twice and let go in
    between. *)
Definition braking_lap : ReferenceLap.t :=
  ReferenceLap.mk [0.1; 0.3; 0.5; 0.7; 0.9] [1; 0.1; 1; 0.1; 1]
    [0; 0.5; 0.02; 0.5; 0] 0.1 0.2 0.7 [] [].

(** How many of the steps from [last] through [pcts] are lap completions for
    the unwrapper: the fraction drops by more than 0.5. *)
Fixpoint wraps (last : Q) (pcts : list Q) : Z :=
  match pcts with
  | [] => 0
  | p :: rest => ((if Py.ltb (p - last) (-0.5) then 1 else 0) + wraps p rest)%Z
  end.

(** [_maybe_play_gear_beep] called once per gear of a sequence, with the
    check box left as it is: the last gear and all the sounds. *)
Fixpoint gear_run (winsound audio_gear_beep : bool) (last_gear : option Z)
    (gears : list (option Z)) : option Z * list NishizumiApp.Sound :=
  match gears with
  | [] => (last_gear, [])
  | gear :: rest =>
      let '(last_gear, sounds) :=
        NishizumiApp._maybe_play_gear_beep winsound audio_gear_beep last_gear
          gear in
      let '(last_gear, later) :=
        gear_run winsound audio_gear_beep last_gear rest in
      (last_gear, sounds ++ later)
  end.

(** The gear changes of a sequence of known gears that starts from [g]. *)
Fixpoint gear_changes (g : Z) (gears : list Z) : nat :=
  match gears with
  | [] => 0
  | g' :: rest => ((if (g' =? g)%Z then 0 else 1) + gear_changes g' rest)%nat
  end.

(** The playback side of the scheduler: the pending queue and the priority
    being played. *)
Definition playback (s : AudioCues.t) : list (Z * Pattern) * option Z :=
  (_audio_queue s, _current_priority s).

(** The scheduling side: the scheduler with its playback side blanked. *)
Definition schedule (s : AudioCues.t) : AudioCues.t :=
  {| _stage_state := _stage_state s;
     _last_dist_to_event := _last_dist_to_event s;
     _last_lap_pct := _last_lap_pct s;
     _lap_id := _lap_id s;
     _audio_queue := [];
     _current_priority := None |}.

(** Behind the first pending item the queue holds far cues (priority A)
    only. *)
Definition far_behind_front (q : list (Z * Pattern)) : Prop :=
  Forall (fun item => fst item = _PRIORITY_A) (tl q).

(** Whether the lap fraction drops by more than 0.5 from sample [i - 1] to
    sample [i]: the test at which [_load_ibt] cuts the samples. *)
Definition rolls_over (lap_pct_all : list Q) (i : nat) : bool :=
  Py.ltb (nth i lap_pct_all 0) (nth (i - 1) lap_pct_all 0 - 0.5).

(** The segments follow one another without gap from [start] to [stop], and
    none is empty. *)
Fixpoint chain (segments : list (nat * nat)) (start stop : nat) : Prop :=
  match segments with
  | [] => start = stop
  | (s, e) :: rest => s = start /\ (s < e)%nat /\ chain rest e stop
  end.

(** The samples of an IBT file with three stretches: four samples of a
    first lap, five of a second one, two of a third. *)
Definition three_laps_ibt : ReferenceLap.Ibt :=
  ReferenceLap.mkIbt
    [0.6; 0.7; 0.8; 0.9; 0.1; 0.3; 0.5; 0.7; 0.9; 0.1; 0.2]
    [] [] [] [] [] [].

(** The lap fractions as [_load_ibt] stores them: divided by 100 when the
    greatest of them exceeds 1.5. *)
Definition normalised (lap_pct : list Q) : list Q :=
  match lap_pct with
  | [] => lap_pct
  | x :: rest =>
      if Py.ltb 1.5 (Py.list_max x rest)
      then map (fun pct => pct / 100.0) lap_pct
      else lap_pct
  end.

(** A flat list of points [x0; y0; x1; y1; ...] all of whose [y] lie between
    [low] and [high]. *)
Fixpoint points_within (low high : Q) (points : list Q) : Prop :=
  match points with
  | [] => True
  | x :: y :: rest => low <= y <= high /\ points_within low high rest
  | _ => False
  end.

(** The point that [_build_line_points] computes for a sample with value
    [value] at time [t]. *)
Definition line_point (origin_x bottom height cutoff flow_window_s split_x
    series_offset_s : Q) (value t : Q) : list Q :=
  [origin_x
   + ((t - series_offset_s - cutoff) / flow_window_s) * (split_x - origin_x);
   bottom - clamp value 0.0 1.0 * height].

(** A sample of the flow window with a time stamp and a throttle value. *)
Definition throttle_sample (t value : Q) : OverlayWindow.Sample :=
  <["t" := Some t]> (<["throttle" := Some value]> ∅).

(** The threshold of the final stage on a tick. *)
Definition final_threshold (a : Args) : Q :=
  if distance_mode a then Py.max 0.0 (final_cue_offset_m a) else 0.001.

(** The cues of one event on one tick, read off its three flags, its last
    distance [last] and its new distance [d]: the stages whose threshold the
    distance has crossed and whose flag is not set, then the forced final
    cue of a skip-over. *)
Definition stage_cues (lap : Z) (idx : nat) (flag_a flag_b flag_c : bool)
    (last : option Q) (d approach_a approach_b final : Q) : list Cue :=
  let cue stage forced :=
    {| cue_lap := lap; cue_idx := idx; cue_stage := stage;
       cue_forced := forced |} in
  (if crossed d last approach_a && negb flag_a then [cue StageA false] else [])
  ++ (if crossed d last approach_b && negb flag_b then [cue StageB false] else [])
  ++ (if crossed d last final && negb flag_c then [cue StageC false] else [])
  ++ match last with
     | Some l =>
         if Py.leb l approach_b && Py.ltb l d && negb flag_c
         then [cue StageC true] else []
     | None => []
     end.

(** Whether the throttle falls through the lift threshold at sample [i], at
    or above it at the sample before and below it at [i], with the brake
    below the brake threshold. *)
Definition throttle_lifts (self : ReferenceLap.t) (i : nat) : bool :=
  Py.leb (ReferenceLap.lift_threshold self)
    (nth (i - 1) (ReferenceLap.throttle self) 0)
  && Py.ltb (nth i (ReferenceLap.throttle self) 0)
       (ReferenceLap.lift_threshold self)
  && Py.ltb (nth i (ReferenceLap.brake self) 0)
       (ReferenceLap.brake_threshold self).

(** Whether the throttle rises through the power threshold at sample [i]:
    below it at the sample before, at or above it at [i]. *)
Definition throttle_rises (self : ReferenceLap.t) (i : nat) : bool :=
  Py.ltb (nth (i - 1) (ReferenceLap.throttle self) 0)
    (ReferenceLap.power_threshold self)
  && Py.leb (ReferenceLap.power_threshold self)
       (nth i (ReferenceLap.throttle self) 0).

(* ===================================================================== *)
(** ** Facts about the Python primitives *)
(* ===================================================================== *)

Lemma ltb_lt (x y : Q) : Py.ltb x y = true <-> x < y.
Proof.
  unfold Py.ltb. rewrite negb_true_iff.
  destruct (Qle_bool y x) eqn:E.
  - apply Qle_bool_iff in E. split; [discriminate | lra].
  - split; [intros _ | reflexivity].
    destruct (Qlt_le_dec x y) as [H | H]; [exact H |].
    apply Qle_bool_iff in H. congruence.
Qed.

Lemma ltb_ge (x y : Q) : Py.ltb x y = false <-> y <= x.
Proof.
  unfold Py.ltb. rewrite negb_false_iff. apply Qle_bool_iff.
Qed.

Lemma leb_le (x y : Q) : Py.leb x y = true <-> x <= y.
Proof. apply Qle_bool_iff. Qed.

Lemma leb_gt (x y : Q) : Py.leb x y = false <-> y < x.
Proof.
  unfold Py.leb. destruct (Qle_bool x y) eqn:E.
  - apply Qle_bool_iff in E. split; [discriminate | lra].
  - split; [intros _ | reflexivity].
    destruct (Qlt_le_dec y x) as [H | H]; [exact H |].
    apply Qle_bool_iff in H. congruence.
Qed.

Lemma eqb_eq (x y : Q) : Py.eqb x y = true <-> x == y.
Proof. apply Qeq_bool_iff. Qed.

Lemma eqb_neq (x y : Q) : Py.eqb x y = false <-> ~ x == y.
Proof.
  unfold Py.eqb. destruct (Qeq_bool x y) eqn:E.
  - apply Qeq_bool_iff in E. split; [discriminate | tauto].
  - split; [intros _; now apply Qeq_bool_neq | reflexivity].
Qed.

Lemma int_mul_06_binary64_agrees :
  forallb (fun n => Z.eqb (Binary64.int_mul_06 n) (Py.int_mul_06 n))
    (map Z.of_nat (seq 0 5001)) = true.
Proof. vm_compute. reflexivity. Qed.

Lemma max_cases (a b : Q) :
  (a < b /\ Py.max a b = b) \/ (b <= a /\ Py.max a b = a).
Proof.
  unfold Py.max. destruct (Py.ltb a b) eqn:E.
  - left. split; [now apply ltb_lt | reflexivity].
  - right. split; [now apply ltb_ge | reflexivity].
Qed.

Ltac py_bool :=
  repeat match goal with
    | H : Py.ltb _ _ = true |- _ => apply ltb_lt in H
    | H : Py.ltb _ _ = false |- _ => apply ltb_ge in H
    | H : Py.leb _ _ = true |- _ => apply leb_le in H
    | H : Py.leb _ _ = false |- _ => apply leb_gt in H
    | H : Py.eqb _ _ = true |- _ => apply eqb_eq in H
    | H : Py.eqb _ _ = false |- _ => apply eqb_neq in H
    end.

(** Case analysis on every [Qmax] of the goal. *)
Ltac qmax_cases :=
  repeat match goal with
    | |- context [Qmax ?a ?b] =>
        let H := fresh "Hmax" in
        let m := fresh "m" in
        pose proof (Q.max_spec a b) as H;
        set (m := Qmax a b) in *; clearbody m;
        destruct H as [[? ?] | [? ?]]
    end.

(* ===================================================================== *)
(** ** Approach distances *)
(* ===================================================================== *)

Lemma speed_or_default_pos (speed_mps : option Q) : 0 < speed_or_default speed_mps.
Proof.
  unfold speed_or_default, AudioCues.DEFAULT_APPROACH_SPEED_MPS.
  destruct speed_mps as [v |]; [destruct (Qlt_le_dec 0 v) |]; lra.
Qed.

Lemma approach_speed (speed_mps : option Q) (a_s b_s : Q) :
  AudioCues._approach_distances speed_mps a_s b_s =
  AudioCues._approach_distances (Some (speed_or_default speed_mps)) a_s b_s.
Proof.
  pose proof (speed_or_default_pos speed_mps) as Hpos.
  unfold AudioCues._approach_distances.
  assert (Hs : Py.truthy (Some (speed_or_default speed_mps))
               && Py.ltb 0 (speed_or_default speed_mps) = true).
  { apply andb_true_intro. split.
    - simpl. apply negb_true_iff, eqb_neq. lra.
    - now apply ltb_lt. }
  rewrite Hs. clear Hs.
  unfold speed_or_default in *.
  destruct speed_mps as [v |]; [| reflexivity].
  destruct (Qlt_le_dec 0 v) as [Hv | Hv].
  - assert (Hs : Py.truthy (Some v) && Py.ltb 0 v = true).
    { apply andb_true_intro. split.
      - simpl. apply negb_true_iff, eqb_neq. lra.
      - now apply ltb_lt. }
    now rewrite Hs.
  - assert (Hs : Py.ltb 0 v = false) by (apply ltb_ge; lra).
    now rewrite Hs, andb_false_r.
Qed.

(** C9. For every speed input (an absent or non-positive speed is replaced
    by the default of 25 m/s) and every pair of lead times, the first
    distance returned by [_approach_distances] is [max(1.0, speed * leadA)],
    the second is strictly below the first, and it is [max(0.5, speed * leadB)]
    unless that is not below the first distance, in which case it is half of
    the first distance, which is not below 0.5. *)
Theorem C9_approach_distances (speed_mps : option Q) (a_s b_s : Q) :
  let speed := speed_or_default speed_mps in
  let approach_a_m := fst (AudioCues._approach_distances speed_mps a_s b_s) in
  let approach_b_m := snd (AudioCues._approach_distances speed_mps a_s b_s) in
  (speed_mps = None -> speed == 25)
  /\ (forall v, speed_mps = Some v -> v <= 0 -> speed == 25)
  /\ (forall v, speed_mps = Some v -> 0 < v -> speed == v)
  /\ approach_a_m == Qmax 1 (speed * a_s)
  /\ approach_b_m < approach_a_m
  /\ (Qmax 0.5 (speed * b_s) < approach_a_m ->
      approach_b_m == Qmax 0.5 (speed * b_s))
  /\ (approach_a_m <= Qmax 0.5 (speed * b_s) ->
      approach_b_m == approach_a_m * 0.5 /\ 0.5 <= approach_b_m).
Proof.
  cbv zeta. rewrite approach_speed.
  pose proof (speed_or_default_pos speed_mps) as Hpos.
  split; [| split; [| split]].
  - intros ->. reflexivity.
  - intros v -> Hv. unfold speed_or_default.
    destruct (Qlt_le_dec 0 v); [lra | reflexivity].
  - intros v -> Hv. unfold speed_or_default.
    destruct (Qlt_le_dec 0 v); [reflexivity | lra].
  - set (speed := speed_or_default speed_mps) in *.
    unfold AudioCues._approach_distances.
    assert (Hs : Py.truthy (Some speed) && Py.ltb 0 speed = true).
    { apply andb_true_intro. split.
      - simpl. apply negb_true_iff, eqb_neq. lra.
      - now apply ltb_lt. }
    rewrite Hs. clear Hs. cbn [fst snd].
    destruct (max_cases 1.0 (speed * a_s)) as [[HA ->] | [HA ->]];
      destruct (max_cases 0.5 (speed * b_s)) as [[HB ->] | [HB ->]];
      qmax_cases;
      match goal with
      | |- context [Py.leb ?a ?b] => destruct (Py.leb a b) eqn:E
      end; py_bool;
      try match goal with
        | |- context [Py.max ?a ?b] =>
            destruct (max_cases a b) as [[? ->] | [? ->]]
        end;
      repeat split; intros; lra.
Qed.

(* ===================================================================== *)
(** ** Quiet mode *)
(* ===================================================================== *)

Lemma int_mul_06_le (n : Z) : (0 <= n -> 0 <= Py.int_mul_06 n <= n)%Z.
Proof.
  intros H. unfold Py.int_mul_06.
  rewrite Z.quot_div_nonneg by lia.
  split; [apply Z.div_pos; lia |].
  apply Z.div_le_upper_bound; lia.
Qed.

Lemma int_mul_06_lt (n : Z) : (0 < n -> Py.int_mul_06 n < n)%Z.
Proof.
  intros H. unfold Py.int_mul_06.
  rewrite Z.quot_div_nonneg by lia.
  apply Z.div_lt_upper_bound; lia.
Qed.

Lemma quiet_tone_bounds (tone : AudioCues.Tone) :
  (40 <= duration_ms tone)%Z -> (0 <= gap_ms tone)%Z ->
  let tone' := AudioCues.quiet_tone tone in
  fst (fst tone') = fst (fst tone)
  /\ (40 <= duration_ms tone' <= duration_ms tone)%Z
  /\ (0 <= gap_ms tone' <= gap_ms tone)%Z
  /\ ((40 < duration_ms tone)%Z -> (duration_ms tone' < duration_ms tone)%Z)
  /\ ((0 < gap_ms tone)%Z -> (gap_ms tone' < gap_ms tone)%Z).
Proof.
  destruct tone as [[freq duration] gap]. unfold duration_ms, gap_ms. cbn.
  intros Hd Hg.
  pose proof (int_mul_06_le duration).
  pose proof (int_mul_06_le gap).
  pose proof (int_mul_06_lt duration).
  pose proof (int_mul_06_lt gap).
  repeat split; lia.
Qed.

Lemma builtin_pattern_shape (kind : string) (stage : AudioCues.Stage) :
  Forall (fun tone => (40 < duration_ms tone)%Z /\ gap_ms tone = 0%Z)
    (AudioCues._pattern_for kind stage).
Proof.
  unfold AudioCues._pattern_for.
  destruct (String.eqb kind "lift"), (String.eqb kind "power"), stage;
    repeat constructor; cbn; lia.
Qed.

(** C2 (as amended). Quiet mode maps every duration [d] to
    [max(40, int(0.6 d))] and every gap [g] to [int(0.6 g)].  For a pattern
    whose durations are at least 40 ms and whose gaps are not negative, no
    duration and no gap increases, a duration above 40 ms and a gap above 0 ms
    are strictly reduced, and the total duration does not increase.  Every
    pattern of the built-in tone tables is such a pattern, with durations
    above 40 ms and gaps of 0 ms, and its total duration strictly
    decreases. *)
Theorem C2_quiet_mode_reduces :
  (forall pattern : AudioCues.Pattern,
      Forall (fun tone => (40 <= duration_ms tone)%Z /\ (0 <= gap_ms tone)%Z)
        pattern ->
      Forall2
        (fun tone' tone =>
           fst (fst tone') = fst (fst tone)
           /\ (duration_ms tone' <= duration_ms tone)%Z
           /\ (gap_ms tone' <= gap_ms tone)%Z
           /\ ((40 < duration_ms tone)%Z ->
               (duration_ms tone' < duration_ms tone)%Z)
           /\ ((0 < gap_ms tone)%Z -> (gap_ms tone' < gap_ms tone)%Z))
        (AudioCues.quiet pattern) pattern
      /\ (total_ms (AudioCues.quiet pattern) <= total_ms pattern)%Z)
  /\ (forall kind stage,
        Forall (fun tone => (40 < duration_ms tone)%Z /\ gap_ms tone = 0%Z)
          (AudioCues._pattern_for kind stage)
        /\ (total_ms (AudioCues.quiet (AudioCues._pattern_for kind stage))
            < total_ms (AudioCues._pattern_for kind stage))%Z).
Proof.
  split.
  - intros pattern Hall. split.
    + induction Hall as [| tone rest [Hd Hg] _ IH]; cbn; constructor; [| exact IH].
      pose proof (quiet_tone_bounds tone Hd Hg) as H. cbv zeta in H.
      intuition lia.
    + induction Hall as [| tone rest [Hd Hg] _ IH]; cbn; [lia |].
      pose proof (quiet_tone_bounds tone Hd Hg) as H. cbv zeta in H.
      fold (AudioCues.quiet rest). fold (total_ms (AudioCues.quiet rest)).
      fold (total_ms rest). lia.
  - intros kind stage. split; [apply builtin_pattern_shape |].
    unfold AudioCues._pattern_for.
    destruct (String.eqb kind "lift"), (String.eqb kind "power"), stage;
      vm_compute; reflexivity.
Qed.

Lemma C2_quiet_mode_reduces_witness :
  (total_ms (AudioCues.quiet [(660, 120, 30); (880, 40, 0)]%Z)
   <= total_ms [(660, 120, 30); (880, 40, 0)]%Z)%Z.
Proof.
  refine (proj2 (proj1 C2_quiet_mode_reduces
                   [(660, 120, 30); (880, 40, 0)]%Z _)).
  repeat constructor; cbn; lia.
Defined.

(** C2, the claim as stated fails.  The far-warning brake pattern of the tone
    table has a gap of 0 ms, which quiet mode leaves at 0 ms, so not every gap
    is strictly reduced; and a 20 ms tone is raised to the 40 ms floor, so the
    total duration of that pattern increases. *)
Lemma C2_quiet_mode_counterexample :
  AudioCues.quiet (AudioCues._pattern_for "brake" AudioCues.StageA)
  = [(560, 54, 0)%Z]
  /\ ~ Forall2
        (fun tone' tone =>
           (duration_ms tone' < duration_ms tone)%Z
           /\ (gap_ms tone' < gap_ms tone)%Z)
        (AudioCues.quiet (AudioCues._pattern_for "brake" AudioCues.StageA))
        (AudioCues._pattern_for "brake" AudioCues.StageA)
  /\ AudioCues.quiet [(440, 20, 0)%Z] = [(440, 40, 0)%Z]
  /\ ~ (total_ms (AudioCues.quiet [(440, 20, 0)%Z])
        <= total_ms [(440, 20, 0)%Z])%Z.
Proof.
  split; [reflexivity |]. split; [| split; [reflexivity |]].
  - intros H. inversion H as [| ? ? ? ? [_ Hgap] _]; subst.
    vm_compute in Hgap. discriminate.
  - vm_compute. intros H. apply H. reflexivity.
Qed.

(* ===================================================================== *)
(** ** The playback queue *)
(* ===================================================================== *)

Lemma drain_nil (q : list (Z * AudioCues.Pattern)) : AudioCues.drain q = [].
Proof. induction q as [| item q IH]; [reflexivity | exact IH]. Qed.

(** What [_play_pattern] does to the queue when [winsound] is present: a cue
    of priority B or C empties it, whatever the priorities of the pending
    items, and then enqueues the new item. *)
Lemma play_pattern_queue (self : AudioCues.t) (pattern : AudioCues.Pattern)
    (quiet_mode : bool) (stage : AudioCues.Stage) :
  AudioCues._audio_queue
    (AudioCues._play_pattern true self pattern quiet_mode stage)
  = (if (AudioCues.priority_of stage <=? AudioCues._PRIORITY_B)%Z
     then [] else AudioCues._audio_queue self)
    ++ [(AudioCues.priority_of stage,
         if quiet_mode then AudioCues.quiet pattern else pattern)].
Proof.
  unfold AudioCues._play_pattern.
  destruct (AudioCues.priority_of stage <=? AudioCues._PRIORITY_B)%Z; cbn;
    [now rewrite drain_nil | reflexivity].
Qed.

(** The two scenarios of the claim that the code does satisfy. *)
Lemma play_pattern_final_removes_far (self : AudioCues.t) (far final : AudioCues.Pattern) :
  AudioCues._audio_queue self = [(AudioCues._PRIORITY_A, far)] ->
  AudioCues._audio_queue
    (AudioCues._play_pattern true self final false AudioCues.StageC)
  = [(AudioCues._PRIORITY_C, final)].
Proof. intros H. now rewrite play_pattern_queue. Qed.

Lemma play_pattern_far_keeps_final (self : AudioCues.t) (far final : AudioCues.Pattern) :
  AudioCues._audio_queue self = [(AudioCues._PRIORITY_C, final)] ->
  AudioCues._audio_queue
    (AudioCues._play_pattern true self far false AudioCues.StageA)
  = [(AudioCues._PRIORITY_C, final); (AudioCues._PRIORITY_A, far)].
Proof. intros H. rewrite play_pattern_queue. cbn. now rewrite H. Qed.

(** C1, the code at the failing input.  A pending final cue (priority 0) is
    removed when a near cue (priority 1) is handed to playback: the queue is
    emptied, not filtered by priority.  This happens within one tick of the
    scheduler: after ticks at 2440 m and 2494 m, the tick at 2501 m has passed
    the first event, whose final stage fires, and is within the near distance
    of the second event, whose near stage fires; the queue then holds the
    near cue only. *)
Theorem C1_near_cue_drops_pending_final_cue :
  let final := AudioCues._pattern_for "brake" AudioCues.StageC in
  let near := AudioCues._pattern_for "brake" AudioCues.StageB in
  let self :=
    AudioCues.put AudioCues.init (AudioCues._PRIORITY_C, final) in
  AudioCues._audio_queue self = [(0%Z, final)]
  /\ AudioCues._audio_queue
       (AudioCues._play_pattern true self near false AudioCues.StageB)
     = [(1%Z, near)]
  /\ (let before :=
        fst (AudioCues.run true AudioCues.init
               (map close_events_tick [0.488; 0.4988])) in
      let '(after, cues) :=
        AudioCues.update true before (close_events_tick 0.5002) in
      cues =
        [ {| AudioCues.cue_lap := 0; AudioCues.cue_idx := 0;
             AudioCues.cue_stage := AudioCues.StageC;
             AudioCues.cue_forced := true |};
          {| AudioCues.cue_lap := 0; AudioCues.cue_idx := 1;
             AudioCues.cue_stage := AudioCues.StageB;
             AudioCues.cue_forced := false |} ]
      /\ AudioCues._audio_queue after = [(1%Z, near)]).
Proof. vm_compute. repeat split; reflexivity. Qed.

(* ===================================================================== *)
(** ** The position unwrapper *)
(* ===================================================================== *)

Section Unwrapper.

Variable track_len_m : Q.
Hypothesis track_len_pos : 0 < track_len_m.

Lemma unwrapped_seed (p : Q) :
  NishizumiApp._update_live_unwrapped NishizumiApp.unset p track_len_m
  = ({| NishizumiApp.last_live_lap_pct := Some p;
        NishizumiApp.live_unwrapped_m := Some (p * track_len_m) |},
     Some (p * track_len_m)).
Proof.
  unfold NishizumiApp._update_live_unwrapped.
  assert (E : Py.leb track_len_m 0 = false) by (apply leb_gt; lra).
  now rewrite E.
Qed.

Lemma unwrapped_step (self : NishizumiApp.t) (last u p : Q) :
  NishizumiApp.last_live_lap_pct self = Some last ->
  NishizumiApp.live_unwrapped_m self = Some u ->
  let delta := if Py.ltb (p - last) (-0.5) then p - last + 1.0 else p - last in
  NishizumiApp._update_live_unwrapped self p track_len_m
  = ({| NishizumiApp.last_live_lap_pct := Some p;
        NishizumiApp.live_unwrapped_m := Some (u + delta * track_len_m) |},
     Some (u + delta * track_len_m)).
Proof.
  intros Hl Hu. unfold NishizumiApp._update_live_unwrapped.
  assert (E : Py.leb track_len_m 0 = false) by (apply leb_gt; lra).
  now rewrite E, Hl, Hu.
Qed.

Lemma feed_no_wrap (pcts : list Q) :
  forall (self : NishizumiApp.t) (last : Q),
    in_step track_len_m self last ->
    Sorted Qle (last :: pcts) ->
    exists us,
      snd (NishizumiApp.feed self track_len_m pcts) = map Some us
      /\ Forall2 (fun p u => u == p * track_len_m) pcts us
      /\ Sorted Qle (last * track_len_m :: us).
Proof.
  induction pcts as [| p rest IH]; intros self last [Hl [u [Hu Heq]]] Hs.
  - exists []. cbn. repeat split; constructor; constructor.
  - inversion Hs as [| ? ? Hrest Hhd]; subst.
    inversion Hhd as [| ? ? Hle]; subst.
    cbn [NishizumiApp.feed].
    rewrite (unwrapped_step self last u p Hl Hu). cbv zeta.
    assert (E : Py.ltb (p - last) (-0.5) = false) by (apply ltb_ge; lra).
    rewrite E.
    set (self' := {| NishizumiApp.last_live_lap_pct := Some p;
                     NishizumiApp.live_unwrapped_m :=
                       Some (u + (p - last) * track_len_m) |}).
    assert (Hu' : u + (p - last) * track_len_m == p * track_len_m) by lra.
    destruct (IH self' p) as [us [Hout [Hall Hsorted]]].
    { split; [reflexivity |]. eexists. split; [reflexivity | exact Hu']. }
    { exact Hrest. }
    destruct (NishizumiApp.feed self' track_len_m rest) as [self'' rs].
    cbn [snd] in *. subst rs.
    exists (u + (p - last) * track_len_m :: us). cbn.
    split; [reflexivity |]. split; [constructor; assumption |].
    constructor.
    + inversion Hsorted as [| ? ? Hs' Hhd']; subst.
      constructor; [exact Hs' |].
      inversion Hhd'; subst; constructor. lra.
    + constructor. nra.
Qed.

End Unwrapper.

(** C5. With a fixed positive track length, feeding the unwrapper (unset
    before the first sample) a sequence of lap fractions in which no value is
    below its predecessor returns at every tick that tick's lap fraction
    times the track length, and the returned values never decrease. *)
Theorem C5_unwrapped_without_wrap (track_len_m p0 : Q) (pcts : list Q) :
  0 < track_len_m ->
  Sorted Qle (p0 :: pcts) ->
  exists us,
    snd (NishizumiApp.feed NishizumiApp.unset track_len_m (p0 :: pcts))
    = map Some us
    /\ Forall2 (fun p u => u == p * track_len_m) (p0 :: pcts) us
    /\ Sorted Qle us.
Proof.
  intros Hpos Hs. cbn [NishizumiApp.feed].
  rewrite (unwrapped_seed track_len_m Hpos p0).
  set (self := {| NishizumiApp.last_live_lap_pct := Some p0;
                  NishizumiApp.live_unwrapped_m := Some (p0 * track_len_m) |}).
  destruct (feed_no_wrap track_len_m Hpos pcts self p0) as [us [Hout [Hall Hsorted]]].
  { split; [reflexivity |]. eexists. split; [reflexivity | reflexivity]. }
  { exact Hs. }
  destruct (NishizumiApp.feed self track_len_m pcts) as [self' rs].
  cbn [snd] in *. subst rs.
  exists (p0 * track_len_m :: us). cbn.
  split; [reflexivity |]. split; [constructor; [reflexivity | exact Hall] |].
  exact Hsorted.
Qed.

Lemma C5_unwrapped_without_wrap_witness :
  exists us,
    snd (NishizumiApp.feed NishizumiApp.unset 5000 [0.1; 0.3; 0.9])
    = map Some us
    /\ Forall2 (fun p u => u == p * 5000) [0.1; 0.3; 0.9] us
    /\ Sorted Qle us.
Proof.
  apply (C5_unwrapped_without_wrap 5000 0.1 [0.3; 0.9]).
  - reflexivity.
  - repeat constructor; vm_compute; discriminate.
Defined.

(* ===================================================================== *)
(** ** Event detection *)
(* ===================================================================== *)

Lemma scan_step_constant_throttle (self : ReferenceLap.t) (st : ReferenceLap.Scan)
    (i : nat) (prev_brake brake_val t p : Q) :
  Py.index (ReferenceLap.brake self) i = Ok brake_val ->
  Py.index (ReferenceLap.throttle self) i = Ok t ->
  Py.index (ReferenceLap.brake self) (i - 1) = Ok prev_brake ->
  Py.index (ReferenceLap.throttle self) (i - 1) = Ok t ->
  Py.index (ReferenceLap.lap_pct self) i = Ok p ->
  ReferenceLap.in_lift st = false ->
  ReferenceLap.scan_step self st i
  = Ok (brake_step (ReferenceLap.brake_threshold self) st prev_brake brake_val p)
  /\ ReferenceLap.in_lift
       (brake_step (ReferenceLap.brake_threshold self) st prev_brake brake_val p) = false.
Proof.
  intros Hb Ht Hpb Hpt Hp Hl.
  unfold ReferenceLap.scan_step, brake_step. rewrite Hb, Ht, Hpb, Hpt. cbn [Py.bind].
  assert (Hlift : Py.leb (ReferenceLap.lift_threshold self) t
                  && Py.ltb t (ReferenceLap.lift_threshold self) = false).
  { destruct (Py.leb (ReferenceLap.lift_threshold self) t) eqn:E1; [| reflexivity].
    destruct (Py.ltb t (ReferenceLap.lift_threshold self)) eqn:E2; [| reflexivity].
    py_bool. lra. }
  assert (Hpower : Py.ltb t (ReferenceLap.power_threshold self)
                   && Py.leb (ReferenceLap.power_threshold self) t = false).
  { destruct (Py.ltb t (ReferenceLap.power_threshold self)) eqn:E1; [| reflexivity].
    destruct (Py.leb (ReferenceLap.power_threshold self) t) eqn:E2; [| reflexivity].
    py_bool. lra. }
  destruct st as [ib il evs bps]. cbn in Hl. subst il. rewrite Hp.
  cbn [ReferenceLap.in_brake ReferenceLap.in_lift].
  set (b1 := Py.ltb prev_brake (ReferenceLap.brake_threshold self)).
  set (b2 := Py.leb (ReferenceLap.brake_threshold self) brake_val).
  set (b3 := Py.ltb brake_val (ReferenceLap.brake_threshold self * 0.5)).
  set (l1 := Py.leb (ReferenceLap.lift_threshold self) t) in *.
  set (l2 := Py.ltb t (ReferenceLap.lift_threshold self)) in *.
  set (l3 := Py.ltb brake_val (ReferenceLap.brake_threshold self)).
  set (l4 := Py.ltb (ReferenceLap.lift_threshold self * 1.2) t).
  set (p1 := Py.ltb t (ReferenceLap.power_threshold self)) in *.
  set (p2 := Py.leb (ReferenceLap.power_threshold self) t) in *.
  clearbody b1 b2 b3 l1 l2 l3 l4 p1 p2.
  destruct l1, l2; try discriminate Hlift;
    destruct p1, p2; try discriminate Hpower;
    destruct ib, b1, b2, b3; cbn; destruct l3; cbn; split; reflexivity.
Qed.

Ltac scan_one :=
  match goal with
  | |- context [ReferenceLap.scan_step ?self ?st ?i] =>
      let H := fresh "H" in
      let Hl := fresh "Hl" in
      edestruct (scan_step_constant_throttle self st i) as [H Hl];
      [reflexivity .. | rewrite H; clear H Hl; cbn [Py.bind Py.for_each]]
  end.

Ltac brake_step_value :=
  match goal with
  | |- context [brake_step ?a ?b ?c ?d ?e] =>
      let r := eval vm_compute in (brake_step a b c d e) in
      change (brake_step a b c d e) with r
  end.

(** C8. With brake threshold 0.1 and brake values [0, 0.05, 0.15, 0.3, 0.04]
    (throttle constant), the scan produces exactly one event, a brake event at
    the sample whose brake value is 0.15; the brake flag is released by the
    last value (0.04 < 0.05), so a further sample whose brake value is back at
    or above 0.1 produces a second brake event. *)
Theorem C8_brake_hysteresis (p0 p1 p2 p3 p4 p5 t lift_th power_th v : Q) :
  0.1 <= v ->
  let lap :=
    ReferenceLap.mk [p0; p1; p2; p3; p4] [t; t; t; t; t]
      [0; 0.05; 0.15; 0.3; 0.04] 0.1 lift_th power_th [] [] in
  let longer :=
    ReferenceLap.mk [p0; p1; p2; p3; p4; p5] [t; t; t; t; t; t]
      [0; 0.05; 0.15; 0.3; 0.04; v] 0.1 lift_th power_th [] [] in
  (exists lap',
      ReferenceLap._build_events lap = Ok lap'
      /\ ReferenceLap.events lap' = [new_event "brake" p2]
      /\ ReferenceLap.brake_points lap' = [p2])
  /\ (exists longer',
        ReferenceLap._build_events longer = Ok longer'
        /\ ReferenceLap.events longer'
           = [new_event "brake" p2; new_event "brake" p5]).
Proof.
  intros Hv. cbv zeta. split.
  - unfold ReferenceLap._build_events.
    cbn [ReferenceLap.lap_pct length seq Nat.sub Py.for_each].
    do 4 (scan_one; brake_step_value).
    eexists. split; [reflexivity |]. split; reflexivity.
  - unfold ReferenceLap._build_events.
    cbn [ReferenceLap.lap_pct length seq Nat.sub Py.for_each].
    do 4 (scan_one; brake_step_value).
    scan_one. unfold brake_step.
    cbn [ReferenceLap.in_brake ReferenceLap.in_lift ReferenceLap.scan_events
         ReferenceLap.scan_brake_points ReferenceLap.brake_threshold negb].
    assert (E1 : Py.ltb 0.04 0.1 = true) by reflexivity.
    assert (E2 : Py.leb 0.1 v = true) by now apply leb_le.
    assert (E3 : Py.ltb v (0.1 * 0.5) = false) by (apply ltb_ge; lra).
    rewrite E1, E2. cbn [andb ReferenceLap.in_brake]. rewrite E3.
    eexists. split; [reflexivity |]. reflexivity.
Qed.

Lemma C8_brake_hysteresis_witness :
  exists longer',
    ReferenceLap._build_events
      (ReferenceLap.mk [0; 0.2; 0.4; 0.6; 0.8; 0.9]
         [0.1; 0.1; 0.1; 0.1; 0.1; 0.1]
         [0; 0.05; 0.15; 0.3; 0.04; 0.2] 0.1 0.2 0.7 [] [])
    = Ok longer'
    /\ ReferenceLap.events longer'
       = [new_event "brake" 0.4; new_event "brake" 0.9].
Proof.
  refine (proj2 (C8_brake_hysteresis 0 0.2 0.4 0.6 0.8 0.9 0.1 0.2 0.7 0.2 _)).
  vm_compute. discriminate.
Defined.

(* ===================================================================== *)
(** ** The interpolated query *)
(* ===================================================================== *)

Lemma mid_bounds (lo hi : nat) : (lo < hi -> lo <= (lo + hi) / 2 < hi)%nat.
Proof.
  intros H. split.
  - apply Nat.div_le_lower_bound; lia.
  - apply Nat.Div0.div_lt_upper_bound; lia.
Qed.

Lemma bisect_loop_spec (a : list Q) (x : Q) (lo hi : nat) :
  (lo <= hi)%nat ->
  (lo = 0%nat \/ nth (lo - 1) a 0 < x) ->
  (hi = length a \/ x <= nth hi a 0) ->
  let r := ReferenceLap.bisect_loop a x lo hi in
  (lo <= r <= hi)%nat
  /\ (r = 0%nat \/ nth (r - 1) a 0 < x)
  /\ (r = length a \/ x <= nth r a 0).
Proof.
  cbv zeta.
  funelim (ReferenceLap.bisect_loop a x lo hi); intros Hle Hlo Hhi.
  - assert (lo = hi) by lia. subst. repeat split; auto.
  - pose proof (mid_bounds lo hi Hlt) as Hm.
    destruct H as [Hr [Hr1 Hr2]]; [lia | | exact Hhi |].
    + right. replace (S ((lo + hi) / 2) - 1)%nat with ((lo + hi) / 2)%nat by lia.
      now apply ltb_lt.
    + repeat split; auto; lia.
  - pose proof (mid_bounds lo hi Hlt) as Hm.
    destruct H as [Hr [Hr1 Hr2]]; [lia | exact Hlo | |].
    + right. now apply ltb_ge.
    + repeat split; auto; lia.
Qed.

Lemma bisect_left_spec (a : list Q) (x : Q) :
  let r := ReferenceLap.bisect_left a x in
  (r <= length a)%nat
  /\ (r = 0%nat \/ nth (r - 1) a 0 < x)
  /\ (r = length a \/ x <= nth r a 0).
Proof.
  cbv zeta. unfold ReferenceLap.bisect_left.
  destruct (bisect_loop_spec a x 0 (length a)) as [Hr H]; [lia | now left | now left |].
  split; [lia | exact H].
Qed.

Lemma index_nth {A} (l : list A) (i : nat) (d : A) :
  (i < length l)%nat -> Py.index l i = Ok (nth i l d).
Proof.
  intros H. unfold Py.index.
  now rewrite (nth_error_nth' l d H).
Qed.

Lemma last_nth {A} (l : list A) (d : A) :
  l <> [] -> Py.last l = Ok (nth (length l - 1) l d).
Proof.
  intros H. destruct l as [| x l]; [congruence |].
  unfold Py.last. apply index_nth. cbn. lia.
Qed.

(** The interior case of [ref_at_pct]: strictly between two neighbours the
    division is defined and the interpolation formula is returned. *)
Lemma ref_at_pct_interior (self : ReferenceLap.t) (data : list Q) (pct : Q) :
  length data = length (ReferenceLap.lap_pct self) ->
  let lap := ReferenceLap.lap_pct self in
  let idx := ReferenceLap.bisect_left lap pct in
  (0 < idx < length lap)%nat ->
  nth (idx - 1) lap 0 < pct <= nth idx lap 0
  /\ ReferenceLap.ref_at_pct_exit self data pct
     = Ok (ReferenceLap.ExitInterpolate,
           nth (idx - 1) data 0
           + (nth idx data 0 - nth (idx - 1) data 0)
             * ((pct - nth (idx - 1) lap 0)
                / (nth idx lap 0 - nth (idx - 1) lap 0))).
Proof.
  intros Hlen. cbv zeta.
  unfold ReferenceLap.ref_at_pct_exit.
  remember (ReferenceLap.lap_pct self) as lap eqn:Elap.
  destruct (bisect_left_spec lap pct) as [_ [Hlo Hhi]].
  set (idx := ReferenceLap.bisect_left lap pct) in *. clearbody idx.
  intros Hidx.
  destruct Hlo as [Hlo | Hlo]; [lia |].
  destruct Hhi as [Hhi | Hhi]; [lia |].
  split; [split; assumption |].
  assert (E0 : (idx <=? 0)%nat = false) by (apply Nat.leb_gt; lia).
  assert (E1 : (length lap <=? idx)%nat = false) by (apply Nat.leb_gt; lia).
  rewrite E0, E1.
  rewrite (index_nth lap (idx - 1) 0) by lia.
  rewrite (index_nth lap idx 0) by lia.
  cbn [Py.bind].
  assert (E2 : Py.eqb (nth idx lap 0) (nth (idx - 1) lap 0) = false)
    by (apply eqb_neq; lra).
  rewrite E2. unfold Py.div.
  assert (E3 : Py.eqb (nth idx lap 0 - nth (idx - 1) lap 0) 0 = false)
    by (apply eqb_neq; lra).
  rewrite E3. cbn [Py.bind].
  rewrite (index_nth data (idx - 1) 0) by lia.
  rewrite (index_nth data idx 0) by lia.
  destruct lap; [cbn in Hidx; lia | reflexivity].
Qed.

Lemma ref_at_pct_first (self : ReferenceLap.t) (data : list Q) (pct : Q) :
  length data = length (ReferenceLap.lap_pct self) ->
  ReferenceLap.lap_pct self <> [] ->
  ReferenceLap.bisect_left (ReferenceLap.lap_pct self) pct = 0%nat ->
  ReferenceLap.ref_at_pct_exit self data pct
  = Ok (ReferenceLap.ExitFirst, nth 0 data 0).
Proof.
  intros Hlen Hne Hidx. unfold ReferenceLap.ref_at_pct_exit.
  destruct (ReferenceLap.lap_pct self) as [| q lap'] eqn:Elap; [congruence |].
  rewrite Hidx. cbn [Nat.leb].
  rewrite (index_nth data 0 0) by (rewrite Hlen; cbn; lia).
  reflexivity.
Qed.

Lemma ref_at_pct_last (self : ReferenceLap.t) (data : list Q) (pct : Q) :
  length data = length (ReferenceLap.lap_pct self) ->
  ReferenceLap.lap_pct self <> [] ->
  ReferenceLap.bisect_left (ReferenceLap.lap_pct self) pct
  = length (ReferenceLap.lap_pct self) ->
  ReferenceLap.ref_at_pct_exit self data pct
  = Ok (ReferenceLap.ExitLast, nth (length data - 1) data 0).
Proof.
  intros Hlen Hne Hidx. unfold ReferenceLap.ref_at_pct_exit.
  destruct (ReferenceLap.lap_pct self) as [| q lap'] eqn:Elap; [congruence |].
  rewrite Hidx. cbn [length Nat.leb]. rewrite Nat.leb_refl.
  rewrite (last_nth data 0); [reflexivity |].
  intros ->. cbn in Hlen. lia.
Qed.

(** C10. The interpolated query always returns a value: it raises neither
    a division by zero nor an index error, for any query fraction and any
    stored series (repeated fractions included) with a channel of the same
    length.  Whenever the division is reached, the binary search has placed
    the query strictly above the earlier and at or below the later of the two
    bracketing fractions, so the divisor is positive and the branch for equal
    samples is never the one taken. *)
Theorem C10_ref_at_pct_total (self : ReferenceLap.t) (data : list Q) (pct : Q) :
  length data = length (ReferenceLap.lap_pct self) ->
  let lap := ReferenceLap.lap_pct self in
  let idx := ReferenceLap.bisect_left lap pct in
  exists e v,
    ReferenceLap.ref_at_pct_exit self data pct = Ok (e, v)
    /\ ReferenceLap.ref_at_pct self data pct = Ok v
    /\ e <> ReferenceLap.ExitEqualSamples
    /\ (e = ReferenceLap.ExitInterpolate ->
        nth (idx - 1) lap 0 < pct <= nth idx lap 0
        /\ 0 < nth idx lap 0 - nth (idx - 1) lap 0).
Proof.
  intros Hlen. cbv zeta.
  assert (Hsnd : forall e v,
             ReferenceLap.ref_at_pct_exit self data pct = Ok (e, v) ->
             ReferenceLap.ref_at_pct self data pct = Ok v).
  { intros e v H. unfold ReferenceLap.ref_at_pct. now rewrite H. }
  assert (Hcase : ReferenceLap.lap_pct self = [] \/ ReferenceLap.lap_pct self <> []).
  { destruct (ReferenceLap.lap_pct self); [left | right]; congruence. }
  destruct Hcase as [He | Hne].
  - exists ReferenceLap.ExitEmpty, 0.
    assert (H : ReferenceLap.ref_at_pct_exit self data pct
                = Ok (ReferenceLap.ExitEmpty, 0)).
    { unfold ReferenceLap.ref_at_pct_exit. now rewrite He. }
    repeat split; [exact H | exact (Hsnd _ _ H) | discriminate ..].
  - destruct (bisect_left_spec (ReferenceLap.lap_pct self) pct) as [Hr _].
    destruct (Nat.eq_dec (ReferenceLap.bisect_left (ReferenceLap.lap_pct self) pct) 0%nat)
      as [H0 | H0];
      [| destruct (Nat.eq_dec
                     (ReferenceLap.bisect_left (ReferenceLap.lap_pct self) pct)
                     (length (ReferenceLap.lap_pct self))) as [Hn | Hn]].
    + pose proof (ref_at_pct_first self data pct Hlen Hne H0) as H.
      eexists _, _. repeat split; [exact H | exact (Hsnd _ _ H) | discriminate ..].
    + pose proof (ref_at_pct_last self data pct Hlen Hne Hn) as H.
      eexists _, _. repeat split; [exact H | exact (Hsnd _ _ H) | discriminate ..].
    + destruct (ref_at_pct_interior self data pct Hlen) as [Hb H]; [lia |].
      eexists _, _.
      split; [exact H |]. split; [exact (Hsnd _ _ H) |].
      split; [discriminate |]. intros _. split; [exact Hb | lra].
Qed.

Lemma C10_ref_at_pct_total_witness :
  exists e v,
    ReferenceLap.ref_at_pct_exit
      (ReferenceLap.mk [0.1; 0.5; 0.5; 0.9] [] [] 0.1 0.2 0.7 [] [])
      [1; 2; 3; 4] 0.5 = Ok (e, v)
    /\ e <> ReferenceLap.ExitEqualSamples.
Proof.
  destruct (C10_ref_at_pct_total
              (ReferenceLap.mk [0.1; 0.5; 0.5; 0.9] [] [] 0.1 0.2 0.7 [] [])
              [1; 2; 3; 4] 0.5 eq_refl) as [e [v [H [_ [Hne _]]]]].
  exists e, v. split; [exact H | exact Hne].
Defined.

Lemma sorted_nth (l : list Q) :
  Sorted Qle l ->
  forall i j, (i <= j < length l)%nat -> nth i l 0 <= nth j l 0.
Proof.
  intros Hs. apply Sorted_StronglySorted in Hs; [| intros x y z; apply Qle_trans].
  induction Hs as [| q l Hs IH Hall]; intros i j Hij; [cbn in Hij; lia |].
  destruct i as [| i], j as [| j]; cbn in *; try lia.
  - lra.
  - rewrite List.Forall_forall in Hall. apply Hall. apply nth_In. lia.
  - apply IH. lia.
Qed.

Lemma bisect_left_below (lap : list Q) (p : Q) :
  Forall (fun q => p < q) lap -> ReferenceLap.bisect_left lap p = 0%nat.
Proof.
  intros Hall. destruct (bisect_left_spec lap p) as [Hr [[H0 | Hlo] _]]; [exact H0 |].
  destruct (Nat.eq_dec (ReferenceLap.bisect_left lap p) 0%nat) as [E | E]; [exact E |].
  rewrite List.Forall_forall in Hall.
  assert (Hin : In (nth (ReferenceLap.bisect_left lap p - 1) lap 0) lap)
    by (apply nth_In; lia).
  apply Hall in Hin. lra.
Qed.

Lemma bisect_left_above (lap : list Q) (p : Q) :
  Forall (fun q => q < p) lap -> ReferenceLap.bisect_left lap p = length lap.
Proof.
  intros Hall. destruct (bisect_left_spec lap p) as [Hr [_ [Hn | Hhi]]]; [exact Hn |].
  destruct (Nat.eq_dec (ReferenceLap.bisect_left lap p) (length lap)) as [E | E];
    [exact E |].
  rewrite List.Forall_forall in Hall.
  assert (Hin : In (nth (ReferenceLap.bisect_left lap p) lap 0) lap)
    by (apply nth_In; lia).
  apply Hall in Hin. lra.
Qed.

(** On a non-decreasing series the search stops at the first sample whose
    fraction is the query. *)
Lemma bisect_left_first_hit (lap : list Q) (p : Q) (k : nat) :
  Sorted Qle lap ->
  (k < length lap)%nat ->
  nth k lap 0 == p ->
  (forall j, (j < k)%nat -> nth j lap 0 < p) ->
  ReferenceLap.bisect_left lap p = k.
Proof.
  intros Hs Hk Hp Hfirst.
  destruct (bisect_left_spec lap p) as [Hr [Hlo Hhi]].
  set (r := ReferenceLap.bisect_left lap p) in *.
  destruct (lt_eq_lt_dec r k) as [[Hlt | Heq] | Hgt]; [| exact Heq |].
  - destruct Hhi as [Hhi | Hhi]; [lia |].
    specialize (Hfirst r Hlt). lra.
  - destruct Hlo as [Hlo | Hlo]; [lia |].
    pose proof (sorted_nth lap Hs k (r - 1)) as Hmono.
    assert (nth k lap 0 <= nth (r - 1) lap 0) by (apply Hmono; lia).
    lra.
Qed.

Lemma ref_at_pct_of_exit (self : ReferenceLap.t) (data : list Q) (pct : Q) e v :
  ReferenceLap.ref_at_pct_exit self data pct = Ok (e, v) ->
  ReferenceLap.ref_at_pct self data pct = Ok v.
Proof. intros H. unfold ReferenceLap.ref_at_pct. now rewrite H. Qed.

(** C7 (as amended). On a reference lap whose stored fractions never
    decrease, with a channel series of the same length: a query at a stored
    fraction returns the channel value of the first sample that has this
    fraction, which is the sample's own value when the series repeats no
    fraction; a query below every stored fraction returns the first sample's
    value, and a query above every stored fraction the last sample's. *)
Theorem C7_ref_at_pct_samples (self : ReferenceLap.t) (data : list Q) (p : Q) :
  length data = length (ReferenceLap.lap_pct self) ->
  ReferenceLap.lap_pct self <> [] ->
  Sorted Qle (ReferenceLap.lap_pct self) ->
  let lap := ReferenceLap.lap_pct self in
  (forall k,
      (k < length lap)%nat ->
      nth k lap 0 == p ->
      (forall j, (j < k)%nat -> nth j lap 0 < p) ->
      exists v, ReferenceLap.ref_at_pct self data p = Ok v /\ v == nth k data 0)
  /\ (Sorted Qlt lap ->
      forall k,
        (k < length lap)%nat ->
        nth k lap 0 == p ->
        exists v, ReferenceLap.ref_at_pct self data p = Ok v /\ v == nth k data 0)
  /\ (Forall (fun q => p < q) lap ->
      ReferenceLap.ref_at_pct self data p = Ok (nth 0 data 0))
  /\ (Forall (fun q => q < p) lap ->
      ReferenceLap.ref_at_pct self data p = Ok (nth (length data - 1) data 0)).
Proof.
  intros Hlen Hne Hs. cbv zeta.
  assert (Hhit : forall k,
             (k < length (ReferenceLap.lap_pct self))%nat ->
             nth k (ReferenceLap.lap_pct self) 0 == p ->
             (forall j, (j < k)%nat -> nth j (ReferenceLap.lap_pct self) 0 < p) ->
             exists v, ReferenceLap.ref_at_pct self data p = Ok v
                       /\ v == nth k data 0).
  { intros k Hk Hp Hfirst.
    pose proof (bisect_left_first_hit _ p k Hs Hk Hp Hfirst) as Hidx.
    destruct k as [| k].
    - eexists. split; [| reflexivity].
      eapply ref_at_pct_of_exit. now apply ref_at_pct_first.
    - destruct (ref_at_pct_interior self data p Hlen) as [[Hb _] H];
        [rewrite Hidx; lia |].
      rewrite Hidx in H, Hb. replace (S k - 1)%nat with k in * by lia.
      eexists. split; [eapply ref_at_pct_of_exit; exact H |].
      rewrite Hp. field. lra. }
  split; [exact Hhit |]. split; [| split].
  - intros Hstrict k Hk Hp. apply Hhit; [exact Hk | exact Hp |].
    intros j Hj.
    apply Sorted_StronglySorted in Hstrict; [| intros x y z; apply Qlt_trans].
    assert (Hmono : forall l, StronglySorted Qlt l ->
                      forall i j, (i < j < length l)%nat -> nth i l 0 < nth j l 0).
    { clear. intros l Hl. induction Hl as [| q l Hl IH Hall]; intros i j Hij;
        [cbn in Hij; lia |].
      destruct i as [| i], j as [| j]; cbn in *; try lia.
      - rewrite List.Forall_forall in Hall. apply Hall. apply nth_In. lia.
      - apply IH. lia. }
    specialize (Hmono _ Hstrict j k). rewrite <- Hp. apply Hmono. lia.
  - intros Hall. eapply ref_at_pct_of_exit.
    apply ref_at_pct_first; [exact Hlen | exact Hne |].
    now apply bisect_left_below.
  - intros Hall. eapply ref_at_pct_of_exit.
    apply ref_at_pct_last; [exact Hlen | exact Hne |].
    now apply bisect_left_above.
Qed.

Lemma C7_ref_at_pct_samples_witness :
  exists v,
    ReferenceLap.ref_at_pct
      (ReferenceLap.mk [0.1; 0.5; 0.9] [0; 0.5; 1] [0; 0; 0] 0.1 0.2 0.7 [] [])
      [0; 0.5; 1] 0.5 = Ok v
    /\ v == 0.5.
Proof.
  refine (proj1 (C7_ref_at_pct_samples
                   (ReferenceLap.mk [0.1; 0.5; 0.9] [0; 0.5; 1] [0; 0; 0]
                      0.1 0.2 0.7 [] [])
                   [0; 0.5; 1] 0.5 eq_refl _ _) 1%nat _ _ _).
  - discriminate.
  - repeat constructor; vm_compute; discriminate.
  - cbn. lia.
  - reflexivity.
  - intros j Hj. assert (j = 0%nat) as -> by lia. reflexivity.
Defined.

(** C7, the claim as stated fails.  The third sample has lap fraction 0.5 and
    throttle 1, but the query at 0.5 returns 0.5, the throttle of the second
    sample, which has the same lap fraction. *)
Lemma C7_ref_at_pct_counterexample :
  let self :=
    ReferenceLap.mk [0.1; 0.5; 0.5] [0; 0.5; 1] [0; 0; 0] 0.1 0.2 0.7 [] [] in
  nth 2 (ReferenceLap.lap_pct self) 0 == 0.5
  /\ nth 2 (ReferenceLap.throttle self) 0 == 1
  /\ exists v,
       ReferenceLap.ref_at_pct self (ReferenceLap.throttle self) 0.5 = Ok v
       /\ v == 0.5
       /\ ~ v == nth 2 (ReferenceLap.throttle self) 0.
Proof.
  cbv zeta. split; [reflexivity |]. split; [reflexivity |].
  eexists. split; [vm_compute; reflexivity |].
  split; [reflexivity | discriminate].
Qed.

(* ===================================================================== *)
(** ** The cue scheduler *)
(* ===================================================================== *)

Lemma fired_app (l1 l2 : list Cue) L i st :
  fired (l1 ++ l2) L i st = (fired l1 L i st + fired l2 L i st)%nat.
Proof. unfold fired. now rewrite List.filter_app, length_app. Qed.

Lemma fired_nil L i st : fired [] L i st = 0%nat.
Proof. reflexivity. Qed.

Lemma advances_same (s s' : AudioCues.t) :
  _lap_id s' = _lap_id s ->
  _stage_state s' = _stage_state s ->
  advances s [] s'.
Proof.
  intros Hl Hs. unfold advances, stage_flag. rewrite Hs.
  repeat split; auto.
  intros L i st. rewrite fired_nil.
  destruct (bool_decide (L = _lap_id s)); cbn; [| reflexivity].
  now destruct (match _stage_state s !! i with Some f => flag_of f st | None => false end).
Qed.

Lemma advances_trans (s s1 s2 : AudioCues.t) (c1 c2 : list Cue) :
  advances s c1 s1 -> advances s1 c2 s2 -> advances s (c1 ++ c2) s2.
Proof.
  intros (Hl1 & Hm1 & Hf1) (Hl2 & Hm2 & Hf2).
  unfold advances. repeat split; try congruence; auto.
  intros L i st. rewrite fired_app, Hf1, Hf2, Hl1.
  specialize (Hm1 i st). specialize (Hm2 i st).
  destruct (bool_decide (L = _lap_id s)); cbn; [| reflexivity].
  destruct (stage_flag s i st), (stage_flag s1 i st), (stage_flag s2 i st);
    cbn; try reflexivity; try (specialize (Hm1 eq_refl)); try (specialize (Hm2 eq_refl));
    discriminate.
Qed.

Lemma play_pattern_frame w s pat q st :
  let s' := _play_pattern w s pat q st in
  _stage_state s' = _stage_state s
  /\ _last_dist_to_event s' = _last_dist_to_event s
  /\ _last_lap_pct s' = _last_lap_pct s
  /\ _lap_id s' = _lap_id s.
Proof.
  unfold _play_pattern.
  destruct w, (priority_of st <=? _PRIORITY_B)%Z; cbn; auto.
Qed.

Lemma flag_of_raise f st st' :
  flag_of (raise_flag f st) st' = bool_decide (st' = st) || flag_of f st'.
Proof. destruct st, st'; reflexivity. Qed.

Lemma fired_single (c : Cue) L i st :
  fired [c] L i st
  = if bool_decide (cue_lap c = L /\ cue_idx c = i /\ cue_stage c = st)
    then 1%nat else 0%nat.
Proof.
  unfold fired. cbn.
  now destruct (bool_decide (cue_lap c = L /\ cue_idx c = i /\ cue_stage c = st)).
Qed.

Lemma trigger_spec w s idx ev q f st :
  is_Some (_stage_state s !! idx) ->
  advances s (snd (trigger w s idx ev q f st)) (fst (trigger w s idx ev q f st))
  /\ _last_dist_to_event (fst (trigger w s idx ev q f st)) = _last_dist_to_event s
  /\ is_Some (_stage_state (fst (trigger w s idx ev q f st)) !! idx)
  /\ snd (trigger w s idx ev q f st)
     = (if stage_flag s idx st then []
        else [{| cue_lap := _lap_id s; cue_idx := idx; cue_stage := st;
                 cue_forced := f |}])
  /\ stage_flag (fst (trigger w s idx ev q f st)) idx st = true.
Proof.
  intros [fl Hfl]. unfold trigger.
  destruct (stage_flag s idx st) eqn:Eflag; cbn [fst snd].
  { split; [now apply advances_same |].
    split; [reflexivity |]. split; [now exists fl |].
    split; [reflexivity | assumption]. }
  unfold set_stage_flag. rewrite Hfl.
  set (s1 := with_stage_state s (<[idx:=raise_flag fl st]> (_stage_state s))).
  destruct (play_pattern_frame w s1 (_pattern_for (kind ev) st) q st)
    as (Hst & Hld & Hlp & Hid).
  set (s2 := _play_pattern w s1 (_pattern_for (kind ev) st) q st) in *.
  assert (Hflag : forall i st',
             stage_flag s2 i st'
             = (bool_decide (i = idx /\ st' = st) || stage_flag s i st')).
  { intros i st'. unfold stage_flag. rewrite Hst. subst s1. cbn.
    destruct (decide (i = idx)) as [-> | Hne].
    - rewrite lookup_insert_eq, Hfl, flag_of_raise.
      destruct (decide (st' = st)) as [-> | Hne'].
      + now rewrite !bool_decide_eq_true_2.
      + rewrite !bool_decide_eq_false_2; [reflexivity | tauto | assumption].
    - rewrite lookup_insert_ne by congruence.
      rewrite bool_decide_eq_false_2 by tauto. reflexivity. }
  split; [| split; [| split; [| split]]].
  - unfold advances.
    split; [exact Hid |]. split.
    + intros i st' H. rewrite Hflag, H. apply orb_true_r.
    + intros L i st'. rewrite fired_single, Hflag.
      cbn [cue_lap cue_idx cue_stage].
      change (_lap_id s1) with (_lap_id s).
      destruct (decide (L = _lap_id s)) as [-> | HL].
      * rewrite (bool_decide_eq_true_2 (_lap_id s = _lap_id s)) by reflexivity.
        destruct (decide (i = idx /\ st' = st)) as [[-> ->] | Hne].
        -- rewrite !bool_decide_eq_true_2 by tauto. now rewrite Eflag.
        -- rewrite (bool_decide_eq_false_2 (i = idx /\ st' = st)) by assumption.
           rewrite bool_decide_eq_false_2 by (intros (_ & <- & <-); tauto).
           cbn. now destruct (stage_flag s i st').
      * rewrite (bool_decide_eq_false_2 (L = _lap_id s)) by assumption.
        rewrite bool_decide_eq_false_2 by (intros (<- & _); tauto).
        reflexivity.
  - rewrite Hld. reflexivity.
  - rewrite Hst. subst s1. cbn. rewrite lookup_insert_eq. eauto.
  - subst s1. reflexivity.
  - rewrite Hflag. rewrite bool_decide_eq_true_2 by tauto. reflexivity.
Qed.

Lemma event_step_trans idx s s1 s2 c1 c2 :
  event_step idx s c1 s1 -> event_step idx s1 c2 s2 ->
  event_step idx s (c1 ++ c2) s2.
Proof.
  intros (Ha1 & Hd1 & Hs1 & Hc1) (Ha2 & Hd2 & Hs2 & Hc2).
  split; [eapply advances_trans; eassumption |].
  split; [congruence |]. split; [auto |].
  apply Forall_app. split; assumption.
Qed.

Lemma event_step_same idx s s' :
  _lap_id s' = _lap_id s ->
  _stage_state s' = _stage_state s ->
  _last_dist_to_event s' = _last_dist_to_event s ->
  event_step idx s [] s'.
Proof.
  intros Hl Hs Hd. split; [now apply advances_same |].
  split; [exact Hd |]. split; [now rewrite Hs | constructor].
Qed.

Lemma setdefault_flag s idx i st :
  stage_flag (setdefault s idx) i st = stage_flag s i st.
Proof.
  unfold setdefault, stage_flag.
  destruct (_stage_state s !! idx) eqn:E; [reflexivity |]. cbn.
  destruct (decide (i = idx)) as [-> | Hne].
  - rewrite lookup_insert_eq, E. now destruct st.
  - now rewrite lookup_insert_ne by congruence.
Qed.

Lemma setdefault_entry s idx : is_Some (_stage_state (setdefault s idx) !! idx).
Proof.
  unfold setdefault. destruct (_stage_state s !! idx) eqn:E; [rewrite E; eauto |].
  cbn. rewrite lookup_insert_eq. eauto.
Qed.

Lemma setdefault_step s idx : event_step idx s [] (setdefault s idx).
Proof.
  split; [| split; [| split; [| constructor]]].
  - unfold advances.
    split; [unfold setdefault; now destruct (_stage_state s !! idx) |].
    split.
    + intros i st. now rewrite setdefault_flag.
    + intros L i st. rewrite fired_nil, setdefault_flag.
      destruct (bool_decide (L = _lap_id s)); cbn; [| reflexivity].
      now destruct (stage_flag s i st).
  - unfold setdefault; now destruct (_stage_state s !! idx).
  - intros _. apply setdefault_entry.
Qed.

Lemma trigger_step w s idx ev q f st :
  is_Some (_stage_state s !! idx) ->
  event_step idx s (snd (trigger w s idx ev q f st))
    (fst (trigger w s idx ev q f st)).
Proof.
  intros He.
  destruct (trigger_spec w s idx ev q f st He) as (Ha & Hd & Hs & Hc & _).
  split; [exact Ha |]. split; [exact Hd |]. split; [auto |].
  rewrite Hc. destruct (stage_flag s idx st); repeat constructor.
Qed.

Lemma maybe_trigger_step w s idx ev q f st (c : bool) :
  is_Some (_stage_state s !! idx) ->
  event_step idx s
    (snd (if c then trigger w s idx ev q f st else (s, [])))
    (fst (if c then trigger w s idx ev q f st else (s, []))).
Proof.
  intros He. destruct c; [now apply trigger_step |].
  now apply event_step_same.
Qed.

Lemma handle_stage_step w s idx ev d last a b off q pm f :
  event_step idx s
    (snd (_handle_stage w s idx ev d last a b off q pm f))
    (fst (_handle_stage w s idx ev d last a b off q pm f))
  /\ is_Some (_stage_state (fst (_handle_stage w s idx ev d last a b off q pm f)) !! idx).
Proof.
  unfold _handle_stage.
  pose proof (setdefault_step s idx) as H0.
  pose proof (setdefault_entry s idx) as E0.
  set (s0 := setdefault s idx) in *. clearbody s0.
  destruct f.
  - pose proof (trigger_step w s0 idx ev q true StageC E0) as H1.
    split.
    + apply (event_step_trans idx s s0 _ [] _ H0 H1).
    + now apply H1.
  - match goal with
    | |- context [if ?c then trigger w s0 idx ev q false StageA else _] =>
        pose proof (maybe_trigger_step w s0 idx ev q false StageA c E0) as H1;
        destruct (if c then trigger w s0 idx ev q false StageA else (s0, []))
          as [s1 c1]
    end.
    cbn [fst snd] in H1.
    assert (E1 : is_Some (_stage_state s1 !! idx)) by now apply H1.
    match goal with
    | |- context [if ?c then trigger w s1 idx ev q false StageB else _] =>
        pose proof (maybe_trigger_step w s1 idx ev q false StageB c E1) as H2;
        destruct (if c then trigger w s1 idx ev q false StageB else (s1, []))
          as [s2 c2]
    end.
    cbn [fst snd] in H2.
    assert (E2 : is_Some (_stage_state s2 !! idx)) by now apply H2.
    match goal with
    | |- context [if ?c then trigger w s2 idx ev q false StageC else _] =>
        pose proof (maybe_trigger_step w s2 idx ev q false StageC c E2) as H3;
        destruct (if c then trigger w s2 idx ev q false StageC else (s2, []))
          as [s3 c3]
    end.
    cbn [fst snd] in *.
    split; [| now apply H3].
    apply (event_step_trans idx s s0 s3 [] _ H0).
    apply (event_step_trans idx s0 s1 s3 _ _ H1).
    apply (event_step_trans idx s1 s2 s3 _ _ H2 H3).
Qed.

Lemma crossed_increase (d ld T : Q) : ld < d -> crossed d (Some ld) T = false.
Proof.
  intros H. unfold crossed.
  destruct (Py.ltb T ld) eqn:E1; [| reflexivity].
  destruct (Py.leb d T) eqn:E2; [| reflexivity].
  py_bool. lra.
Qed.

Lemma stage_event_step w a pm A B s idx ev d :
  advances s (snd (stage_event w a pm A B s idx ev d))
    (fst (stage_event w a pm A B s idx ev d))
  /\ Forall (fun c => cue_idx c = idx) (snd (stage_event w a pm A B s idx ev d))
  /\ _last_dist_to_event (fst (stage_event w a pm A B s idx ev d))
     = <[idx := d]> (_last_dist_to_event s).
Proof.
  unfold stage_event.
  set (last := _last_dist_to_event s !! idx).
  destruct (handle_stage_step w s idx ev d last A B (final_cue_offset_m a)
              (quiet_mode a) pm false) as [H1 _].
  destruct (_handle_stage w s idx ev d last A B (final_cue_offset_m a)
              (quiet_mode a) pm false) as [s1 c1].
  cbn [fst snd] in H1.
  assert (H2 : exists s2 c2,
             match last with
             | Some l =>
                 if Py.leb l B && Py.ltb l d
                 then _handle_stage w s1 idx ev 0.0 last A B
                        (final_cue_offset_m a) (quiet_mode a) pm true
                 else (s1, [])
             | None => (s1, [])
             end = (s2, c2)
             /\ event_step idx s1 c2 s2).
  { destruct last as [l |].
    - destruct (Py.leb l B && Py.ltb l d).
      + destruct (handle_stage_step w s1 idx ev 0.0 (Some l) A B
                    (final_cue_offset_m a) (quiet_mode a) pm true) as [H _].
        destruct (_handle_stage w s1 idx ev 0.0 (Some l) A B
                    (final_cue_offset_m a) (quiet_mode a) pm true) as [s2 c2].
        exists s2, c2. split; [reflexivity | exact H].
      + exists s1, []. split; [reflexivity | now apply event_step_same].
    - exists s1, []. split; [reflexivity | now apply event_step_same]. }
  destruct H2 as (s2 & c2 & -> & H2).
  cbn [fst snd].
  destruct (event_step_trans idx s s1 s2 c1 c2 H1 H2) as (Ha & Hd & _ & Hc).
  split; [| split; [exact Hc |]].
  - destruct Ha as (Hl & Hm & Hf). unfold advances. cbn. repeat split; auto.
  - cbn. now rewrite Hd.
Qed.

Lemma fold_left_ext {A B} (f g : A -> B -> A) (l : list B) (x : A) :
  (forall a b, f a b = g a b) -> fold_left f l x = fold_left g l x.
Proof.
  intros H. revert x. induction l as [| b l IH]; intros x; [reflexivity |].
  cbn. now rewrite H, IH.
Qed.

Lemma update_fold w s a p :
  lap_pct a = Some p ->
  update w s a
  = fold_left (tick_body w a p) (Py.enumerate (events a)) (begin_tick s p, []).
Proof.
  intros Hp. unfold update. rewrite Hp.
  destruct (events a) as [| e0 evs] eqn:Eev; [reflexivity |].
  rewrite <- Eev. clear Eev e0 evs.
  unfold tick_body, tick_thresholds, tick_distance, distance_mode.
  destruct (track_len_m a) as [len |] eqn:El.
  - destruct (Py.truthy (Some len) && Py.ltb 1.0 len) eqn:Em.
    + destruct (_approach_distances (speed_mps a) (approach_a_s a) (approach_b_s a))
        as [A B] eqn:Eap.
      apply fold_left_ext. intros [self log] [idx event].
      unfold distance_body. cbn [fst snd negb].
      destruct (dist_m event) as [dm |]; [| reflexivity].
      destruct (kind_disabled a event); [reflexivity |].
      now destruct (stage_event w a false A B self idx event
                      (Py.fmod (dm - p * len) len)).
    + apply fold_left_ext. intros [self log] [idx event].
      unfold fraction_body. cbn [fst snd negb].
      destruct (kind_disabled a event); [reflexivity |].
      now destruct (stage_event w a true 0.02 0.01 self idx event
                      (Py.fmod (ev_lap_pct event - p) 1.0)).
  - apply fold_left_ext. intros [self log] [idx event].
    unfold fraction_body. cbn [fst snd negb].
    destruct (kind_disabled a event); [reflexivity |].
    now destruct (stage_event w a true 0.02 0.01 self idx event
                    (Py.fmod (ev_lap_pct event - p) 1.0)).
Qed.

Lemma tick_body_step w a p s log ie :
  exists cues,
    tick_body w a p (s, log) ie = (fst (tick_body w a p (s, log) ie), log ++ cues)
    /\ advances s cues (fst (tick_body w a p (s, log) ie))
    /\ Forall (fun c => cue_idx c = fst ie) cues
    /\ (forall i, i <> fst ie ->
          _last_dist_to_event (fst (tick_body w a p (s, log) ie)) !! i
          = _last_dist_to_event s !! i).
Proof.
  unfold tick_body. destruct (tick_distance a p (snd ie)) as [d |].
  - cbn [fst snd].
    destruct (stage_event_step w a (negb (distance_mode a))
                (fst (tick_thresholds a)) (snd (tick_thresholds a)) s
                (fst ie) (snd ie) d) as (Ha & Hc & Hd).
    eexists. split; [reflexivity |]. split; [exact Ha |]. split; [exact Hc |].
    intros i Hi. rewrite Hd. now rewrite lookup_insert_ne by congruence.
  - exists []. cbn [fst snd]. rewrite app_nil_r. split; [reflexivity |].
    split; [now apply advances_same |]. split; [constructor | reflexivity].
Qed.

Lemma fold_tick_step w a p (l : list (nat * RefEvent)) :
  forall s log,
  exists cues,
    fold_left (tick_body w a p) l (s, log)
    = (fst (fold_left (tick_body w a p) l (s, log)), log ++ cues)
    /\ advances s cues (fst (fold_left (tick_body w a p) l (s, log)))
    /\ Forall (fun c => In (cue_idx c) (map fst l)) cues
    /\ (forall i, ~ In i (map fst l) ->
          _last_dist_to_event (fst (fold_left (tick_body w a p) l (s, log))) !! i
          = _last_dist_to_event s !! i).
Proof.
  induction l as [| ie l IH]; intros s log.
  - exists []. cbn. rewrite app_nil_r. split; [reflexivity |].
    split; [now apply advances_same |]. split; [constructor | reflexivity].
  - cbn [fold_left].
    destruct (tick_body_step w a p s log ie) as (c1 & E1 & Ha1 & Hc1 & Hd1).
    rewrite E1.
    destruct (IH (fst (tick_body w a p (s, log) ie)) (log ++ c1))
      as (c2 & E2 & Ha2 & Hc2 & Hd2).
    exists (c1 ++ c2). rewrite E2 at 1. cbn [fst snd].
    split; [now rewrite app_assoc |].
    split; [eapply advances_trans; eassumption |]. split.
    + apply Forall_app. split.
      * eapply List.Forall_impl; [| exact Hc1]. cbn. intros c ->. now left.
      * eapply List.Forall_impl; [| exact Hc2]. cbn. intros c H. now right.
    + intros i Hi.
      assert (Hne : i <> fst ie) by (intros ->; apply Hi; now left).
      assert (Hni : ~ In i (map fst l)) by (intros H; apply Hi; now right).
      rewrite Hd2 by exact Hni. now apply Hd1.
Qed.

Lemma begin_tick_same s p :
  rollover s p = false ->
  _stage_state (begin_tick s p) = _stage_state s
  /\ _last_dist_to_event (begin_tick s p) = _last_dist_to_event s
  /\ _lap_id (begin_tick s p) = _lap_id s.
Proof. intros H. unfold begin_tick. rewrite H. cbn. auto. Qed.

Lemma begin_tick_new_lap s p :
  rollover s p = true ->
  _stage_state (begin_tick s p) = ∅
  /\ _last_dist_to_event (begin_tick s p) = ∅
  /\ _lap_id (begin_tick s p) = (_lap_id s + 1)%Z.
Proof. intros H. unfold begin_tick. rewrite H. cbn. auto. Qed.

Lemma update_advances w s a p :
  lap_pct a = Some p ->
  advances (begin_tick s p) (snd (update w s a)) (fst (update w s a)).
Proof.
  intros Hp. rewrite (update_fold w s a p Hp).
  destruct (fold_tick_step w a p (Py.enumerate (events a)) (begin_tick s p) [])
    as (cues & E & Ha & _).
  rewrite E at 1. cbn [fst snd app]. exact Ha.
Qed.

Lemma advances_from (s0 s s' : AudioCues.t) cues :
  _stage_state s0 = _stage_state s ->
  _lap_id s0 = _lap_id s ->
  advances s0 cues s' -> advances s cues s'.
Proof.
  intros Hs Hl (Hl' & Hm & Hf). unfold advances, stage_flag in *.
  rewrite Hs, Hl in *. auto.
Qed.

(** A tick without rollover continues the lap. *)
Lemma update_same_lap w s a :
  (forall p, lap_pct a = Some p -> rollover s p = false) ->
  advances s (snd (update w s a)) (fst (update w s a)).
Proof.
  intros Hno. destruct (lap_pct a) as [p |] eqn:Hp.
  - destruct (begin_tick_same s p (Hno p eq_refl)) as (Hs & _ & Hl).
    eapply advances_from; [exact Hs | exact Hl |]. now apply update_advances.
  - unfold update. rewrite Hp. now apply advances_same.
Qed.

(** A tick with rollover starts the next lap with all flags cleared. *)
Lemma update_new_lap w s a p :
  lap_pct a = Some p ->
  rollover s p = true ->
  _lap_id (fst (update w s a)) = (_lap_id s + 1)%Z
  /\ (forall L i st,
        fired (snd (update w s a)) L i st
        = if bool_decide (L = (_lap_id s + 1)%Z)
             && stage_flag (fst (update w s a)) i st
          then 1%nat else 0%nat).
Proof.
  intros Hp Hr.
  destruct (begin_tick_new_lap s p Hr) as (Hs & _ & Hl).
  destruct (update_advances w s a p Hp) as (Hl' & _ & Hf).
  split; [congruence |].
  intros L i st. rewrite Hf, Hl.
  assert (E : stage_flag (begin_tick s p) i st = false).
  { unfold stage_flag. rewrite Hs. now rewrite lookup_empty. }
  rewrite E. now rewrite andb_true_r.
Qed.

Lemma rollover_cases s a :
  (forall p, lap_pct a = Some p -> rollover s p = false)
  \/ (exists p, lap_pct a = Some p /\ rollover s p = true).
Proof.
  destruct (lap_pct a) as [p |]; [| left; discriminate].
  destruct (rollover s p) eqn:E.
  - right. eauto.
  - left. intros p' [= <-]. exact E.
Qed.

Lemma run_cons w s a rest :
  run w s (a :: rest)
  = (fst (run w (fst (update w s a)) rest),
     snd (update w s a) ++ snd (run w (fst (update w s a)) rest)).
Proof.
  cbn [run]. destruct (update w s a) as [s1 c1]. cbn [fst snd].
  now destruct (run w s1 rest).
Qed.

Lemma run_app w (l1 l2 : list Args) :
  forall s,
    run w s (l1 ++ l2)
    = (fst (run w (fst (run w s l1)) l2),
       snd (run w s l1) ++ snd (run w (fst (run w s l1)) l2)).
Proof.
  induction l1 as [| a l1 IH]; intros s.
  - cbn [app run fst snd]. now destruct (run w s l2).
  - rewrite <- app_comm_cons, !run_cons, IH. cbn [fst snd].
    now rewrite app_assoc.
Qed.

(** Over any sequence of ticks, from any state: the lap counter never goes
    back, no cue is fired twice for the same lap, event and stage, none for an
    earlier lap, and none for a stage of the current lap whose flag is set. *)
Lemma run_fired w (ticks : list Args) :
  forall s,
    (_lap_id s <= _lap_id (fst (run w s ticks)))%Z
    /\ (forall L i st, (fired (snd (run w s ticks)) L i st <= 1)%nat)
    /\ (forall L i st, (L < _lap_id s)%Z -> fired (snd (run w s ticks)) L i st = 0%nat)
    /\ (forall i st, stage_flag s i st = true ->
                     fired (snd (run w s ticks)) (_lap_id s) i st = 0%nat).
Proof.
  induction ticks as [| a rest IH]; intros s.
  - cbn. repeat split; intros; lia.
  - rewrite run_cons. cbn [fst snd].
    destruct (IH (fst (update w s a))) as (IHl & IH1 & IHlt & IHflag).
    destruct (rollover_cases s a) as [Hno | (p & Hp & Hr)].
    + destruct (update_same_lap w s a Hno) as (Hl & Hm & Hf).
      rewrite Hl in *.
      split; [exact IHl |]. split; [| split].
      * intros L i st. rewrite fired_app, Hf.
        destruct (decide (L = _lap_id s)) as [-> | HL].
        -- rewrite bool_decide_eq_true_2 by reflexivity. cbn.
           destruct (stage_flag (fst (update w s a)) i st) eqn:E1.
           ++ rewrite (IHflag i st E1). destruct (stage_flag s i st); cbn; lia.
           ++ cbn. apply IH1.
        -- rewrite bool_decide_eq_false_2 by assumption. cbn. apply IH1.
      * intros L i st HL. rewrite fired_app, Hf.
        rewrite bool_decide_eq_false_2 by lia. cbn. now apply IHlt.
      * intros i st Hflag. rewrite fired_app, Hf, Hflag.
        rewrite andb_false_r. cbn. apply IHflag. now apply Hm.
    + destruct (update_new_lap w s a p Hp Hr) as (Hl & Hf).
      rewrite Hl in *.
      split; [lia |]. split; [| split].
      * intros L i st. rewrite fired_app, Hf.
        destruct (decide (L = (_lap_id s + 1)%Z)) as [-> | HL].
        -- rewrite bool_decide_eq_true_2 by reflexivity. cbn.
           destruct (stage_flag (fst (update w s a)) i st) eqn:E1.
           ++ rewrite (IHflag i st E1). cbn. lia.
           ++ apply IH1.
        -- rewrite bool_decide_eq_false_2 by assumption. cbn. apply IH1.
      * intros L i st HL. rewrite fired_app, Hf.
        rewrite bool_decide_eq_false_2 by lia. cbn. apply IHlt. lia.
      * intros i st _. rewrite fired_app, Hf.
        rewrite bool_decide_eq_false_2 by lia. cbn. apply IHlt. lia.
Qed.

Lemma consistent_init : consistent init [].
Proof. split; intros; reflexivity. Qed.

Lemma consistent_update w s log a :
  consistent s log ->
  consistent (fst (update w s a)) (log ++ snd (update w s a)).
Proof.
  intros [Hcur Hlater].
  destruct (rollover_cases s a) as [Hno | (p & Hp & Hr)].
  - destruct (update_same_lap w s a Hno) as (Hl & Hm & Hf).
    split.
    + intros i st. rewrite Hl, fired_app, Hcur, Hf.
      rewrite bool_decide_eq_true_2 by reflexivity. cbn.
      specialize (Hm i st).
      destruct (stage_flag s i st); cbn.
      * now rewrite Hm, andb_false_r.
      * now rewrite andb_true_r.
    + intros L i st HL. rewrite Hl in HL. rewrite fired_app, Hf.
      rewrite bool_decide_eq_false_2 by lia. cbn.
      rewrite Hlater by exact HL. reflexivity.
  - destruct (update_new_lap w s a p Hp Hr) as (Hl & Hf).
    split.
    + intros i st. rewrite Hl, fired_app, Hf.
      rewrite bool_decide_eq_true_2 by reflexivity. cbn.
      rewrite Hlater by lia. reflexivity.
    + intros L i st HL. rewrite Hl in HL. rewrite fired_app, Hf.
      rewrite bool_decide_eq_false_2 by lia. cbn.
      rewrite Hlater by lia. reflexivity.
Qed.

Lemma consistent_run w (ticks : list Args) :
  forall s log,
    consistent s log ->
    consistent (fst (run w s ticks)) (log ++ snd (run w s ticks)).
Proof.
  induction ticks as [| a rest IH]; intros s log H.
  - cbn. now rewrite app_nil_r.
  - rewrite run_cons. cbn [fst snd]. rewrite app_assoc.
    apply IH. now apply consistent_update.
Qed.

Lemma advances_frame s cues s' idx :
  advances s cues s' ->
  Forall (fun c => cue_idx c <> idx) cues ->
  forall st, stage_flag s' idx st = stage_flag s idx st.
Proof.
  intros (Hl & Hm & Hf) Hall st.
  specialize (Hf (_lap_id s) idx st). specialize (Hm idx st).
  assert (E : fired cues (_lap_id s) idx st = 0%nat).
  { unfold fired. clear Hf. induction Hall as [| c cs Hc _ IH]; [reflexivity |].
    cbn. rewrite bool_decide_eq_false_2 by tauto. exact IH. }
  rewrite E in Hf. rewrite bool_decide_eq_true_2 in Hf by reflexivity.
  destruct (stage_flag s idx st), (stage_flag s' idx st); cbn in Hf;
    try reflexivity; try discriminate. now specialize (Hm eq_refl).
Qed.

Lemma cues_of_app l1 l2 idx : cues_of (l1 ++ l2) idx = cues_of l1 idx ++ cues_of l2 idx.
Proof. unfold cues_of. apply List.filter_app. Qed.

Lemma cues_of_other cues idx :
  Forall (fun c => cue_idx c <> idx) cues -> cues_of cues idx = [].
Proof.
  intros H. unfold cues_of. induction H as [| c cs Hc _ IH]; [reflexivity |].
  cbn. now rewrite bool_decide_eq_false_2.
Qed.

Lemma cues_of_same cues idx :
  Forall (fun c => cue_idx c = idx) cues -> cues_of cues idx = cues.
Proof.
  intros H. unfold cues_of. induction H as [| c cs Hc _ IH]; [reflexivity |].
  cbn. rewrite bool_decide_eq_true_2 by assumption. now rewrite IH.
Qed.

(** The skip-over case of [stage_event]: the ordinary call of
    [_handle_stage] observes no crossing, the forced call fires the final
    stage unless its flag is set. *)
Lemma stage_event_skip w a pm A B s idx ev d last :
  _last_dist_to_event s !! idx = Some last ->
  last <= B ->
  last < d ->
  snd (stage_event w a pm A B s idx ev d)
  = (if stage_flag s idx StageC then []
     else [{| cue_lap := _lap_id s; cue_idx := idx; cue_stage := StageC;
              cue_forced := true |}])
  /\ stage_flag (fst (stage_event w a pm A B s idx ev d)) idx StageC = true.
Proof.
  intros Hlast HB Hd. unfold stage_event. rewrite Hlast.
  assert (Hnormal : _handle_stage w s idx ev d (Some last) A B
                      (final_cue_offset_m a) (quiet_mode a) pm false
                    = (setdefault s idx, [])).
  { unfold _handle_stage. now rewrite !crossed_increase by exact Hd. }
  rewrite Hnormal.
  assert (Hcond : Py.leb last B && Py.ltb last d = true).
  { apply andb_true_intro. split; [now apply leb_le | now apply ltb_lt]. }
  rewrite Hcond. unfold _handle_stage.
  set (s0 := setdefault (setdefault s idx) idx).
  destruct (trigger_spec w s0 idx ev (quiet_mode a) true StageC
              (setdefault_entry _ idx)) as (_ & _ & _ & Hc & Hf).
  assert (Hflag0 : stage_flag s0 idx StageC = stage_flag s idx StageC).
  { unfold s0. now rewrite !setdefault_flag. }
  assert (Hlap0 : _lap_id s0 = _lap_id s).
  { unfold s0, setdefault.
    destruct (_stage_state s !! idx) eqn:E; rewrite ?E; cbn;
      rewrite ?lookup_insert_eq, ?E; reflexivity. }
  destruct (trigger w s0 idx ev (quiet_mode a) true StageC) as [s1 c1].
  cbn [fst snd] in *. rewrite Hflag0, Hlap0 in Hc.
  split; [exact Hc |].
  unfold stage_flag in *. cbn. exact Hf.
Qed.

Lemma enumerate_fst {A} (l : list A) (k : nat) :
  map fst (combine (seq k (length l)) l) = seq k (length l).
Proof.
  revert k. induction l as [| x l IH]; intros k; [reflexivity |].
  cbn. now rewrite IH.
Qed.

Lemma enumerate_NoDup {A} (l : list A) : List.NoDup (map fst (Py.enumerate l)).
Proof. unfold Py.enumerate. rewrite enumerate_fst. apply List.seq_NoDup. Qed.

Lemma enumerate_In {A} (l : list A) (i : nat) (x : A) :
  nth_error l i = Some x -> In (i, x) (Py.enumerate l).
Proof.
  unfold Py.enumerate.
  enough (H : forall k, nth_error l i = Some x ->
                        In ((k + i)%nat, x) (combine (seq k (length l)) l))
    by (intros Hn; exact (H 0%nat Hn)).
  revert i. induction l as [| y l IH]; intros i k Hn; [now destruct i |].
  destruct i as [| i]; cbn in *.
  - injection Hn as ->. left. f_equal. lia.
  - right. replace (k + S i)%nat with (S k + i)%nat by lia. now apply IH.
Qed.

Lemma fold_tick_skip w a p idx ev d last (l : list (nat * RefEvent)) :
  tick_distance a p ev = Some d ->
  last <= snd (tick_thresholds a) ->
  last < d ->
  forall s log,
    List.NoDup (map fst l) ->
    In (idx, ev) l ->
    _last_dist_to_event s !! idx = Some last ->
    exists cues,
      snd (fold_left (tick_body w a p) l (s, log)) = log ++ cues
      /\ cues_of cues idx
         = (if stage_flag s idx StageC then []
            else [{| cue_lap := _lap_id s; cue_idx := idx;
                     cue_stage := StageC; cue_forced := true |}])
      /\ stage_flag (fst (fold_left (tick_body w a p) l (s, log))) idx StageC
         = true.
Proof.
  intros Hdist HB Hd.
  induction l as [| [j e] l IH]; intros s log Hnd Hin Hlast; [destruct Hin |].
  cbn [map fst] in Hnd. apply List.NoDup_cons_iff in Hnd as [Hj Hnd].
  cbn [fold_left].
  destruct (decide (j = idx)) as [-> | Hne].
  - assert (e = ev) as ->.
    { destruct Hin as [[= ->] | Hin]; [reflexivity |].
      exfalso. apply Hj. apply (in_map fst) in Hin. exact Hin. }
    destruct (stage_event_step w a (negb (distance_mode a))
                (fst (tick_thresholds a)) (snd (tick_thresholds a)) s idx ev d)
      as (Ha & Hc & _).
    destruct (stage_event_skip w a (negb (distance_mode a))
                (fst (tick_thresholds a)) (snd (tick_thresholds a)) s idx ev d
                last Hlast HB Hd) as (Hcues & Hflag).
    set (r := stage_event w a (negb (distance_mode a)) (fst (tick_thresholds a))
                (snd (tick_thresholds a)) s idx ev d) in *.
    assert (Ebody : tick_body w a p (s, log) (idx, ev) = (fst r, log ++ snd r)).
    { unfold tick_body. cbn [fst snd]. now rewrite Hdist. }
    rewrite Ebody.
    destruct (fold_tick_step w a p l (fst r) (log ++ snd r))
      as (c2 & E2 & Ha2 & Hc2 & _).
    rewrite E2. cbn [fst snd].
    assert (Hother : Forall (fun c => cue_idx c <> idx) c2).
    { eapply List.Forall_impl; [| exact Hc2]. cbn. intros c H E.
      rewrite E in H. tauto. }
    exists (snd r ++ c2). split; [now rewrite app_assoc |]. split.
    + rewrite cues_of_app, (cues_of_other c2 idx Hother), app_nil_r.
      rewrite (cues_of_same _ idx Hc). exact Hcues.
    + rewrite (advances_frame _ _ _ idx Ha2 Hother). exact Hflag.
  - assert (Hin' : In (idx, ev) l).
    { destruct Hin as [[= -> _] | Hin]; [congruence | exact Hin]. }
    destruct (tick_body_step w a p s log (j, e)) as (c1 & E1 & Ha1 & Hc1 & Hd1).
    cbn [fst] in Hc1, Hd1.
    assert (Hother : Forall (fun c => cue_idx c <> idx) c1).
    { eapply List.Forall_impl; [| exact Hc1]. cbn. intros c E. congruence. }
    rewrite E1.
    set (s1 := fst (tick_body w a p (s, log) (j, e))) in *.
    destruct (IH s1 (log ++ c1) Hnd Hin') as (c2 & E2 & Hcues & Hflag).
    { rewrite Hd1 by congruence. exact Hlast. }
    exists (c1 ++ c2). split; [now rewrite E2, app_assoc |]. split.
    + rewrite cues_of_app, (cues_of_other c1 idx Hother). cbn [app].
      rewrite Hcues, (advances_frame _ _ _ idx Ha1 Hother).
      destruct Ha1 as (-> & _). reflexivity.
    + exact Hflag.
Qed.

Lemma fired_zero_absent (l : list Cue) L i st c :
  fired l L i st = 0%nat ->
  In c l -> cue_lap c = L -> cue_idx c = i -> cue_stage c = st -> False.
Proof.
  unfold fired. intros H Hin HL Hi Hst.
  assert (Hf : In c (List.filter
                       (fun c => bool_decide (cue_lap c = L /\ cue_idx c = i
                                              /\ cue_stage c = st)) l)).
  { apply List.filter_In. split; [exact Hin |].
    apply bool_decide_eq_true_2. tauto. }
  destruct (List.filter _ l); [destruct Hf | discriminate H].
Qed.

Lemma cached_no_rollover s p idx last :
  _last_dist_to_event (begin_tick s p) !! idx = Some last ->
  rollover s p = false.
Proof.
  intros H. destruct (rollover s p) eqn:E; [| reflexivity].
  destruct (begin_tick_new_lap s p E) as (_ & Hd & _).
  rewrite Hd, lookup_empty in H. discriminate.
Qed.

(** C3 (as amended). On a tick that is not a lap rollover, so that the
    last-distance cache still holds, when the tick reads it, the distance
    recorded for a tracked event: if that distance is at most the near
    threshold and the tick computes a strictly larger distance (a skip-over
    past the event), the ordinary call of [_handle_stage] fires nothing for
    the event and the forced call fires the final stage unless its flag is
    already set; either way the flag is set after the tick.  Over the whole
    run the final stage of that event is fired exactly once in that lap, and
    if no final cue of the ordinary path was fired for it earlier in the lap,
    that one cue is the forced one. *)
Theorem C3_forced_final_stage (w : bool) (pre post : list Args) (a : Args)
    (idx : nat) (event : RefEvent) (p last d : Q) :
  let s := fst (run w init pre) in
  let lap := _lap_id s in
  let forced :=
    {| cue_lap := lap; cue_idx := idx; cue_stage := StageC; cue_forced := true |} in
  let final_cue c :=
    cue_lap c = lap /\ cue_idx c = idx /\ cue_stage c = StageC in
  lap_pct a = Some p ->
  nth_error (events a) idx = Some event ->
  tick_distance a p event = Some d ->
  _last_dist_to_event (begin_tick s p) !! idx = Some last ->
  last <= snd (tick_thresholds a) ->
  last < d ->
  cues_of (snd (update w s a)) idx
  = (if stage_flag s idx StageC then [] else [forced])
  /\ stage_flag (fst (update w s a)) idx StageC = true
  /\ fired (snd (run w init (pre ++ a :: post))) lap idx StageC = 1%nat
  /\ ((forall c, In c (snd (run w init pre)) -> final_cue c -> cue_forced c = true) ->
      forall c, In c (snd (run w init (pre ++ a :: post))) -> final_cue c ->
                cue_forced c = true).
Proof.
  intros s lap forced final_cue Hp Hev Hdist Hlast HB Hd.
  pose proof (cached_no_rollover s p idx last Hlast) as Hroll.
  destruct (begin_tick_same s p Hroll) as (Hst & Hld & Hlap).
  destruct (fold_tick_skip w a p idx event d last (Py.enumerate (events a))
              Hdist HB Hd (begin_tick s p) [] (enumerate_NoDup _)
              (enumerate_In _ _ _ Hev) Hlast) as (cues & Ecues & Hcues & Hflag).
  rewrite <- (update_fold w s a p Hp) in Ecues, Hflag. cbn [app] in Ecues.
  assert (Hflag0 : stage_flag (begin_tick s p) idx StageC = stage_flag s idx StageC).
  { unfold stage_flag. now rewrite Hst. }
  rewrite Hflag0, Hlap in Hcues. rewrite <- Ecues in Hcues.
  assert (Hcons : consistent (fst (update w s a))
                    (snd (run w init pre) ++ snd (update w s a))).
  { apply consistent_update.
    apply (consistent_run w pre init [] consistent_init). }
  destruct Hcons as [Hcur _]. specialize (Hcur idx StageC).
  rewrite Hflag in Hcur.
  destruct (update_same_lap w s a) as (Hl & _).
  { intros p' Hp'. rewrite Hp in Hp'. injection Hp' as <-. exact Hroll. }
  rewrite Hl in Hcur. fold lap in Hcur.
  destruct (run_fired w (pre ++ a :: post) init) as (_ & Hle & _).
  specialize (Hle lap idx StageC).
  rewrite run_app, run_cons in *. cbn [fst snd] in *. fold s in Hle |- *.
  rewrite app_assoc, fired_app in Hle. rewrite app_assoc, fired_app.
  split; [exact Hcues |]. split; [exact Hflag |]. split; [lia |].
  intros Hpre c Hin Hfinal.
  apply in_app_or in Hin as [Hin | Hin]; [apply in_app_or in Hin as [Hin | Hin] |].
  - now apply Hpre.
  - destruct Hfinal as (_ & Hi & _).
    assert (Hc : In c (cues_of (snd (update w s a)) idx)).
    { unfold cues_of. apply List.filter_In. split; [exact Hin |].
      now apply bool_decide_eq_true_2. }
    rewrite Hcues in Hc. destruct (stage_flag s idx StageC); [destruct Hc |].
    destruct Hc as [<- | []]. reflexivity.
  - exfalso. destruct Hfinal as (HL & Hi & Hs).
    eapply (fired_zero_absent _ lap idx StageC c); [| exact Hin | assumption ..].
    lia.
Qed.

Lemma C3_forced_final_stage_witness :
  fired (snd (run true init
                (map lap_tick [0.4; 0.481; 0.492; 0.4995]
                 ++ lap_tick 0.5005 :: [lap_tick 0.9])))
    0 0 StageC = 1%nat.
Proof.
  refine (proj1 (proj2 (proj2
            (C3_forced_final_stage true (map lap_tick [0.4; 0.481; 0.492; 0.4995])
               [lap_tick 0.9] (lap_tick 0.5005) 0
               {| kind := "brake"; ev_lap_pct := 0.5; dist_m := Some 2500 |}
               0.5005 _ _ eq_refl eq_refl _ _ _ _)))).
  - vm_compute. reflexivity.
  - vm_compute. reflexivity.
  - vm_compute. discriminate.
  - vm_compute. reflexivity.
Defined.

(** C3, the claim as stated fails.  The event lies 2 m before the
    start/finish line.  After the tick at lap fraction 0.9994 the recorded
    distance is 1 m, below the near threshold of 50 m; the next tick, at
    0.0002, computes 4997 m, which is larger.  That tick is a lap rollover:
    the cache is cleared before it is read, the forced call is not made, and
    no cue is fired; the final stage of the event fires neither in that lap
    nor on the following ticks. *)
Lemma C3_forced_final_stage_counterexample :
  let pre := map line_tick [0.97; 0.985; 0.995; 0.9994] in
  let s := fst (run true init pre) in
  let a := line_tick 0.0002 in
  (exists last d,
      _last_dist_to_event s !! 0%nat = Some last
      /\ tick_distance a 0.0002 line_event = Some d
      /\ last == 1
      /\ d == 4997
      /\ last <= snd (tick_thresholds a)
      /\ last < d)
  /\ snd (update true s a) = []
  /\ snd (run true init (pre ++ a :: map line_tick [0.1; 0.5]))
     = [ {| cue_lap := 0; cue_idx := 0; cue_stage := StageA;
            cue_forced := false |};
         {| cue_lap := 0; cue_idx := 0; cue_stage := StageB;
            cue_forced := false |} ].
Proof.
  cbv zeta. split; [| split].
  - eexists _, _.
    split; [vm_compute; reflexivity |]. split; [vm_compute; reflexivity |].
    repeat split; vm_compute; congruence.
  - vm_compute. reflexivity.
  - vm_compute. reflexivity.
Qed.

(** C4. Over any sequence of scheduler ticks, from any state, at most one cue
    is fired for each lap, event and stage.  On a tick without lap rollover a
    stage flag that is set stays set.  A tick with lap rollover (its lap
    fraction is below the previous one by more than 0.5) increases the lap
    counter by one and forgets every earlier flag: the flags set after it are
    exactly the stages fired on that tick.  In the run [two_laps] all
    three stages of the event fire in the first lap and again in the
    second. *)
Theorem C4_stage_once_per_lap (w : bool) :
  (forall s ticks lap idx stage,
      (fired (snd (run w s ticks)) lap idx stage <= 1)%nat)
  /\ (forall s a idx stage,
        (forall p, lap_pct a = Some p -> rollover s p = false) ->
        stage_flag s idx stage = true ->
        stage_flag (fst (update w s a)) idx stage = true)
  /\ (forall s a p last,
        lap_pct a = Some p ->
        _last_lap_pct s = Some last ->
        p < last - 0.5 ->
        _lap_id (fst (update w s a)) = (_lap_id s + 1)%Z
        /\ forall idx stage,
             stage_flag (fst (update w s a)) idx stage = true
             <-> fired (snd (update w s a)) (_lap_id s + 1) idx stage = 1%nat)
  /\ (forall stage,
        fired (snd (run w init two_laps)) 0 0 stage = 1%nat
        /\ fired (snd (run w init two_laps)) 1 0 stage = 1%nat).
Proof.
  split; [| split; [| split]].
  - intros s ticks lap idx stage.
    destruct (run_fired w ticks s) as (_ & H & _). apply H.
  - intros s a idx stage Hno Hflag.
    destruct (update_same_lap w s a Hno) as (_ & Hm & _). now apply Hm.
  - intros s a p last Hp Hlast Hwrap.
    assert (Hr : rollover s p = true).
    { unfold rollover. rewrite Hlast. now apply ltb_lt. }
    destruct (update_new_lap w s a p Hp Hr) as (Hl & Hf).
    split; [exact Hl |]. intros idx stage. rewrite Hf.
    rewrite bool_decide_eq_true_2 by reflexivity. cbn.
    destruct (stage_flag (fst (update w s a)) idx stage); split; congruence.
  - intros stage. destruct w, stage; vm_compute; split; reflexivity.
Qed.

Lemma C4_stage_once_per_lap_witness :
  stage_flag
    (fst (update true (fst (run true init (map lap_tick [0.4; 0.481])))
            (lap_tick 0.492)))
    0 StageA = true.
Proof.
  apply (proj1 (proj2 (C4_stage_once_per_lap true))).
  - intros p [= <-]. vm_compute. reflexivity.
  - vm_compute. reflexivity.
Defined.

Lemma trigger_last_lap_pct w s idx ev q f st :
  _last_lap_pct (fst (trigger w s idx ev q f st)) = _last_lap_pct s.
Proof.
  unfold trigger. destruct (stage_flag s idx st); [reflexivity |]. cbn [fst].
  destruct (play_pattern_frame w (set_stage_flag s idx st)
              (_pattern_for (kind ev) st) q st) as (_ & _ & -> & _).
  unfold set_stage_flag. now destruct (_stage_state s !! idx).
Qed.

Lemma maybe_trigger_last_lap_pct w s idx ev q f st (c : bool) :
  _last_lap_pct (fst (if c then trigger w s idx ev q f st else (s, [])))
  = _last_lap_pct s.
Proof. destruct c; [apply trigger_last_lap_pct | reflexivity]. Qed.

Lemma setdefault_last_lap_pct s idx :
  _last_lap_pct (setdefault s idx) = _last_lap_pct s.
Proof. unfold setdefault. now destruct (_stage_state s !! idx). Qed.

Lemma handle_stage_last_lap_pct w s idx ev d last a b off q pm f :
  _last_lap_pct (fst (_handle_stage w s idx ev d last a b off q pm f))
  = _last_lap_pct s.
Proof.
  unfold _handle_stage.
  rewrite <- (setdefault_last_lap_pct s idx).
  set (s0 := setdefault s idx). clearbody s0.
  destruct f; [apply trigger_last_lap_pct |].
  match goal with
  | |- context [if ?c then trigger w s0 idx ev q false StageA else _] =>
      pose proof (maybe_trigger_last_lap_pct w s0 idx ev q false StageA c) as H1;
      destruct (if c then trigger w s0 idx ev q false StageA else (s0, []))
        as [s1 c1]
  end.
  match goal with
  | |- context [if ?c then trigger w s1 idx ev q false StageB else _] =>
      pose proof (maybe_trigger_last_lap_pct w s1 idx ev q false StageB c) as H2;
      destruct (if c then trigger w s1 idx ev q false StageB else (s1, []))
        as [s2 c2]
  end.
  match goal with
  | |- context [if ?c then trigger w s2 idx ev q false StageC else _] =>
      pose proof (maybe_trigger_last_lap_pct w s2 idx ev q false StageC c) as H3;
      destruct (if c then trigger w s2 idx ev q false StageC else (s2, []))
        as [s3 c3]
  end.
  cbn [fst] in *. congruence.
Qed.

Lemma stage_event_last_lap_pct w a pm A B s idx ev d :
  _last_lap_pct (fst (stage_event w a pm A B s idx ev d)) = _last_lap_pct s.
Proof.
  unfold stage_event.
  set (last := _last_dist_to_event s !! idx).
  pose proof (handle_stage_last_lap_pct w s idx ev d last A B
                (final_cue_offset_m a) (quiet_mode a) pm false) as H1.
  destruct (_handle_stage w s idx ev d last A B (final_cue_offset_m a)
              (quiet_mode a) pm false) as [s1 c1].
  cbn [fst] in H1. rewrite <- H1.
  destruct last as [l |]; [| reflexivity].
  destruct (Py.leb l B && Py.ltb l d); [| reflexivity].
  pose proof (handle_stage_last_lap_pct w s1 idx ev 0.0 (Some l) A B
                (final_cue_offset_m a) (quiet_mode a) pm true) as H2.
  destruct (_handle_stage w s1 idx ev 0.0 (Some l) A B (final_cue_offset_m a)
              (quiet_mode a) pm true) as [s2 c2].
  exact H2.
Qed.

Lemma fold_tick_last_lap_pct w a p (l : list (nat * RefEvent)) :
  forall acc,
    _last_lap_pct (fst (fold_left (tick_body w a p) l acc))
    = _last_lap_pct (fst acc).
Proof.
  induction l as [| ie l IH]; intros acc; [reflexivity |].
  cbn [fold_left]. rewrite IH. unfold tick_body.
  destruct (tick_distance a p (snd ie)); [| reflexivity].
  cbn [fst]. apply stage_event_last_lap_pct.
Qed.

(** After a tick the scheduler remembers the lap fraction of that tick. *)
Lemma update_last_lap_pct w s a p :
  lap_pct a = Some p -> _last_lap_pct (fst (update w s a)) = Some p.
Proof.
  intros Hp. rewrite (update_fold w s a p Hp), fold_tick_last_lap_pct.
  cbn [fst]. unfold begin_tick. now destruct (rollover s p).
Qed.

(** After a tick the unwrapper remembers the lap fraction of that tick and
    holds a distance. *)
Lemma unwrapped_after_tick (app : NishizumiApp.t) (p len : Q) :
  0 < len ->
  NishizumiApp.last_live_lap_pct
    (fst (NishizumiApp._update_live_unwrapped app p len)) = Some p
  /\ exists u,
       NishizumiApp.live_unwrapped_m
         (fst (NishizumiApp._update_live_unwrapped app p len)) = Some u
       /\ snd (NishizumiApp._update_live_unwrapped app p len) = Some u.
Proof.
  intros Hlen. unfold NishizumiApp._update_live_unwrapped.
  assert (E : Py.leb len 0 = false) by (apply leb_gt; lra).
  rewrite E.
  destruct (NishizumiApp.last_live_lap_pct app) as [last |],
           (NishizumiApp.live_unwrapped_m app) as [u |];
    cbn; split; try reflexivity; eexists; split; reflexivity.
Qed.

(** C6. For lap fractions in [0, 1] and a positive track length, from any
    state of the scheduler and of the unwrapper: a tick whose lap fraction is
    below that of the previous tick by more than 0.5 increases the lap counter
    of the scheduler by exactly one, and the unwrapped distance returned on
    that tick is not below the one returned on the previous tick. *)
Theorem C6_wrap_counts_one_lap (w : bool) (s : AudioCues.t)
    (app : NishizumiApp.t) (a_prev a : Args) (prev p len : Q) :
  lap_pct a_prev = Some prev ->
  lap_pct a = Some p ->
  0 <= prev <= 1 ->
  0 <= p <= 1 ->
  0 < len ->
  p < prev - 0.5 ->
  let s1 := fst (update w s a_prev) in
  let app1 := fst (NishizumiApp._update_live_unwrapped app prev len) in
  _lap_id (fst (update w s1 a)) = (_lap_id s1 + 1)%Z
  /\ exists u u',
       snd (NishizumiApp._update_live_unwrapped app prev len) = Some u
       /\ snd (NishizumiApp._update_live_unwrapped app1 p len) = Some u'
       /\ u <= u'.
Proof.
  intros Hprev Hp Hb1 Hb2 Hlen Hwrap s1 app1. split.
  - assert (Hr : rollover s1 p = true).
    { unfold rollover, s1. rewrite (update_last_lap_pct w s a_prev prev Hprev).
      now apply ltb_lt. }
    now destruct (update_new_lap w s1 a p Hp Hr).
  - destruct (unwrapped_after_tick app prev len Hlen) as (Hl & u & Hu & Hout).
    fold app1 in Hl, Hu.
    exists u. eexists. split; [exact Hout |].
    rewrite (unwrapped_step len Hlen app1 prev u p Hl Hu). cbv zeta.
    assert (E : Py.ltb (p - prev) (-0.5) = true) by (apply ltb_lt; lra).
    rewrite E. cbn [snd]. split; [reflexivity | nra].
Qed.

Lemma C6_wrap_counts_one_lap_witness :
  let s1 := fst (update true init (lap_tick 0.9)) in
  _lap_id (fst (update true s1 (lap_tick 0.1))) = (_lap_id s1 + 1)%Z.
Proof.
  refine (proj1 (C6_wrap_counts_one_lap true init NishizumiApp.unset
                   (lap_tick 0.9) (lap_tick 0.1) 0.9 0.1 5000
                   eq_refl eq_refl _ _ _ _)).
  - split; vm_compute; discriminate.
  - split; vm_compute; discriminate.
  - reflexivity.
  - reflexivity.
Defined.

Lemma C9_approach_distances_witness :
  snd (_approach_distances (Some 10) 1 2)
  == fst (_approach_distances (Some 10) 1 2) * 0.5
  /\ 0.5 <= snd (_approach_distances (Some 10) 1 2).
Proof.
  refine (proj2 (proj2 (proj2 (proj2 (proj2 (proj2
            (C9_approach_distances (Some 10) 1 2)))))) _).
  vm_compute. discriminate.
Defined.

(* ===================================================================== *)
(** ** Clamping, rounding and the float remainder *)
(* ===================================================================== *)

Lemma min_cases (a b : Q) :
  (b < a /\ Py.min a b = b) \/ (a <= b /\ Py.min a b = a).
Proof.
  unfold Py.min. destruct (Py.ltb b a) eqn:E; py_bool; auto.
Qed.

Lemma clamp_cases (value low high : Q) :
  low <= high ->
  (value <= low /\ clamp value low high == low)
  \/ (low <= value <= high /\ clamp value low high == value)
  \/ (high <= value /\ clamp value low high == high).
Proof.
  intros H. unfold clamp.
  destruct (min_cases high value) as [[H1 ->] | [H1 ->]];
    [destruct (max_cases low value) as [[H2 ->] | [H2 ->]]
    | destruct (max_cases low high) as [[H2 ->] | [H2 ->]]].
  - right. left. split; [lra | reflexivity].
  - left. split; [lra | reflexivity].
  - right. right. split; [lra | reflexivity].
  - right. right. split; [lra | lra].
Qed.

Lemma Qfloor_unique (y : Q) (k : Z) :
  inject_Z k <= y -> y < inject_Z k + 1 -> Qfloor y = k.
Proof.
  intros H1 H2.
  pose proof (Qfloor_le y) as F1. pose proof (Qlt_floor y) as F2.
  rewrite inject_Z_plus in F2. change (inject_Z 1) with 1 in F2.
  assert (A : inject_Z (Qfloor y) < inject_Z (k + 1)).
  { rewrite inject_Z_plus. change (inject_Z 1) with 1. lra. }
  assert (B : inject_Z k < inject_Z (Qfloor y + 1)).
  { rewrite inject_Z_plus. change (inject_Z 1) with 1. lra. }
  rewrite <- Zlt_Qlt in A, B. lia.
Qed.

Lemma round_inject_Z (x : Q) (z : Z) : x == inject_Z z -> Py.round x = z.
Proof.
  intros H. unfold Py.round.
  assert (F : Qfloor x = z) by (apply Qfloor_unique; lra).
  rewrite F.
  assert (E : Py.ltb (x - inject_Z z) (1 # 2) = true) by (apply ltb_lt; lra).
  now rewrite E.
Qed.

Lemma round_near (x : Q) :
  inject_Z (Py.round x) - (1 # 2) <= x <= inject_Z (Py.round x) + (1 # 2).
Proof.
  unfold Py.round.
  pose proof (Qfloor_le x) as F1. pose proof (Qlt_floor x) as F2.
  rewrite inject_Z_plus in F2. change (inject_Z 1) with 1 in F2.
  destruct (Py.ltb (x - inject_Z (Qfloor x)) (1 # 2)) eqn:E1; py_bool; [lra |].
  destruct (Py.ltb (1 # 2) (x - inject_Z (Qfloor x))) eqn:E2; py_bool.
  - rewrite inject_Z_plus. change (inject_Z 1) with 1. lra.
  - destruct (Z.even (Qfloor x)); [lra |].
    rewrite inject_Z_plus. change (inject_Z 1) with 1. lra.
Qed.

Lemma round_between (x : Q) (a b : Z) :
  inject_Z a <= x <= inject_Z b -> (a <= Py.round x <= b)%Z.
Proof.
  intros [Ha Hb]. pose proof (round_near x) as [H1 H2].
  assert (A : inject_Z a < inject_Z (Py.round x + 1)).
  { rewrite inject_Z_plus. change (inject_Z 1) with 1. lra. }
  assert (B : inject_Z (Py.round x) < inject_Z (b + 1)).
  { rewrite inject_Z_plus. change (inject_Z 1) with 1. lra. }
  rewrite <- Zlt_Qlt in A, B. lia.
Qed.

Lemma fmod_shift (x y : Q) (k : Z) :
  0 < y -> inject_Z k * y <= x -> x < (inject_Z k + 1) * y ->
  Py.fmod x y == x - inject_Z k * y.
Proof.
  intros Hy H1 H2. unfold Py.fmod.
  assert (F : Qfloor (x / y) = k).
  { apply Qfloor_unique.
    - apply Qle_shift_div_l; [exact Hy | exact H1].
    - apply Qlt_shift_div_r; [exact Hy | exact H2]. }
  rewrite F. lra.
Qed.

Lemma fmod_range (x y : Q) : 0 < y -> 0 <= Py.fmod x y < y.
Proof.
  intros Hy. unfold Py.fmod.
  pose proof (Qfloor_le (x / y)) as F1. pose proof (Qlt_floor (x / y)) as F2.
  rewrite inject_Z_plus in F2. change (inject_Z 1) with 1 in F2.
  set (k := inject_Z (Qfloor (x / y))) in *. clearbody k.
  assert (E : x == (x / y) * y) by (field; lra).
  split.
  - assert (k * y <= (x / y) * y) by (apply Qmult_le_compat_r; lra). lra.
  - assert ((x / y) * y < (k + 1) * y) by (apply Qmult_lt_compat_r; lra). lra.
Qed.

(** X1. [clamp] with bounds in order returns a value within the bounds: the
    value itself when it lies within them, the lower bound when it is below
    and the upper bound when it is above. *)
Theorem X1_clamp_within_bounds (value low high : Q) :
  low <= high ->
  low <= clamp value low high <= high
  /\ (low <= value <= high -> clamp value low high == value)
  /\ (value <= low -> clamp value low high == low)
  /\ (high <= value -> clamp value low high == high).
Proof.
  intros H.
  destruct (clamp_cases value low high H) as [[H1 E] | [[H1 E] | [H1 E]]];
    rewrite E; repeat split; intros; lra.
Qed.

Lemma X1_clamp_within_bounds_witness :
  120 <= clamp (70 * 10) 120 320 <= 320.
Proof.
  apply (X1_clamp_within_bounds (70 * 10) 120 320). lra.
Defined.

(* ===================================================================== *)
(** ** The interpolated query: range of the result, and the gear *)
(* ===================================================================== *)

Lemma interpolate_between (d0 d1 r : Q) :
  0 <= r <= 1 ->
  Qmin d0 d1 <= d0 + (d1 - d0) * r <= Qmax d0 d1.
Proof.
  intros [H0 H1].
  destruct (Qlt_le_dec d1 d0) as [H | H].
  - rewrite (Q.min_r d0 d1), (Q.max_l d0 d1) by lra.
    assert (0 <= (d0 - d1) * r) by (apply Qmult_le_0_compat; lra).
    assert (0 <= (d0 - d1) * (1 - r)) by (apply Qmult_le_0_compat; lra).
    split; lra.
  - rewrite (Q.min_l d0 d1), (Q.max_r d0 d1) by lra.
    assert (0 <= (d1 - d0) * r) by (apply Qmult_le_0_compat; lra).
    assert (0 <= (d1 - d0) * (1 - r)) by (apply Qmult_le_0_compat; lra).
    split; lra.
Qed.

(** The result of [ref_at_pct] lies between the channel values of the two
    samples that bracket the query. *)
Lemma ref_at_pct_neighbours (self : ReferenceLap.t) (data : list Q) (pct : Q) :
  length data = length (ReferenceLap.lap_pct self) ->
  ReferenceLap.lap_pct self <> [] ->
  let lap := ReferenceLap.lap_pct self in
  let idx := ReferenceLap.bisect_left lap pct in
  let i0 := (idx - 1)%nat in
  let i1 := Nat.min idx (length lap - 1) in
  exists v,
    ReferenceLap.ref_at_pct self data pct = Ok v
    /\ Qmin (nth i0 data 0) (nth i1 data 0) <= v
       <= Qmax (nth i0 data 0) (nth i1 data 0).
Proof.
  intros Hlen Hne. cbv zeta.
  assert (Hpos : (0 < length (ReferenceLap.lap_pct self))%nat).
  { destruct (ReferenceLap.lap_pct self); [congruence | cbn; lia]. }
  destruct (bisect_left_spec (ReferenceLap.lap_pct self) pct) as [Hr _].
  cbv zeta in Hr.
  destruct (Nat.eq_dec (ReferenceLap.bisect_left (ReferenceLap.lap_pct self) pct) 0%nat)
    as [H0 | H0];
    [| destruct (Nat.eq_dec
                   (ReferenceLap.bisect_left (ReferenceLap.lap_pct self) pct)
                   (length (ReferenceLap.lap_pct self))) as [Hn | Hn]].
  - pose proof (ref_at_pct_first self data pct Hlen Hne H0) as H.
    apply ref_at_pct_of_exit in H. rewrite H0.
    eexists. split; [exact H |].
    replace (Nat.min 0 (length (ReferenceLap.lap_pct self) - 1)) with 0%nat by lia.
    cbn [Nat.sub]. rewrite Q.min_id, Q.max_id. lra.
  - pose proof (ref_at_pct_last self data pct Hlen Hne Hn) as H.
    apply ref_at_pct_of_exit in H. rewrite Hn.
    eexists. split; [exact H |].
    replace (Nat.min (length (ReferenceLap.lap_pct self))
               (length (ReferenceLap.lap_pct self) - 1))
      with (length (ReferenceLap.lap_pct self) - 1)%nat by lia.
    rewrite Hlen, Q.min_id, Q.max_id. lra.
  - destruct (ref_at_pct_interior self data pct Hlen) as [Hb H]; [lia |].
    apply ref_at_pct_of_exit in H.
    eexists. split; [exact H |].
    replace (Nat.min (ReferenceLap.bisect_left (ReferenceLap.lap_pct self) pct)
               (length (ReferenceLap.lap_pct self) - 1))
      with (ReferenceLap.bisect_left (ReferenceLap.lap_pct self) pct) by lia.
    apply interpolate_between.
    set (before := nth _ (ReferenceLap.lap_pct self) 0) in *.
    set (after := nth (ReferenceLap.bisect_left _ pct) (ReferenceLap.lap_pct self) 0) in *.
    split.
    + apply Qle_shift_div_l; lra.
    + apply Qle_shift_div_r; lra.
Qed.

(** A query at a stored fraction, on a series that never decreases, finds
    the first sample with that fraction. *)
Lemma ref_at_pct_hit (self : ReferenceLap.t) (data : list Q) (p : Q) (k : nat) :
  length data = length (ReferenceLap.lap_pct self) ->
  Sorted Qle (ReferenceLap.lap_pct self) ->
  (k < length (ReferenceLap.lap_pct self))%nat ->
  nth k (ReferenceLap.lap_pct self) 0 == p ->
  (forall j, (j < k)%nat -> nth j (ReferenceLap.lap_pct self) 0 < p) ->
  exists v, ReferenceLap.ref_at_pct self data p = Ok v /\ v == nth k data 0.
Proof.
  intros Hlen Hs Hk Hp Hfirst.
  assert (Hne : ReferenceLap.lap_pct self <> []).
  { intros E. rewrite E in Hk. cbn in Hk. lia. }
  pose proof (bisect_left_first_hit _ p k Hs Hk Hp Hfirst) as Hidx.
  destruct k as [| k].
  - eexists. split; [| reflexivity].
    eapply ref_at_pct_of_exit. now apply ref_at_pct_first.
  - destruct (ref_at_pct_interior self data p Hlen) as [[Hb _] H];
      [rewrite Hidx; lia |].
    rewrite Hidx in H, Hb. replace (S k - 1)%nat with k in * by lia.
    eexists. split; [eapply ref_at_pct_of_exit; exact H |].
    rewrite Hp. field. lra.
Qed.

(** X2. With a channel as long as the lap, the interpolated query returns a
    value that lies between two stored values of the channel, those of the
    samples that bracket the query: it never overshoots or undershoots the
    data. *)
Theorem X2_ref_at_pct_within_data (self : ReferenceLap.t) (data : list Q)
    (pct : Q) :
  length data = length (ReferenceLap.lap_pct self) ->
  ReferenceLap.lap_pct self <> [] ->
  exists v lo hi,
    ReferenceLap.ref_at_pct self data pct = Ok v
    /\ In lo data /\ In hi data /\ lo <= v <= hi.
Proof.
  intros Hlen Hne.
  destruct (ref_at_pct_neighbours self data pct Hlen Hne) as (v & Hv & Hb).
  cbv zeta in Hb.
  assert (Hpos : (0 < length (ReferenceLap.lap_pct self))%nat).
  { destruct (ReferenceLap.lap_pct self); [congruence | cbn; lia]. }
  destruct (bisect_left_spec (ReferenceLap.lap_pct self) pct) as [Hr _].
  cbv zeta in Hr.
  set (i0 := (ReferenceLap.bisect_left (ReferenceLap.lap_pct self) pct - 1)%nat) in *.
  set (i1 := Nat.min (ReferenceLap.bisect_left (ReferenceLap.lap_pct self) pct)
               (length (ReferenceLap.lap_pct self) - 1)) in *.
  assert (In0 : In (nth i0 data 0) data) by (apply nth_In; lia).
  assert (In1 : In (nth i1 data 0) data) by (apply nth_In; lia).
  exists v.
  destruct (Qlt_le_dec (nth i1 data 0) (nth i0 data 0)) as [H | H].
  - rewrite Q.min_r, Q.max_l in Hb by lra.
    exists (nth i1 data 0), (nth i0 data 0). auto.
  - rewrite Q.min_l, Q.max_r in Hb by lra.
    exists (nth i0 data 0), (nth i1 data 0). auto.
Qed.

Lemma X2_ref_at_pct_within_data_witness :
  exists v lo hi,
    ReferenceLap.ref_at_pct
      (ReferenceLap.mk [0.1; 0.5; 0.9] [] [] 0.1 0.2 0.7 [] [])
      [40; 60; 30] 0.6 = Ok v
    /\ In lo [40; 60; 30] /\ In hi [40; 60; 30] /\ lo <= v <= hi.
Proof.
  apply (X2_ref_at_pct_within_data
           (ReferenceLap.mk [0.1; 0.5; 0.9] [] [] 0.1 0.2 0.7 [] [])
           [40; 60; 30] 0.6); [reflexivity | discriminate].
Defined.

Lemma nth_map_inject_Z (l : list Z) (i : nat) :
  nth i (map inject_Z l) 0 = inject_Z (nth i l 0%Z).
Proof. exact (map_nth inject_Z l 0%Z i). Qed.

(** X3. With a gear channel as long as the lap, [ref_gear_at_pct] returns a
    gear between the gears of the two samples that bracket the query, so
    where both have the same gear it returns that gear; and on a lap whose
    fractions never decrease, a query at a stored fraction returns the gear
    of the first sample with that fraction. *)
Theorem X3_ref_gear_at_pct (self : ReferenceLap.Lap) (pct : Q) :
  let lap := ReferenceLap.lap_pct (ReferenceLap.core self) in
  let gear := ReferenceLap.gear self in
  length gear = length lap ->
  lap <> [] ->
  let idx := ReferenceLap.bisect_left lap pct in
  let g0 := nth (idx - 1) gear 0%Z in
  let g1 := nth (Nat.min idx (length lap - 1)) gear 0%Z in
  (exists g,
      ReferenceLap.ref_gear_at_pct self pct = Ok g
      /\ (Z.min g0 g1 <= g <= Z.max g0 g1)%Z)
  /\ (Sorted Qle lap ->
      forall k,
        (k < length lap)%nat ->
        nth k lap 0 == pct ->
        (forall j, (j < k)%nat -> nth j lap 0 < pct) ->
        ReferenceLap.ref_gear_at_pct self pct = Ok (nth k gear 0%Z)).
Proof.
  cbv zeta. intros Hlen Hne.
  assert (Hlen' : length (map inject_Z (ReferenceLap.gear self))
                  = length (ReferenceLap.lap_pct (ReferenceLap.core self)))
    by now rewrite length_map.
  split.
  - destruct (ref_at_pct_neighbours (ReferenceLap.core self)
                (map inject_Z (ReferenceLap.gear self)) pct Hlen' Hne)
      as (v & Hv & Hb).
    cbv zeta in Hb. rewrite !nth_map_inject_Z in Hb.
    unfold ReferenceLap.ref_gear_at_pct. rewrite Hv. cbn [Py.bind].
    eexists. split; [reflexivity |].
    set (g0 := nth _ (ReferenceLap.gear self) 0%Z) in *.
    set (g1 := nth (Nat.min _ _) (ReferenceLap.gear self) 0%Z) in *.
    clearbody g0 g1.
    destruct (Z.le_ge_cases g0 g1) as [H | H].
    + rewrite Z.min_l, Z.max_r by lia.
      rewrite Q.min_l, Q.max_r in Hb by now rewrite <- Zle_Qle.
      now apply round_between.
    + rewrite Z.min_r, Z.max_l by lia.
      rewrite Q.min_r, Q.max_l in Hb by now rewrite <- Zle_Qle.
      now apply round_between.
  - intros Hs k Hk Hp Hfirst.
    destruct (ref_at_pct_hit (ReferenceLap.core self)
                (map inject_Z (ReferenceLap.gear self)) pct k Hlen' Hs Hk Hp Hfirst)
      as (v & Hv & Ev).
    unfold ReferenceLap.ref_gear_at_pct. rewrite Hv. cbn [Py.bind].
    rewrite nth_map_inject_Z in Ev. now rewrite (round_inject_Z v _ Ev).
Qed.

Lemma X3_ref_gear_at_pct_witness :
  exists g,
    ReferenceLap.ref_gear_at_pct
      (ReferenceLap.mkLap
         (ReferenceLap.mk [0.1; 0.5; 0.9] [] [] 0.1 0.2 0.7 [] [])
         [] [3; 4; 2]%Z [] None)
      0.3 = Ok g
    /\ (3 <= g <= 4)%Z.
Proof.
  exact (proj1 (X3_ref_gear_at_pct
                  (ReferenceLap.mkLap
                     (ReferenceLap.mk [0.1; 0.5; 0.9] [] [] 0.1 0.2 0.7 [] [])
                     [] [3; 4; 2]%Z [] None)
                  0.3 eq_refl ltac:(discriminate))).
Defined.

(* ===================================================================== *)
(** ** The distance to the next brake point *)
(* ===================================================================== *)

Lemma truthy_some (v : Q) : Py.truthy (Some v) = true <-> ~ v == 0.
Proof.
  unfold Py.truthy. rewrite negb_true_iff. apply eqb_neq.
Qed.

Lemma fmod_range_neg (x y : Q) : y < 0 -> y < Py.fmod x y <= 0.
Proof.
  intros Hy. unfold Py.fmod.
  pose proof (Qfloor_le (x / y)) as F1. pose proof (Qlt_floor (x / y)) as F2.
  rewrite inject_Z_plus in F2. change (inject_Z 1) with 1 in F2.
  set (k := inject_Z (Qfloor (x / y))) in *. clearbody k.
  assert (E : x == (x / y) * (- - y)) by (field; lra).
  assert (A : 0 <= (x / y - k) * - y) by (apply Qmult_le_0_compat; lra).
  assert (B : 0 < (k + 1 - x / y) * - y) by (apply Qmult_lt_0_compat; lra).
  split; lra.
Qed.

(** X4. [_next_brake_distance] never raises.  It returns [None] exactly when
    there is no reference lap, the reference has no brake points, or the
    track length is missing or zero; otherwise it returns a distance that is
    at least 0 and below the track length when that is positive, and above
    the track length and at most 0 when that is negative. *)
Theorem X4_next_brake_distance_result (reference : option ReferenceLap.t)
    (lap_pct : Q) (track_len_m : option Q) :
  exists r,
    NishizumiApp._next_brake_distance reference lap_pct track_len_m = Ok r
    /\ (r = None
        <-> (match reference with
             | Some ref => ReferenceLap.brake_points ref = []
             | None => True
             end
             \/ match track_len_m with
                | Some len => len == 0
                | None => True
                end))
    /\ (forall d len,
          r = Some d -> track_len_m = Some len -> 0 < len -> 0 <= d < len)
    /\ (forall d len,
          r = Some d -> track_len_m = Some len -> len < 0 -> len < d <= 0).
Proof.
  unfold NishizumiApp._next_brake_distance.
  destruct reference as [ref |].
  2:{ exists None. split; [reflexivity |].
      split; [| split; discriminate]. tauto. }
  destruct (ReferenceLap.brake_points ref) as [| b bps] eqn:Ebp.
  { exists None. split; [reflexivity |].
    split; [| split; discriminate]. tauto. }
  destruct track_len_m as [len |].
  2:{ exists None. split; [reflexivity |].
      split; [| split; discriminate]. tauto. }
  destruct (Py.truthy (Some len)) eqn:Et; cbn [negb].
  2:{ exists None. split; [reflexivity |]. split; [| split; discriminate].
      split; [| reflexivity]. intros _. right.
      unfold Py.truthy in Et. apply negb_false_iff in Et. now apply eqb_eq. }
  apply truthy_some in Et.
  set (dist_list := map (fun p => p * len) (b :: bps)).
  set (idx := ReferenceLap.bisect_left dist_list (lap_pct * len)).
  assert (Hn : (0 < length dist_list)%nat) by (cbn; lia).
  assert (Hnext : exists next,
             (if (idx <? length dist_list)%nat
              then Py.index dist_list idx else Py.index dist_list 0) = Ok next).
  { destruct (idx <? length dist_list)%nat eqn:E.
    - apply Nat.ltb_lt in E. eexists. now apply (index_nth _ _ 0).
    - eexists. now apply (index_nth _ _ 0). }
  destruct Hnext as [next ->]. cbn [Py.bind].
  eexists. split; [reflexivity |]. split; [| split].
  - split; [discriminate |]. intros [H | H]; [discriminate | contradiction].
  - intros d len' [= <-] [= <-] Hlen. now apply fmod_range.
  - intros d len' [= <-] [= <-] Hlen. now apply fmod_range_neg.
Qed.

Lemma X4_next_brake_distance_result_witness :
  exists r,
    NishizumiApp._next_brake_distance
      (Some (ReferenceLap.mk [] [] [] 0.1 0.2 0.7 [] [0.25; 0.75])) 0.5
      (Some 4000) = Ok r
    /\ forall d, r = Some d -> 0 <= d < 4000.
Proof.
  destruct (X4_next_brake_distance_result
              (Some (ReferenceLap.mk [] [] [] 0.1 0.2 0.7 [] [0.25; 0.75])) 0.5
              (Some 4000)) as (r & Hr & _ & Hd & _).
  exists r. split; [exact Hr |].
  intros d E. apply (Hd d 4000 E eq_refl). reflexivity.
Defined.

Lemma sorted_scale (l : list Q) (len : Q) :
  0 < len -> Sorted Qle l -> Sorted Qle (map (fun p => p * len) l).
Proof.
  intros Hlen Hs. induction Hs as [| x l Hs IH Hhd]; [constructor |].
  cbn. constructor; [exact IH |].
  destruct Hhd as [| y l' Hxy]; constructor.
  apply Qmult_le_compat_r; lra.
Qed.

(** X5. On a positive track length, with brake points in ascending order
    (as [_build_events] leaves them) at fractions from 0 up to but not
    including 1, and the car at a fraction from 0 to 1,
    [_next_brake_distance] returns the distance to the nearest brake point
    ahead, counted around the lap: the forward distance to one of the brake
    points, and not more than the forward distance to any of them. *)
Theorem X5_next_brake_distance_nearest (ref : ReferenceLap.t) (p len : Q) :
  Sorted Qle (ReferenceLap.brake_points ref) ->
  Forall (fun b => 0 <= b < 1) (ReferenceLap.brake_points ref) ->
  ReferenceLap.brake_points ref <> [] ->
  0 <= p <= 1 ->
  0 < len ->
  exists d,
    NishizumiApp._next_brake_distance (Some ref) p (Some len) = Ok (Some d)
    /\ (exists b, In b (ReferenceLap.brake_points ref)
                  /\ d == Py.fmod (b * len - p * len) len)
    /\ (forall b, In b (ReferenceLap.brake_points ref) ->
                  d <= Py.fmod (b * len - p * len) len).
Proof.
  intros Hs Hrange Hne Hp Hlen.
  assert (Hpos : (0 < length (ReferenceLap.brake_points ref))%nat).
  { destruct (ReferenceLap.brake_points ref); [congruence | cbn; lia]. }
  unfold NishizumiApp._next_brake_distance.
  destruct (ReferenceLap.brake_points ref) as [| b0 bps0] eqn:Ebp; [congruence |].
  rewrite <- Ebp in *. clear Ebp Hne.
  assert (Et : Py.truthy (Some len) = true) by (apply truthy_some; lra).
  rewrite Et. cbn [negb].
  set (bps := ReferenceLap.brake_points ref) in *.
  set (dist_list := map (fun q => q * len) bps).
  set (cur := p * len).
  assert (Hcur : 0 <= cur <= len).
  { unfold cur. split.
    - apply Qmult_le_0_compat; lra.
    - assert (p * len <= 1 * len) by (apply Qmult_le_compat_r; lra). lra. }
  assert (Hsd : Sorted Qle dist_list) by now apply sorted_scale.
  assert (Hlen_d : length dist_list = length bps) by apply length_map.
  assert (Hnth : forall j, (j < length bps)%nat ->
                   nth j dist_list 0 = nth j bps 0 * len).
  { intros j Hj. unfold dist_list.
    rewrite (nth_indep _ 0 (0 * len)) by now rewrite length_map.
    exact (map_nth (fun q => q * len) bps 0 j). }
  assert (Hdr : forall j, (j < length bps)%nat ->
                  0 <= nth j dist_list 0 < len).
  { intros j Hj. rewrite Hnth by exact Hj.
    rewrite List.Forall_forall in Hrange.
    destruct (Hrange (nth j bps 0)) as [H0 H1]; [now apply nth_In |].
    split.
    - apply Qmult_le_0_compat; lra.
    - assert (nth j bps 0 * len < 1 * len) by (apply Qmult_lt_compat_r; lra).
      lra. }
  destruct (bisect_left_spec dist_list cur) as (Hr & Hlo & Hhi). cbv zeta in *.
  set (idx := ReferenceLap.bisect_left dist_list cur) in *. clearbody idx.
  (* the forward distance to the sample [j], on either side of the car *)
  assert (Hahead : forall j, (j < length bps)%nat -> cur <= nth j dist_list 0 ->
             Py.fmod (nth j bps 0 * len - cur) len == nth j dist_list 0 - cur).
  { intros j Hj Hc. rewrite <- Hnth by exact Hj.
    destruct (Hdr j Hj) as [D0 D1].
    rewrite (fmod_shift _ len 0); change (inject_Z 0) with 0; lra. }
  assert (Hbehind : forall j, (j < length bps)%nat -> nth j dist_list 0 < cur ->
             Py.fmod (nth j bps 0 * len - cur) len
             == nth j dist_list 0 - cur + len).
  { intros j Hj Hc. rewrite <- Hnth by exact Hj.
    destruct (Hdr j Hj) as [D0 D1].
    rewrite (fmod_shift _ len (-1)); change (inject_Z (-1)) with (-1); lra. }
  destruct (idx <? length dist_list)%nat eqn:Eidx.
  - apply Nat.ltb_lt in Eidx. rewrite Hlen_d in Eidx.
    rewrite (index_nth dist_list idx 0) by lia. cbn [Py.bind].
    destruct Hhi as [Hhi | Hhi]; [lia |].
    eexists. split; [reflexivity |]. split.
    + exists (nth idx bps 0). split; [now apply nth_In |].
      now rewrite Hnth.
    + intros b Hb. destruct (In_nth bps b 0 Hb) as (j & Hj & <-).
      rewrite Hnth by exact Eidx. rewrite (Hahead idx Eidx Hhi).
      destruct (Hdr j Hj) as [D0 D1]. destruct (Hdr idx Eidx) as [N0 N1].
      destruct (le_lt_dec idx j) as [Hij | Hij].
      * assert (nth idx dist_list 0 <= nth j dist_list 0)
          by (apply sorted_nth; [exact Hsd | lia]).
        rewrite Hahead; [lra | exact Hj | lra].
      * assert (nth j dist_list 0 <= nth (idx - 1) dist_list 0)
          by (apply sorted_nth; [exact Hsd | lia]).
        destruct Hlo as [Hlo | Hlo]; [lia |].
        rewrite Hbehind; [lra | exact Hj | lra].
  - apply Nat.ltb_ge in Eidx. rewrite Hlen_d in Eidx.
    rewrite (index_nth dist_list 0 0) by lia. cbn [Py.bind].
    destruct Hlo as [Hlo | Hlo]; [lia |].
    assert (Hall : forall j, (j < length bps)%nat -> nth j dist_list 0 < cur).
    { intros j Hj.
      assert (nth j dist_list 0 <= nth (idx - 1) dist_list 0)
        by (apply sorted_nth; [exact Hsd | lia]).
      lra. }
    eexists. split; [reflexivity |]. split.
    + exists (nth 0 bps 0). split; [now apply nth_In |].
      now rewrite Hnth.
    + intros b Hb. destruct (In_nth bps b 0 Hb) as (j & Hj & <-).
      rewrite Hnth by exact Hpos.
      rewrite (Hbehind 0%nat Hpos (Hall 0%nat Hpos)).
      rewrite (Hbehind j Hj (Hall j Hj)).
      assert (nth 0 dist_list 0 <= nth j dist_list 0)
        by (apply sorted_nth; [exact Hsd | lia]).
      lra.
Qed.

Lemma X5_next_brake_distance_nearest_witness :
  exists d,
    NishizumiApp._next_brake_distance
      (Some (ReferenceLap.mk [] [] [] 0.1 0.2 0.7 [] [0.25; 0.75])) 0.9
      (Some 4000) = Ok (Some d)
    /\ forall b, In b [0.25; 0.75] -> d <= Py.fmod (b * 4000 - 0.9 * 4000) 4000.
Proof.
  destruct (X5_next_brake_distance_nearest
              (ReferenceLap.mk [] [] [] 0.1 0.2 0.7 [] [0.25; 0.75]) 0.9 4000)
    as (d & Hd & _ & Hmin).
  - repeat constructor. vm_compute. discriminate.
  - repeat constructor; vm_compute; congruence.
  - discriminate.
  - split; vm_compute; congruence.
  - reflexivity.
  - exists d. split; [exact Hd | exact Hmin].
Defined.

(* ===================================================================== *)
(** ** The event scan on any lap *)
(* ===================================================================== *)

Lemma for_each_snoc {S A} (body : S -> A -> PyResult S) (l : list A) (x : A) (s : S) :
  Py.for_each body (l ++ [x]) s
  = let* s1 := Py.for_each body l s in body s1 x.
Proof.
  revert s. induction l as [| y l IH]; intros s; cbn.
  - now destruct (body s x).
  - destruct (body s y) as [s1 | e]; cbn; [apply IH | reflexivity].
Qed.

Lemma scan_upto_S (self : ReferenceLap.t) (k : nat) :
  scan_upto self (S k)
  = let* st := scan_upto self k in ReferenceLap.scan_step self st (S k).
Proof.
  unfold scan_upto. rewrite seq_S. cbn [Nat.add]. apply for_each_snoc.
Qed.

Ltac scan_leaf p :=
  let finish rest :=
    (exists rest; split; [reflexivity |];
     cbn [app ReferenceLap.in_brake ReferenceLap.scan_events
            ReferenceLap.scan_brake_points];
     split; [first [reflexivity | exact (eq_sym (app_nil_r _))] |];
     split; [repeat (apply List.Forall_cons; [auto |]); apply List.Forall_nil |];
     split; [first [reflexivity | exact (eq_sym (app_nil_r _))] | reflexivity]) in
  eexists;
  first [ finish (@nil RefEvent)
        | finish [new_event "lift" p]
        | finish [new_event "power" p]
        | finish [new_event "lift" p; new_event "power" p] ].

(** One iteration of the scan on a sample that all three series have. *)
Lemma scan_step_spec (self : ReferenceLap.t) (st : ReferenceLap.Scan) (i : nat) :
  (1 <= i)%nat ->
  (i < length (ReferenceLap.lap_pct self))%nat ->
  (i < length (ReferenceLap.brake self))%nat ->
  (i < length (ReferenceLap.throttle self))%nat ->
  let p := nth i (ReferenceLap.lap_pct self) 0 in
  let fire := negb (ReferenceLap.in_brake st) && brake_rises self i in
  exists st' rest,
    ReferenceLap.scan_step self st i = Ok st'
    /\ ReferenceLap.scan_events st'
       = ReferenceLap.scan_events st
         ++ (if fire then [new_event "brake" p] else []) ++ rest
    /\ Forall (fun e => e = new_event "lift" p \/ e = new_event "power" p) rest
    /\ ReferenceLap.scan_brake_points st'
       = ReferenceLap.scan_brake_points st ++ (if fire then [p] else [])
    /\ ReferenceLap.in_brake st'
       = (ReferenceLap.in_brake st || fire) && negb (brake_released self i).
Proof.
  intros H1 Hl Hb Ht. cbv zeta.
  unfold ReferenceLap.scan_step, brake_rises, brake_released.
  rewrite (index_nth (ReferenceLap.brake self) i 0) by lia.
  rewrite (index_nth (ReferenceLap.throttle self) i 0) by lia.
  rewrite (index_nth (ReferenceLap.brake self) (i - 1) 0) by lia.
  rewrite (index_nth (ReferenceLap.throttle self) (i - 1) 0) by lia.
  rewrite (index_nth (ReferenceLap.lap_pct self) i 0) by lia.
  cbn [Py.bind].
  set (p := nth i (ReferenceLap.lap_pct self) 0).
  destruct st as [ib il evs bps]. cbn [ReferenceLap.in_brake ReferenceLap.in_lift
    ReferenceLap.scan_events ReferenceLap.scan_brake_points].
  destruct ib, il;
    destruct (Py.ltb (nth (i - 1) (ReferenceLap.brake self) 0)
                (ReferenceLap.brake_threshold self));
    destruct (Py.leb (ReferenceLap.brake_threshold self)
                (nth i (ReferenceLap.brake self) 0));
    cbn [negb andb orb Py.bind ReferenceLap.in_brake ReferenceLap.in_lift
           ReferenceLap.scan_events ReferenceLap.scan_brake_points];
    destruct (Py.ltb (nth i (ReferenceLap.brake self) 0)
                (ReferenceLap.brake_threshold self * 0.5));
    cbn [negb andb orb Py.bind ReferenceLap.in_brake ReferenceLap.in_lift
           ReferenceLap.scan_events ReferenceLap.scan_brake_points];
    repeat match goal with
      | |- context [if ?c then _ else _] =>
          destruct c;
          cbn [negb andb orb Py.bind ReferenceLap.in_brake ReferenceLap.in_lift
                 ReferenceLap.scan_events ReferenceLap.scan_brake_points]
      end;
    rewrite <- ?app_assoc;
    cbn [app ReferenceLap.in_brake ReferenceLap.scan_events
           ReferenceLap.scan_brake_points];
    scan_leaf p.
Qed.

Lemma events_of_kind_app (k : string) (l1 l2 : list RefEvent) :
  events_of_kind k (l1 ++ l2) = events_of_kind k l1 ++ events_of_kind k l2.
Proof. apply List.filter_app. Qed.

Lemma events_of_kind_brake_rest (p : Q) (rest : list RefEvent) :
  Forall (fun e => e = new_event "lift" p \/ e = new_event "power" p) rest ->
  events_of_kind "brake" rest = [].
Proof.
  induction 1 as [| e rest [-> | ->] _ IH]; [reflexivity | exact IH | exact IH].
Qed.

Lemma filter_seq_S (f : nat -> bool) (k : nat) :
  List.filter f (seq 1 (S k))
  = List.filter f (seq 1 k) ++ (if f (S k) then [S k] else []).
Proof.
  rewrite seq_S, List.filter_app. cbn [Nat.add List.filter].
  now destruct (f (S k)).
Qed.

(** What holds of the scan after the samples 1 to [k]. *)
Lemma scan_upto_inv (self : ReferenceLap.t) (k : nat) :
  (k <= length (ReferenceLap.lap_pct self) - 1)%nat ->
  (k <= length (ReferenceLap.brake self) - 1)%nat ->
  (k <= length (ReferenceLap.throttle self) - 1)%nat ->
  exists st,
    scan_upto self k = Ok st
    /\ ReferenceLap.scan_brake_points st
       = map ev_lap_pct (events_of_kind "brake" (ReferenceLap.scan_events st))
    /\ Forall (fun e =>
                 dist_m e = None
                 /\ (kind e = "brake" \/ kind e = "lift" \/ kind e = "power")
                 /\ exists j, (1 <= j <= k)%nat
                              /\ ev_lap_pct e = nth j (ReferenceLap.lap_pct self) 0)
         (ReferenceLap.scan_events st)
    /\ (length (events_of_kind "brake" (ReferenceLap.scan_events st))
        <= length (List.filter (brake_rises self) (seq 1 k)))%nat
    /\ (length (events_of_kind "brake" (ReferenceLap.scan_events st))
        + (if ReferenceLap.in_brake st then 0 else 1)
        <= 1 + length (List.filter (brake_released self) (seq 1 k)))%nat
    /\ (ReferenceLap.in_brake st = true ->
        events_of_kind "brake" (ReferenceLap.scan_events st) <> [])
    /\ (List.filter (brake_rises self) (seq 1 k) <> [] ->
        events_of_kind "brake" (ReferenceLap.scan_events st) <> []).
Proof.
  induction k as [| k IH]; intros Hl Hb Ht.
  - eexists. split; [reflexivity |]. cbn.
    repeat split; auto; try lia; congruence.
  - destruct IH as (st & Est & Ibp & Iev & Ic1 & Ic2 & Iin & Iex); [lia .. |].
    rewrite scan_upto_S, Est. cbn [Py.bind].
    destruct (scan_step_spec self st (S k)) as (st' & rest & E & Eev & Hrest & Ebp & Ein);
      [lia .. |].
    cbv zeta in *.
    set (p := nth (S k) (ReferenceLap.lap_pct self) 0) in *.
    set (fire := negb (ReferenceLap.in_brake st) && brake_rises self (S k)) in *.
    assert (Ekind : events_of_kind "brake" (ReferenceLap.scan_events st')
                    = events_of_kind "brake" (ReferenceLap.scan_events st)
                      ++ (if fire then [new_event "brake" p] else [])).
    { rewrite Eev, !events_of_kind_app, (events_of_kind_brake_rest p rest Hrest).
      rewrite app_nil_r. now destruct fire. }
    exists st'. split; [exact E |].
    rewrite Ekind, !filter_seq_S, !length_app.
    split; [| split; [| split; [| split; [| split]]]].
    + rewrite Ebp, Ibp, map_app. now destruct fire.
    + rewrite Eev. apply Forall_app. split; [| apply Forall_app; split].
      * eapply List.Forall_impl; [| exact Iev].
        intros e (Hd & Hk & j & Hj & Hp). split; [exact Hd |]. split; [exact Hk |].
        exists j. split; [lia | exact Hp].
      * destruct fire; [| constructor].
        apply List.Forall_cons; [| apply List.Forall_nil].
        split; [reflexivity |]. split; [now left |].
        exists (S k). split; [lia | reflexivity].
      * eapply List.Forall_impl; [| exact Hrest].
        intros e [-> | ->]; (split; [reflexivity |]); (split; [auto |]);
          exists (S k); (split; [lia | reflexivity]).
    + unfold fire. destruct (ReferenceLap.in_brake st), (brake_rises self (S k));
        cbn; lia.
    + rewrite Ein. unfold fire.
      destruct (ReferenceLap.in_brake st), (brake_rises self (S k)),
        (brake_released self (S k)); cbn in *; lia.
    + rewrite Ein. unfold fire. intros H.
      destruct (ReferenceLap.in_brake st) eqn:Eib.
      * intros Happ. apply app_eq_nil in Happ as [Happ _]. now apply Iin.
      * destruct (brake_rises self (S k)); cbn in *; [| discriminate].
        intros Happ. apply app_eq_nil in Happ as [_ Happ]. discriminate.
    + unfold fire. intros H Happ. apply app_eq_nil in Happ as [H1 H2].
      destruct (ReferenceLap.in_brake st) eqn:Eib; [now apply Iin |].
      destruct (brake_rises self (S k)); cbn in *; [discriminate |].
      rewrite app_nil_r in H. now apply Iex.
Qed.

Lemma build_events_scan (self : ReferenceLap.t) :
  ReferenceLap.lap_pct self <> [] ->
  ReferenceLap._build_events self
  = let* st := scan_upto self (length (ReferenceLap.lap_pct self) - 1) in
    Ok (ReferenceLap.with_events self (ReferenceLap.scan_events st)
          (Py.sort (ReferenceLap.scan_brake_points st))).
Proof.
  intros Hne. unfold ReferenceLap._build_events.
  destruct (ReferenceLap.lap_pct self); [congruence | reflexivity].
Qed.

Lemma for_each_app {S A} (body : S -> A -> PyResult S) (l1 l2 : list A) (s : S) :
  Py.for_each body (l1 ++ l2) s
  = let* s1 := Py.for_each body l1 s in Py.for_each body l2 s1.
Proof.
  revert s. induction l1 as [| y l IH]; intros s; cbn.
  - now destruct (Py.for_each body l2 s).
  - destruct (body s y) as [s1 | e]; cbn; [apply IH | reflexivity].
Qed.

Lemma index_out_of_range {A} (l : list A) (i : nat) :
  (length l <= i)%nat -> Py.index l i = Raise IndexError.
Proof.
  intros H. unfold Py.index.
  now rewrite (proj2 (nth_error_None l i) H).
Qed.

Lemma scan_step_raises (self : ReferenceLap.t) (st : ReferenceLap.Scan) (i : nat) :
  (length (ReferenceLap.brake self) <= i)%nat
  \/ (length (ReferenceLap.throttle self) <= i)%nat ->
  ReferenceLap.scan_step self st i = Raise IndexError.
Proof.
  intros H. unfold ReferenceLap.scan_step.
  destruct (le_lt_dec (length (ReferenceLap.brake self)) i) as [Hb | Hb].
  - now rewrite (index_out_of_range _ _ Hb).
  - rewrite (index_nth _ _ 0 Hb). cbn [Py.bind].
    destruct H as [H | H]; [lia |].
    now rewrite (index_out_of_range _ _ H).
Qed.

Lemma build_events_raises (self : ReferenceLap.t) :
  (2 <= length (ReferenceLap.lap_pct self))%nat ->
  (length (ReferenceLap.brake self) < length (ReferenceLap.lap_pct self))%nat
  \/ (length (ReferenceLap.throttle self) < length (ReferenceLap.lap_pct self))%nat ->
  ReferenceLap._build_events self = Raise IndexError.
Proof.
  intros Hn Hshort.
  rewrite build_events_scan by (intros E; rewrite E in Hn; cbn in Hn; lia).
  set (n := length (ReferenceLap.lap_pct self)) in *.
  set (m := Nat.min (length (ReferenceLap.brake self))
              (length (ReferenceLap.throttle self))).
  set (f := Nat.max 1 m).
  assert (Hf : (1 <= f <= n - 1)%nat) by lia.
  unfold scan_upto.
  replace (n - 1)%nat with ((f - 1) + (n - f))%nat by lia.
  rewrite seq_app, for_each_app.
  destruct (scan_upto_inv self (f - 1)) as (st & Est & _); [lia .. |].
  unfold scan_upto in Est. rewrite Est. cbn [Py.bind].
  replace (1 + (f - 1))%nat with f by lia.
  replace (n - f)%nat with (S (n - f - 1)) by lia.
  cbn [seq Py.for_each].
  rewrite scan_step_raises by lia. reflexivity.
Qed.

(** A scan that has returned has read every sample. *)
Lemma build_events_returns (self r : ReferenceLap.t) :
  ReferenceLap._build_events self = Ok r ->
  let k := (length (ReferenceLap.lap_pct self) - 1)%nat in
  (k <= length (ReferenceLap.brake self) - 1)%nat
  /\ (k <= length (ReferenceLap.throttle self) - 1)%nat
  /\ exists st,
       scan_upto self k = Ok st
       /\ r = ReferenceLap.with_events self (ReferenceLap.scan_events st)
                (Py.sort (ReferenceLap.scan_brake_points st)).
Proof.
  intros H. cbv zeta.
  assert (Hlen : (length (ReferenceLap.lap_pct self) - 1
                  <= length (ReferenceLap.brake self) - 1)%nat
                 /\ (length (ReferenceLap.lap_pct self) - 1
                     <= length (ReferenceLap.throttle self) - 1)%nat).
  { destruct (le_lt_dec 2 (length (ReferenceLap.lap_pct self))) as [Hn | Hn]; [| lia].
    destruct (le_lt_dec (length (ReferenceLap.lap_pct self))
                (length (ReferenceLap.brake self))) as [Hb | Hb];
      [destruct (le_lt_dec (length (ReferenceLap.lap_pct self))
                   (length (ReferenceLap.throttle self))) as [Ht | Ht]; [lia |] |];
      rewrite build_events_raises in H by auto; discriminate. }
  split; [apply Hlen |]. split; [apply Hlen |].
  destruct (ReferenceLap.lap_pct self) as [| q lap] eqn:Elap.
  - unfold ReferenceLap._build_events in H. rewrite Elap in H.
    injection H as <-. eexists. split; reflexivity.
  - rewrite build_events_scan in H by (rewrite Elap; discriminate).
    rewrite Elap in H.
    destruct (scan_upto self (length (q :: lap) - 1)) as [st | e]; [| discriminate].
    cbn [Py.bind] in H. injection H as <-. eauto.
Qed.

Lemma build_events_succeeds (self : ReferenceLap.t) :
  (length (ReferenceLap.lap_pct self) <= 1)%nat
  \/ ((length (ReferenceLap.lap_pct self) <= length (ReferenceLap.brake self))%nat
      /\ (length (ReferenceLap.lap_pct self)
          <= length (ReferenceLap.throttle self))%nat) ->
  exists r, ReferenceLap._build_events self = Ok r.
Proof.
  intros H.
  destruct (ReferenceLap.lap_pct self) as [| q lap] eqn:Elap.
  { unfold ReferenceLap._build_events. rewrite Elap. eauto. }
  rewrite build_events_scan by (rewrite Elap; discriminate).
  destruct (scan_upto_inv self (length (ReferenceLap.lap_pct self) - 1))
    as (st & -> & _); [rewrite Elap in *; cbn in *; lia .. |].
  cbn [Py.bind]. eauto.
Qed.

(** X6. [_build_events] raises no exception when the lap has at most one
    sample, or when the brake and throttle series have at least as many
    samples as the lap; when the lap has two or more samples and one of the
    two series is shorter than the lap, it raises [IndexError]. *)
Theorem X6_build_events_result (self : ReferenceLap.t) :
  let n := length (ReferenceLap.lap_pct self) in
  ((n <= 1)%nat
   \/ ((n <= length (ReferenceLap.brake self))%nat
       /\ (n <= length (ReferenceLap.throttle self))%nat) ->
   exists r, ReferenceLap._build_events self = Ok r)
  /\ ((2 <= n)%nat ->
      (length (ReferenceLap.brake self) < n)%nat
      \/ (length (ReferenceLap.throttle self) < n)%nat ->
      ReferenceLap._build_events self = Raise IndexError).
Proof.
  cbv zeta. split.
  - apply build_events_succeeds.
  - apply build_events_raises.
Qed.

Lemma X6_build_events_result_witness :
  (exists r,
      ReferenceLap._build_events
        (ReferenceLap.mk [0.1; 0.2; 0.3] [1; 1; 1] [0; 0.5; 0] 0.1 0.2 0.7 [] [])
      = Ok r)
  /\ ReferenceLap._build_events
       (ReferenceLap.mk [0.1; 0.2; 0.3] [1; 1; 1] [0; 0.5] 0.1 0.2 0.7 [] [])
     = Raise IndexError.
Proof.
  split.
  - apply (proj1 (X6_build_events_result
                    (ReferenceLap.mk [0.1; 0.2; 0.3] [1; 1; 1] [0; 0.5; 0]
                       0.1 0.2 0.7 [] []))).
    right. cbn. lia.
  - apply (proj2 (X6_build_events_result
                    (ReferenceLap.mk [0.1; 0.2; 0.3] [1; 1; 1] [0; 0.5]
                       0.1 0.2 0.7 [] []))); cbn; lia.
Defined.

Lemma insert_sorted_perm (x : Q) (l : list Q) :
  Permutation (Py.insert_sorted x l) (x :: l).
Proof.
  induction l as [| y l IH]; cbn; [reflexivity |].
  destruct (Py.ltb x y); [reflexivity |].
  rewrite IH. apply perm_swap.
Qed.

Lemma sort_perm (l : list Q) : Permutation (Py.sort l) l.
Proof.
  induction l as [| x l IH]; cbn; [reflexivity |].
  fold (Py.sort l). rewrite insert_sorted_perm. now constructor.
Qed.

Lemma insert_sorted_sorted (x : Q) (l : list Q) :
  Sorted Qle l -> Sorted Qle (Py.insert_sorted x l).
Proof.
  intros Hs. induction Hs as [| y l Hs IH Hhd]; cbn; [repeat constructor |].
  destruct (Py.ltb x y) eqn:E; py_bool.
  - constructor; [now constructor |]. constructor. lra.
  - constructor; [exact IH |].
    destruct l as [| z l]; cbn.
    + constructor. exact E.
    + destruct (Py.ltb x z); constructor; [exact E |].
      now inversion Hhd.
Qed.

Lemma sort_sorted (l : list Q) : Sorted Qle (Py.sort l).
Proof.
  induction l as [| x l IH]; cbn; [constructor |].
  now apply insert_sorted_sorted.
Qed.

Ltac lap_fields :=
  unfold ReferenceLap.with_events;
  cbn [ReferenceLap.lap_pct ReferenceLap.throttle ReferenceLap.brake
         ReferenceLap.brake_threshold ReferenceLap.lift_threshold
         ReferenceLap.power_threshold ReferenceLap.events
         ReferenceLap.brake_points].

(** X7. When [_build_events] returns, the brake points are the lap fractions
    of the brake events, each as often as it occurs there, in ascending
    order; the samples and the thresholds of the lap are left as they
    were. *)
Theorem X7_build_events_brake_points (self r : ReferenceLap.t) :
  ReferenceLap._build_events self = Ok r ->
  Sorted Qle (ReferenceLap.brake_points r)
  /\ Permutation (ReferenceLap.brake_points r)
       (map ev_lap_pct (events_of_kind "brake" (ReferenceLap.events r)))
  /\ ReferenceLap.lap_pct r = ReferenceLap.lap_pct self
  /\ ReferenceLap.throttle r = ReferenceLap.throttle self
  /\ ReferenceLap.brake r = ReferenceLap.brake self
  /\ ReferenceLap.brake_threshold r = ReferenceLap.brake_threshold self
  /\ ReferenceLap.lift_threshold r = ReferenceLap.lift_threshold self
  /\ ReferenceLap.power_threshold r = ReferenceLap.power_threshold self.
Proof.
  intros H.
  destruct (build_events_returns self r H) as (Hb & Ht & st & Est & ->).
  destruct (scan_upto_inv self _ (Nat.le_refl _) Hb Ht) as (st' & Est' & Ibp & _).
  rewrite Est in Est'. injection Est' as <-.
  lap_fields. split; [apply sort_sorted |]. split; [| repeat split].
  rewrite <- Ibp. apply sort_perm.
Qed.

Lemma X7_build_events_brake_points_witness :
  exists r,
    ReferenceLap._build_events braking_lap = Ok r
    /\ Sorted Qle (ReferenceLap.brake_points r).
Proof.
  eexists. split; [vm_compute; reflexivity |].
  refine (proj1 (X7_build_events_brake_points braking_lap _ _)).
  vm_compute. reflexivity.
Defined.

(** X8. When [_build_events] returns, every event has one of the kinds
    brake, lift and power, no distance yet, and the lap fraction of a stored
    sample other than the first one: no event is ever placed on the first
    sample of the lap. *)
Theorem X8_build_events_events (self r : ReferenceLap.t) :
  ReferenceLap._build_events self = Ok r ->
  Forall (fun e =>
            dist_m e = None
            /\ (kind e = "brake" \/ kind e = "lift" \/ kind e = "power")
            /\ exists j,
                 (1 <= j < length (ReferenceLap.lap_pct self))%nat
                 /\ ev_lap_pct e = nth j (ReferenceLap.lap_pct self) 0)
    (ReferenceLap.events r).
Proof.
  intros H.
  destruct (build_events_returns self r H) as (Hb & Ht & st & Est & ->).
  destruct (scan_upto_inv self _ (Nat.le_refl _) Hb Ht) as (st' & Est' & _ & Iev & _).
  rewrite Est in Est'. injection Est' as <-.
  lap_fields. eapply List.Forall_impl; [| exact Iev].
  intros e (Hd & Hk & j & Hj & Hp). split; [exact Hd |]. split; [exact Hk |].
  exists j. split; [lia | exact Hp].
Qed.

Lemma X8_build_events_events_witness :
  exists r,
    ReferenceLap._build_events braking_lap = Ok r
    /\ Forall (fun e => dist_m e = None) (ReferenceLap.events r).
Proof.
  eexists. split; [vm_compute; reflexivity |].
  eapply List.Forall_impl;
    [| refine (X8_build_events_events braking_lap _ _); vm_compute; reflexivity].
  intros e H. apply H.
Defined.

(** X9. When [_build_events] returns, there are not more brake events than
    samples at which the brake rises through the threshold, and not more
    than one plus the number of samples with the brake below half the
    threshold: after a brake event, the next one needs such a sample first.
    There is a brake event exactly when the brake rises through the
    threshold at some sample. *)
Theorem X9_build_events_brake_count (self r : ReferenceLap.t) :
  ReferenceLap._build_events self = Ok r ->
  let samples := seq 1 (length (ReferenceLap.lap_pct self) - 1) in
  let brakes := events_of_kind "brake" (ReferenceLap.events r) in
  (length brakes <= length (List.filter (brake_rises self) samples))%nat
  /\ (length brakes <= 1 + length (List.filter (brake_released self) samples))%nat
  /\ (brakes <> [] <-> List.filter (brake_rises self) samples <> []).
Proof.
  intros H.
  destruct (build_events_returns self r H) as (Hb & Ht & st & Est & ->).
  destruct (scan_upto_inv self _ (Nat.le_refl _) Hb Ht)
    as (st' & Est' & _ & _ & Ic1 & Ic2 & _ & Iex).
  rewrite Est in Est'. injection Est' as <-.
  cbv zeta. lap_fields. split; [exact Ic1 |]. split.
  - destruct (ReferenceLap.in_brake st); lia.
  - split; [| exact Iex].
    intros Hne E. rewrite E in Ic1. cbn in Ic1.
    destruct (events_of_kind "brake" (ReferenceLap.scan_events st));
      [congruence | cbn in Ic1; lia].
Qed.

Lemma X9_build_events_brake_count_witness :
  exists r,
    ReferenceLap._build_events braking_lap = Ok r
    /\ (length (events_of_kind "brake" (ReferenceLap.events r)) <= 2)%nat.
Proof.
  eexists. split; [vm_compute; reflexivity |].
  refine (proj1 (X9_build_events_brake_count braking_lap _ _)).
  vm_compute. reflexivity.
Defined.

(* ===================================================================== *)
(** ** Refreshing the thresholds and setting the event distances *)
(* ===================================================================== *)

Lemma for_each_ext {S A} (f g : S -> A -> PyResult S) (l : list A) (s : S) :
  (forall s x, f s x = g s x) -> Py.for_each f l s = Py.for_each g l s.
Proof.
  intros H. revert s. induction l as [| x l IH]; intros s; cbn; [reflexivity |].
  rewrite H. destruct (g s x); cbn; [apply IH | reflexivity].
Qed.

(** [_build_events] reads the samples and the thresholds only. *)
Lemma build_events_ext (s1 s2 : ReferenceLap.t) :
  ReferenceLap.lap_pct s1 = ReferenceLap.lap_pct s2 ->
  ReferenceLap.throttle s1 = ReferenceLap.throttle s2 ->
  ReferenceLap.brake s1 = ReferenceLap.brake s2 ->
  ReferenceLap.brake_threshold s1 = ReferenceLap.brake_threshold s2 ->
  ReferenceLap.lift_threshold s1 = ReferenceLap.lift_threshold s2 ->
  ReferenceLap.power_threshold s1 = ReferenceLap.power_threshold s2 ->
  ReferenceLap._build_events s1 = ReferenceLap._build_events s2.
Proof.
  intros H1 H2 H3 H4 H5 H6.
  assert (Hstep : forall st i,
             ReferenceLap.scan_step s1 st i = ReferenceLap.scan_step s2 st i).
  { intros st i. unfold ReferenceLap.scan_step.
    now rewrite H1, H2, H3, H4, H5, H6. }
  unfold ReferenceLap._build_events, ReferenceLap.with_events.
  rewrite (for_each_ext _ _ _ _ Hstep).
  now rewrite H1, H2, H3, H4, H5, H6.
Qed.

(** X10. [refresh_thresholds] rebuilds the events from the samples and the
    given thresholds alone.  The events and brake points stored before do
    not matter; the lap returned carries the given thresholds; refreshing it
    again with the same thresholds returns it unchanged, also after
    [set_event_distances] has given its events distances, which the refresh
    drops again. *)
Theorem X10_refresh_thresholds (self r : ReferenceLap.t)
    (brake_th lift_th power_th : Q) :
  ReferenceLap.refresh_thresholds self brake_th lift_th power_th = Ok r ->
  (forall evs bps,
      ReferenceLap.refresh_thresholds (ReferenceLap.with_events self evs bps)
        brake_th lift_th power_th = Ok r)
  /\ ReferenceLap.brake_threshold r = brake_th
  /\ ReferenceLap.lift_threshold r = lift_th
  /\ ReferenceLap.power_threshold r = power_th
  /\ ReferenceLap.refresh_thresholds r brake_th lift_th power_th = Ok r
  /\ (forall len,
        ReferenceLap.refresh_thresholds (ReferenceLap.set_event_distances r len)
          brake_th lift_th power_th = Ok r).
Proof.
  intros H. unfold ReferenceLap.refresh_thresholds in *.
  destruct (build_events_returns _ r H) as (_ & _ & st & _ & Er).
  split; [| split; [| split; [| split; [| split]]]].
  - intros evs bps. rewrite <- H. now apply build_events_ext.
  - now rewrite Er.
  - now rewrite Er.
  - now rewrite Er.
  - rewrite <- H. apply build_events_ext; now rewrite Er.
  - intros len. rewrite <- H. apply build_events_ext; now rewrite Er.
Qed.

Lemma X10_refresh_thresholds_witness :
  exists r,
    ReferenceLap.refresh_thresholds braking_lap 0.1 0.2 0.7 = Ok r
    /\ ReferenceLap.refresh_thresholds
         (ReferenceLap.set_event_distances r 4000) 0.1 0.2 0.7 = Ok r.
Proof.
  eexists. split; [vm_compute; reflexivity |].
  refine (proj2 (proj2 (proj2 (proj2 (proj2
            (X10_refresh_thresholds braking_lap _ 0.1 0.2 0.7 _))))) 4000).
  vm_compute. reflexivity.
Defined.

(** X11. [set_event_distances] keeps the kinds and the lap fractions of the
    events and gives every event the distance lap fraction times track
    length.  On a positive track length, the distance from the car to the
    event that [update] then computes in the distance mode is the track
    length times the distance that it computes in the fraction mode. *)
Theorem X11_set_event_distances (self : ReferenceLap.t) (len p : Q) :
  0 < len ->
  let r := ReferenceLap.set_event_distances self len in
  map kind (ReferenceLap.events r) = map kind (ReferenceLap.events self)
  /\ map ev_lap_pct (ReferenceLap.events r)
     = map ev_lap_pct (ReferenceLap.events self)
  /\ Forall (fun e =>
               exists d,
                 dist_m e = Some d
                 /\ d == ev_lap_pct e * len
                 /\ Py.fmod (d - p * len) len
                    == len * Py.fmod (ev_lap_pct e - p) 1.0)
       (ReferenceLap.events r).
Proof.
  intros Hlen. cbv zeta. unfold ReferenceLap.set_event_distances. lap_fields.
  rewrite !map_map. cbn [kind ev_lap_pct].
  split; [reflexivity |]. split; [reflexivity |].
  apply List.Forall_forall. intros e He.
  apply in_map_iff in He as (e0 & <- & _). cbn [dist_m ev_lap_pct].
  eexists. split; [reflexivity |]. split; [reflexivity |].
  assert (E : ev_lap_pct e0 * len - p * len == (ev_lap_pct e0 - p) * len) by ring.
  unfold Py.fmod at 1. rewrite (Qfloor_comp _ _ (Qdiv_comp _ _ E _ _ (Qeq_refl len))).
  fold (Py.fmod ((ev_lap_pct e0 - p) * len) len).
  rewrite E at 1.
  assert (F : forall x,
             x * len - len * inject_Z (Qfloor (x * len / len))
             == len * (x - 1.0 * inject_Z (Qfloor (x / 1.0)))).
  { intros x.
    assert (E' : x * len / len == x / 1.0) by (field; lra).
    rewrite (Qfloor_comp _ _ E'). ring. }
  apply F.
Qed.

Lemma X11_set_event_distances_witness :
  Forall (fun e =>
            exists d,
              dist_m e = Some d
              /\ d == ev_lap_pct e * 4000
              /\ Py.fmod (d - 0.9 * 4000) 4000
                 == 4000 * Py.fmod (ev_lap_pct e - 0.9) 1.0)
    (ReferenceLap.events
       (ReferenceLap.set_event_distances
          (ReferenceLap.with_events braking_lap [new_event "brake" 0.3] [0.3])
          4000)).
Proof.
  apply (X11_set_event_distances
           (ReferenceLap.with_events braking_lap [new_event "brake" 0.3] [0.3])
           4000 0.9).
  reflexivity.
Defined.

(* ===================================================================== *)
(** ** The log handler, the gear beep and the unwrapper over whole runs *)
(* ===================================================================== *)

Lemma deque_append_last {A} (n : nat) (l : list A) (x : A) :
  Py.deque_append n (skipn (length l - n) l) x
  = skipn (length (l ++ [x]) - n) (l ++ [x]).
Proof.
  unfold Py.deque_append.
  rewrite !length_app, length_skipn. cbn [length].
  destruct (le_lt_dec (length l) n) as [H | H].
  - replace (length l - n)%nat with 0%nat by lia. cbn [skipn].
    destruct (n <? length l - 0 + 1)%nat eqn:E.
    + apply Nat.ltb_lt in E.
      replace (length l + 1 - n)%nat with 1%nat by lia. reflexivity.
    + apply Nat.ltb_ge in E.
      replace (length l + 1 - n)%nat with 0%nat by lia. reflexivity.
  - assert (E : (n <? length l - (length l - n) + 1)%nat = true)
      by (apply Nat.ltb_lt; lia).
    rewrite E.
    replace (length l + 1 - n)%nat with (S (length l - n)) by lia.
    rewrite (skipn_app (S (length l - n))).
    replace (skipn (S (length l - n)) l)
      with (skipn 1 (skipn (length l - n) l))
      by (rewrite skipn_skipn; reflexivity).
    destruct n as [| n].
    + rewrite Nat.sub_0_r, skipn_all.
      replace (S (length l) - length l)%nat with 1%nat by lia. reflexivity.
    + replace (S (length l - S n) - length l)%nat with 0%nat by lia.
      cbn [skipn].
      assert (Hd : (0 < length (skipn (length l - S n) l))%nat)
        by (rewrite length_skipn; lia).
      revert Hd. generalize (skipn (length l - S n) l) as d.
      intros d Hd. destruct d; [cbn in Hd; lia | reflexivity].
Qed.

(** X12. After any number of calls of [emit] on a fresh handler, its
    [entries] are the formatted messages of the last [max_entries] records,
    oldest first; earlier ones have been dropped, and with [max_entries]
    zero nothing is kept. *)
Theorem X12_memory_log_handler_keeps_last (LogRecord : Type)
    (format : LogRecord -> string) (max_entries : nat)
    (records : list LogRecord) :
  let handler :=
    fold_left (MemoryLogHandler.emit LogRecord format) records
      (MemoryLogHandler.init max_entries) in
  MemoryLogHandler.entries handler
  = skipn (length records - max_entries) (map format records)
  /\ (length (MemoryLogHandler.entries handler) <= max_entries)%nat.
Proof.
  cbv zeta.
  assert (H : MemoryLogHandler.max_entries
                (fold_left (MemoryLogHandler.emit LogRecord format) records
                   (MemoryLogHandler.init max_entries)) = max_entries
              /\ MemoryLogHandler.entries
                   (fold_left (MemoryLogHandler.emit LogRecord format) records
                      (MemoryLogHandler.init max_entries))
                 = skipn (length (map format records) - max_entries)
                     (map format records)).
  { induction records as [| rec records IH] using rev_ind; [split; reflexivity |].
    rewrite fold_left_app. cbn [fold_left].
    destruct IH as [IH1 IH2].
    unfold MemoryLogHandler.emit at 1 3.
    cbn [MemoryLogHandler.max_entries MemoryLogHandler.entries].
    split; [exact IH1 |].
    rewrite IH1, IH2, map_app. cbn [map]. apply deque_append_last. }
  destruct H as [_ H]. rewrite H, length_map. split; [reflexivity |].
  rewrite length_skipn, length_map. lia.
Qed.

Lemma last_cons {A} (x : A) (l : list A) (d : A) :
  List.last (x :: l) d = List.last l x.
Proof.
  revert x d. induction l as [| y l IH]; intros x d; [reflexivity |].
  change (List.last (x :: y :: l) d) with (List.last (y :: l) d).
  now rewrite !IH.
Qed.

Lemma gear_run_known (w : bool) (g : Z) (gears : list Z) :
  fst (gear_run w true (Some g) (map Some gears)) = Some (List.last gears g)
  /\ snd (gear_run w true (Some g) (map Some gears))
     = repeat (if w then NishizumiApp.Beep 1100 80 else NishizumiApp.Bell)
         (gear_changes g gears).
Proof.
  revert g. induction gears as [| g' gears IH]; intros g; [split; reflexivity |].
  cbn [map gear_run NishizumiApp._maybe_play_gear_beep negb gear_changes].
  destruct (IH g') as [IH1 IH2].
  destruct (gear_run w true (Some g') (map Some gears)) as [lg later].
  cbn [fst snd] in *. subst. split.
  - now rewrite last_cons.
  - now destruct (g' =? g)%Z.
Qed.

(** X13. [_maybe_play_gear_beep] always leaves [last_gear] equal to the gear
    it was given.  It sounds at most once, and it does so exactly when the
    check box is on and both the gear and the last gear are known and
    differ: the first known gear gives no sound, and neither does a change
    made while the check box was off.  Over a run of known gears with the
    check box on it sounds once per gear change. *)
Theorem X13_gear_beep (winsound : bool) :
  (forall enabled last_gear gear,
      fst (NishizumiApp._maybe_play_gear_beep winsound enabled last_gear gear)
      = gear)
  /\ (forall enabled last_gear gear,
        snd (NishizumiApp._maybe_play_gear_beep winsound enabled last_gear gear)
        = if enabled
             && match last_gear, gear with
                | Some l, Some g => negb (g =? l)%Z
                | _, _ => false
                end
          then [if winsound then NishizumiApp.Beep 1100 80 else NishizumiApp.Bell]
          else [])
  /\ (forall last_gear gear,
        snd (NishizumiApp._maybe_play_gear_beep winsound true
               (fst (NishizumiApp._maybe_play_gear_beep winsound false
                       last_gear gear))
               gear) = [])
  /\ (forall g gears,
        length (snd (gear_run winsound true (Some g) (map Some gears)))
        = gear_changes g gears).
Proof.
  split; [| split; [| split]].
  - intros [] [l |] [g |]; reflexivity.
  - intros [] [l |] [g |]; reflexivity.
  - intros [l |] [g |]; cbn; rewrite ?Z.eqb_refl; reflexivity.
  - intros g gears. rewrite (proj2 (gear_run_known winsound g gears)).
    apply repeat_length.
Qed.

Lemma feed_wraps (track_len_m : Q) (pcts : list Q) :
  0 < track_len_m ->
  forall (self : NishizumiApp.t) (last u : Q),
    NishizumiApp.last_live_lap_pct self = Some last ->
    NishizumiApp.live_unwrapped_m self = Some u ->
    let r := NishizumiApp.feed self track_len_m pcts in
    NishizumiApp.last_live_lap_pct (fst r) = Some (List.last pcts last)
    /\ length (snd r) = length pcts
    /\ exists u',
         NishizumiApp.live_unwrapped_m (fst r) = Some u'
         /\ List.last (snd r) (Some u) = Some u'
         /\ u' == u + (inject_Z (wraps last pcts) + List.last pcts last - last)
                      * track_len_m.
Proof.
  intros Hlen. induction pcts as [| p pcts IH]; intros self last u Hl Hu; cbv zeta.
  - cbn. split; [exact Hl |]. split; [reflexivity |].
    exists u. split; [exact Hu |]. split; [reflexivity |]. ring.
  - cbn [NishizumiApp.feed]. unfold NishizumiApp._update_live_unwrapped.
    assert (E : Py.leb track_len_m 0 = false) by (apply leb_gt; lra).
    rewrite E, Hl, Hu.
    set (delta := if Py.ltb (p - last) (-0.5) then p - last + 1.0 else p - last).
    set (self1 := {| NishizumiApp.last_live_lap_pct := Some p;
                     NishizumiApp.live_unwrapped_m := Some (u + delta * track_len_m) |}).
    destruct (IH self1 p (u + delta * track_len_m) eq_refl eq_refl)
      as (H1 & H2 & u' & H3 & H4 & H5).
    cbv zeta in *.
    destruct (NishizumiApp.feed self1 track_len_m pcts) as [self2 rs].
    cbn [fst snd] in *.
    split; [now rewrite last_cons |]. split; [cbn; lia |].
    exists u'. split; [exact H3 |]. split.
    + now rewrite last_cons.
    + rewrite H5. cbn [wraps]. unfold delta.
      assert (El : List.last (p :: pcts) last = List.last pcts p)
        by apply last_cons.
      rewrite El.
      destruct (Py.ltb (p - last) (-0.5)).
      * rewrite inject_Z_plus. change (inject_Z 1) with 1. ring.
      * change (inject_Z (0 + wraps p pcts)) with (inject_Z (wraps p pcts)). ring.
Qed.

(** X14. On a positive track length, after the unwrapper has been seeded and
    fed any sequence of lap fractions, the unwrapped distance is the number
    of lap completions it has seen (steps on which the fraction drops by
    more than 0.5) plus the current lap fraction, times the track length,
    and that is the value returned by the last call.  On a track length that
    is not positive every call returns [None] and leaves the unwrapper as it
    was. *)
Theorem X14_unwrapped_counts_laps (track_len_m p0 : Q) (pcts : list Q) :
  (0 < track_len_m ->
   let r := NishizumiApp.feed NishizumiApp.unset track_len_m (p0 :: pcts) in
   NishizumiApp.last_live_lap_pct (fst r) = Some (List.last pcts p0)
   /\ exists u,
        NishizumiApp.live_unwrapped_m (fst r) = Some u
        /\ List.last (snd r) None = Some u
        /\ u == (inject_Z (wraps p0 pcts) + List.last pcts p0) * track_len_m)
  /\ (track_len_m <= 0 ->
      forall self,
        NishizumiApp.feed self track_len_m (p0 :: pcts)
        = (self, map (fun _ => None) (p0 :: pcts))).
Proof.
  split.
  - intros Hlen. cbv zeta.
    assert (E : Py.leb track_len_m 0 = false) by (apply leb_gt; lra).
    set (self1 := {| NishizumiApp.last_live_lap_pct := Some p0;
                     NishizumiApp.live_unwrapped_m := Some (p0 * track_len_m) |}).
    assert (Eseed : NishizumiApp._update_live_unwrapped NishizumiApp.unset p0
                      track_len_m = (self1, Some (p0 * track_len_m))).
    { unfold NishizumiApp._update_live_unwrapped. now rewrite E. }
    cbn [NishizumiApp.feed]. rewrite Eseed.
    destruct (feed_wraps track_len_m pcts Hlen self1 p0 (p0 * track_len_m)
                eq_refl eq_refl) as (H1 & H2 & u' & H3 & H4 & H5).
    cbv zeta in *.
    destruct (NishizumiApp.feed self1 track_len_m pcts) as [self2 rs].
    cbn [fst snd] in *.
    split; [exact H1 |]. exists u'. split; [exact H3 |]. split.
    + now rewrite last_cons.
    + rewrite H5. ring.
  - intros Hlen self.
    assert (E : Py.leb track_len_m 0 = true) by (apply leb_le; exact Hlen).
    assert (H : forall l s,
               NishizumiApp.feed s track_len_m l = (s, map (fun _ => None) l)).
    { induction l as [| p l IH]; intros s; [reflexivity |].
      cbn [NishizumiApp.feed map]. unfold NishizumiApp._update_live_unwrapped.
      rewrite E. now rewrite IH. }
    apply H.
Qed.

Lemma X14_unwrapped_counts_laps_witness :
  exists u,
    NishizumiApp.live_unwrapped_m
      (fst (NishizumiApp.feed NishizumiApp.unset 4000 [0.8; 0.95; 0.05; 0.3]))
    = Some u
    /\ u == (1 + 0.3) * 4000.
Proof.
  destruct (proj1 (X14_unwrapped_counts_laps 4000 0.8 [0.95; 0.05; 0.3]))
    as (_ & u & Hu & _ & E); [reflexivity |].
  exists u. split; [exact Hu | exact E].
Defined.

(* ===================================================================== *)
(** ** The scheduler: which events cue, and the playback side *)
(* ===================================================================== *)

Lemma enumerate_In_inv {A} (l : list A) (i : nat) (x : A) :
  In (i, x) (Py.enumerate l) -> nth_error l i = Some x.
Proof.
  unfold Py.enumerate.
  enough (H : forall k, In (i, x) (combine (seq k (length l)) l) ->
                        (k <= i)%nat /\ nth_error l (i - k) = Some x).
  { intros Hin. destruct (H 0%nat Hin) as [_ Hn]. now rewrite Nat.sub_0_r in Hn. }
  induction l as [| y l IH]; intros k Hin; [destruct Hin |].
  cbn in Hin. destruct Hin as [[= <- <-] | Hin].
  - split; [lia |]. now rewrite Nat.sub_diag.
  - destruct (IH (S k) Hin) as [Hk Hn]. split; [lia |].
    replace (i - k)%nat with (S (i - S k)) by lia. exact Hn.
Qed.

Lemma tick_body_cues w a p s log ie :
  exists cues,
    snd (tick_body w a p (s, log) ie) = log ++ cues
    /\ Forall (fun c => cue_idx c = fst ie
                        /\ tick_distance a p (snd ie) <> None) cues.
Proof.
  unfold tick_body. destruct (tick_distance a p (snd ie)) as [d |] eqn:Ed.
  - cbn [fst snd].
    destruct (stage_event_step w a (negb (distance_mode a))
                (fst (tick_thresholds a)) (snd (tick_thresholds a)) s
                (fst ie) (snd ie) d) as (_ & Hc & _).
    eexists. split; [reflexivity |].
    eapply List.Forall_impl; [| exact Hc]. cbn. intros c Hi.
    split; [exact Hi | discriminate].
  - exists []. cbn [snd]. rewrite app_nil_r. split; [reflexivity | constructor].
Qed.

Lemma fold_tick_cues w a p (l : list (nat * RefEvent)) :
  forall s log,
  exists cues,
    snd (fold_left (tick_body w a p) l (s, log)) = log ++ cues
    /\ Forall (fun c => exists ie, In ie l /\ cue_idx c = fst ie
                                   /\ tick_distance a p (snd ie) <> None) cues.
Proof.
  induction l as [| ie l IH]; intros s log.
  - exists []. cbn. rewrite app_nil_r. split; [reflexivity | constructor].
  - cbn [fold_left].
    destruct (tick_body_cues w a p s log ie) as (c1 & E1 & H1).
    destruct (tick_body w a p (s, log) ie) as [s1 log1]. cbn [snd] in E1. subst.
    destruct (IH s1 (log ++ c1)) as (c2 & E2 & H2).
    exists (c1 ++ c2). rewrite E2, app_assoc. split; [reflexivity |].
    apply Forall_app. split.
    + eapply List.Forall_impl; [| exact H1]. cbn. intros c [Hi Hd].
      exists ie. split; [now left | auto].
    + eapply List.Forall_impl; [| exact H2]. cbn. intros c (ie' & Hin & Hi).
      exists ie'. split; [now right | exact Hi].
Qed.

Lemma tick_distance_some a p event d :
  tick_distance a p event = Some d ->
  kind_disabled a event = false
  /\ (distance_mode a = true -> dist_m event <> None).
Proof.
  unfold tick_distance. destruct (distance_mode a).
  - destruct (track_len_m a), (dist_m event), (kind_disabled a event);
      try discriminate. intros _. split; [reflexivity | discriminate].
  - destruct (kind_disabled a event); [discriminate |].
    intros _. split; [reflexivity | discriminate].
Qed.

Lemma advances_cue_lap s cues s' :
  advances s cues s' -> Forall (fun c => cue_lap c = _lap_id s') cues.
Proof.
  intros (Hl & _ & Hf). apply List.Forall_forall. intros c Hin.
  rewrite Hl.
  specialize (Hf (cue_lap c) (cue_idx c) (cue_stage c)).
  destruct (decide (cue_lap c = _lap_id s)) as [E | E]; [exact E |].
  rewrite bool_decide_eq_false_2 in Hf by exact E. cbn in Hf.
  exfalso. now apply (fired_zero_absent _ _ _ _ c Hf Hin).
Qed.

(** X15. Every cue that a call of [update] fires belongs to an event of the
    list handed to it whose kind is switched on and which, in the distance
    mode, has a distance; the cue carries the lap counter that the scheduler
    has after the call.  So a kind that is switched off never sounds, and
    neither does, in the distance mode, an event without a distance. *)
Theorem X15_cues_of_enabled_events (w : bool) (s : AudioCues.t) (a : Args)
    (c : Cue) :
  In c (snd (update w s a)) ->
  exists event,
    nth_error (events a) (cue_idx c) = Some event
    /\ kind_disabled a event = false
    /\ (distance_mode a = true -> dist_m event <> None)
    /\ cue_lap c = _lap_id (fst (update w s a)).
Proof.
  intros Hin.
  destruct (lap_pct a) as [p |] eqn:Hp.
  2:{ unfold update in Hin. rewrite Hp in Hin. destruct Hin. }
  pose proof (update_advances w s a p Hp) as Ha.
  apply advances_cue_lap in Ha. rewrite List.Forall_forall in Ha.
  specialize (Ha c Hin).
  rewrite (update_fold w s a p Hp) in Hin.
  destruct (fold_tick_cues w a p (Py.enumerate (events a)) (begin_tick s p) [])
    as (cues & E & Hall).
  rewrite E in Hin. cbn [app] in Hin.
  rewrite List.Forall_forall in Hall.
  destruct (Hall c Hin) as ([i event] & Hie & Hi & Hd). cbn [fst snd] in *.
  exists event. subst i.
  split; [now apply enumerate_In_inv |].
  destruct (tick_distance a p event) as [d |] eqn:Ed; [| congruence].
  destruct (tick_distance_some a p event d Ed) as [H1 H2].
  auto.
Qed.

Lemma X15_cues_of_enabled_events_witness :
  exists event,
    nth_error (events (lap_tick 0.481)) 0 = Some event
    /\ kind_disabled (lap_tick 0.481) event = false.
Proof.
  destruct (X15_cues_of_enabled_events true
              (fst (run true init [lap_tick 0.4])) (lap_tick 0.481)
              {| cue_lap := 0; cue_idx := 0; cue_stage := StageA;
                 cue_forced := false |})
    as (event & H1 & H2 & _).
  - vm_compute. left. reflexivity.
  - exists event. split; assumption.
Defined.

Section PlaybackInvariant.

(** A property of the playback side that [_play_pattern] keeps. *)
Variable w : bool.
Variable P : list (Z * Pattern) * option Z -> Prop.
Hypothesis Hplay :
  forall s pat q st, P (playback s) -> P (playback (_play_pattern w s pat q st)).

Lemma trigger_playback s idx ev q f st :
  P (playback s) -> P (playback (fst (trigger w s idx ev q f st))).
Proof.
  intros H. unfold trigger. destruct (stage_flag s idx st); [exact H |].
  cbn [fst]. apply Hplay. unfold set_stage_flag.
  now destruct (_stage_state s !! idx).
Qed.

Lemma handle_stage_playback s idx ev d last a b off q pm f :
  P (playback s) ->
  P (playback (fst (_handle_stage w s idx ev d last a b off q pm f))).
Proof.
  intros H. unfold _handle_stage.
  assert (H0 : P (playback (setdefault s idx))).
  { unfold setdefault. now destruct (_stage_state s !! idx). }
  set (s0 := setdefault s idx) in *. clearbody s0.
  destruct f; [now apply trigger_playback |].
  match goal with
  | |- context [if ?c then trigger w s0 idx ev q false StageA else _] =>
      assert (H1 : P (playback (fst (if c then trigger w s0 idx ev q false StageA
                                     else (s0, [])))))
        by (destruct c; [now apply trigger_playback | exact H0]);
      destruct (if c then trigger w s0 idx ev q false StageA else (s0, []))
        as [s1 c1]
  end.
  cbn [fst] in H1.
  match goal with
  | |- context [if ?c then trigger w s1 idx ev q false StageB else _] =>
      assert (H2 : P (playback (fst (if c then trigger w s1 idx ev q false StageB
                                     else (s1, [])))))
        by (destruct c; [now apply trigger_playback | exact H1]);
      destruct (if c then trigger w s1 idx ev q false StageB else (s1, []))
        as [s2 c2]
  end.
  cbn [fst] in H2.
  match goal with
  | |- context [if ?c then trigger w s2 idx ev q false StageC else _] =>
      assert (H3 : P (playback (fst (if c then trigger w s2 idx ev q false StageC
                                     else (s2, [])))))
        by (destruct c; [now apply trigger_playback | exact H2]);
      destruct (if c then trigger w s2 idx ev q false StageC else (s2, []))
        as [s3 c3]
  end.
  exact H3.
Qed.

Lemma stage_event_playback a pm A B s idx ev d :
  P (playback s) -> P (playback (fst (stage_event w a pm A B s idx ev d))).
Proof.
  intros H. unfold stage_event.
  set (last := _last_dist_to_event s !! idx).
  pose proof (handle_stage_playback s idx ev d last A B (final_cue_offset_m a)
                (quiet_mode a) pm false H) as H1.
  destruct (_handle_stage w s idx ev d last A B (final_cue_offset_m a)
              (quiet_mode a) pm false) as [s1 c1].
  cbn [fst] in H1.
  assert (H2 : P (playback
                    (fst (match last with
                          | Some l =>
                              if Py.leb l B && Py.ltb l d
                              then _handle_stage w s1 idx ev 0.0 last A B
                                     (final_cue_offset_m a) (quiet_mode a) pm true
                              else (s1, [])
                          | None => (s1, [])
                          end)))).
  { destruct last as [l |]; [| exact H1].
    destruct (Py.leb l B && Py.ltb l d); [| exact H1].
    now apply handle_stage_playback. }
  destruct (match last with
            | Some l =>
                if Py.leb l B && Py.ltb l d
                then _handle_stage w s1 idx ev 0.0 last A B
                       (final_cue_offset_m a) (quiet_mode a) pm true
                else (s1, [])
            | None => (s1, [])
            end) as [s2 c2].
  exact H2.
Qed.

Lemma update_playback s a :
  P (playback s) -> P (playback (fst (update w s a))).
Proof.
  intros H. destruct (lap_pct a) as [p |] eqn:Hp.
  2:{ unfold update. now rewrite Hp. }
  rewrite (update_fold w s a p Hp).
  assert (H0 : P (playback (begin_tick s p))).
  { unfold begin_tick. now destruct (rollover s p). }
  generalize (@nil Cue) as log.
  revert H0. generalize (begin_tick s p) as s0.
  induction (Py.enumerate (events a)) as [| ie l IH]; intros s0 H0 log;
    [exact H0 |].
  cbn [fold_left].
  assert (H1 : P (playback (fst (tick_body w a p (s0, log) ie)))).
  { unfold tick_body. destruct (tick_distance a p (snd ie)); [| exact H0].
    cbn [fst]. now apply stage_event_playback. }
  destruct (tick_body w a p (s0, log) ie) as [s1 log1].
  now apply IH.
Qed.

Lemma run_playback (ticks : list Args) :
  forall s, P (playback s) -> P (playback (fst (run w s ticks))).
Proof.
  induction ticks as [| a rest IH]; intros s H; [exact H |].
  rewrite run_cons. cbn [fst]. apply IH. now apply update_playback.
Qed.

End PlaybackInvariant.

(** X16. With [winsound], however long the scheduler runs, the pending queue
    holds far cues (priority A) only behind its first item: a near or final
    cue empties the queue before it is put in, so at most one of them is
    pending, at the front.  Without [winsound] the scheduler never touches
    the queue or the playing priority. *)
Theorem X16_playback_queue (s : AudioCues.t) (ticks : list Args) :
  (far_behind_front (_audio_queue s) ->
   far_behind_front (_audio_queue (fst (run true s ticks))))
  /\ playback (fst (run false s ticks)) = playback s.
Proof.
  split.
  - intros H.
    apply (run_playback true (fun pb => far_behind_front (fst pb))); [| exact H].
    clear. intros s pat q st H. unfold playback in *. cbn [fst] in *.
    rewrite play_pattern_queue.
    destruct (priority_of st <=? _PRIORITY_B)%Z eqn:E; [constructor |].
    unfold far_behind_front in *.
    assert (Ep : priority_of st = _PRIORITY_A) by (destruct st; cbn in E; first [discriminate | reflexivity]).
    destruct (_audio_queue s) as [| item rest]; [constructor |].
    cbn [app tl] in *. apply Forall_app. split; [exact H |].
    repeat constructor. exact Ep.
  - apply (run_playback false (fun pb => pb = playback s)); [| reflexivity].
    intros s0 pat q st H. exact H.
Qed.

Lemma X16_playback_queue_witness :
  far_behind_front
    (_audio_queue
       (fst (run true init (map close_events_tick [0.488; 0.4988; 0.5002])))).
Proof.
  apply (proj1 (X16_playback_queue init
                  (map close_events_tick [0.488; 0.4988; 0.5002]))).
  constructor.
Defined.

(* ===================================================================== *)
(** ** The schedule does not depend on the playback side *)
(* ===================================================================== *)

Lemma schedule_play_pattern w s pat q st :
  schedule (_play_pattern w s pat q st) = schedule s.
Proof.
  destruct (play_pattern_frame w s pat q st) as (H1 & H2 & H3 & H4).
  unfold schedule. now rewrite H1, H2, H3, H4.
Qed.

Lemma schedule_trigger w s idx ev q f st :
  trigger false (schedule s) idx ev q f st
  = (schedule (fst (trigger w s idx ev q f st)), snd (trigger w s idx ev q f st)).
Proof.
  unfold trigger.
  change (stage_flag (schedule s) idx st) with (stage_flag s idx st).
  destruct (stage_flag s idx st); [reflexivity |].
  cbn [fst snd]. rewrite schedule_play_pattern.
  unfold _play_pattern, set_stage_flag.
  change (_stage_state (schedule s)) with (_stage_state s).
  now destruct (_stage_state s !! idx).
Qed.

Lemma schedule_setdefault s idx :
  setdefault (schedule s) idx = schedule (setdefault s idx).
Proof.
  unfold setdefault.
  change (_stage_state (schedule s)) with (_stage_state s).
  now destruct (_stage_state s !! idx).
Qed.

Lemma schedule_handle_stage w s idx ev d last a b off q pm f :
  _handle_stage false (schedule s) idx ev d last a b off q pm f
  = (schedule (fst (_handle_stage w s idx ev d last a b off q pm f)),
     snd (_handle_stage w s idx ev d last a b off q pm f)).
Proof.
  unfold _handle_stage. rewrite schedule_setdefault.
  set (s0 := setdefault s idx). clearbody s0.
  destruct f; [apply schedule_trigger |].
  change (stage_flag (schedule s0) idx StageA) with (stage_flag s0 idx StageA).
  destruct (crossed d last a && negb (stage_flag s0 idx StageA));
    [rewrite (schedule_trigger w s0);
     destruct (trigger w s0 idx ev q false StageA) as [s1 c1] |
     pose (s1 := s0); pose (c1 := @nil Cue); fold s1; fold c1 ];
    cbn [fst snd];
    change (stage_flag (schedule s1) idx StageB) with (stage_flag s1 idx StageB);
    (destruct (crossed d last b && negb (stage_flag s1 idx StageB));
     [rewrite (schedule_trigger w s1);
      destruct (trigger w s1 idx ev q false StageB) as [s2 c2] |
      pose (s2 := s1); pose (c2 := @nil Cue); fold s2; fold c2 ]);
    cbn [fst snd];
    change (stage_flag (schedule s2) idx StageC) with (stage_flag s2 idx StageC);
    (destruct (crossed d last (if pm then 0.001 else Py.max 0.0 off)
               && negb (stage_flag s2 idx StageC));
     [rewrite (schedule_trigger w s2);
      destruct (trigger w s2 idx ev q false StageC) as [s3 c3] | ]);
    reflexivity.
Qed.

Lemma schedule_stage_event w a pm A B s idx ev d :
  stage_event false a pm A B (schedule s) idx ev d
  = (schedule (fst (stage_event w a pm A B s idx ev d)),
     snd (stage_event w a pm A B s idx ev d)).
Proof.
  unfold stage_event.
  change (_last_dist_to_event (schedule s)) with (_last_dist_to_event s).
  set (last := _last_dist_to_event s !! idx). clearbody last.
  rewrite (schedule_handle_stage w s).
  destruct (_handle_stage w s idx ev d last A B (final_cue_offset_m a)
              (quiet_mode a) pm false) as [s1 c1].
  cbn [fst snd].
  destruct last as [l |]; [destruct (Py.leb l B && Py.ltb l d) |];
    [rewrite (schedule_handle_stage w s1);
     destruct (_handle_stage w s1 idx ev 0.0 (Some l) A B (final_cue_offset_m a)
                 (quiet_mode a) pm true) as [s2 c2] | |];
    reflexivity.
Qed.

Lemma schedule_begin_tick s p :
  begin_tick (schedule s) p = schedule (begin_tick s p).
Proof.
  unfold begin_tick.
  change (rollover (schedule s) p) with (rollover s p).
  now destruct (rollover s p).
Qed.

Lemma schedule_update w s a :
  update false (schedule s) a
  = (schedule (fst (update w s a)), snd (update w s a)).
Proof.
  destruct (lap_pct a) as [p |] eqn:Hp.
  2:{ unfold update. now rewrite Hp. }
  rewrite !(update_fold _ _ a p Hp), schedule_begin_tick.
  generalize (@nil Cue) as log. generalize (begin_tick s p) as s0.
  induction (Py.enumerate (events a)) as [| ie l IH]; intros s0 log;
    [reflexivity |].
  cbn [fold_left].
  assert (E : tick_body false a p (schedule s0, log) ie
              = (schedule (fst (tick_body w a p (s0, log) ie)),
                 snd (tick_body w a p (s0, log) ie))).
  { unfold tick_body. destruct (tick_distance a p (snd ie)); [| reflexivity].
    cbn [fst snd]. now rewrite (schedule_stage_event w). }
  rewrite E. destruct (tick_body w a p (s0, log) ie) as [s1 log1].
  apply IH.
Qed.

Lemma schedule_run w (ticks : list Args) :
  forall s,
    run false (schedule s) ticks
    = (schedule (fst (run w s ticks)), snd (run w s ticks)).
Proof.
  induction ticks as [| a rest IH]; intros s; [reflexivity |].
  rewrite !run_cons, (schedule_update w). cbn [fst snd].
  now rewrite IH.
Qed.

(** X17. Which cues fire, and when, does not depend on the playback side:
    two schedulers that agree on the stage flags, the last distances, the
    last lap fraction and the lap counter fire the same cues over the same
    ticks and agree on those fields afterwards, whether or not [winsound] is
    there and whatever their queues hold.  [reset] puts these fields back to
    their initial values and empties the queue, so after it the scheduler
    fires what a new one would fire. *)
Theorem X17_schedule_independent_of_playback (w w' : bool) (s s' : AudioCues.t)
    (ticks : list Args) :
  (schedule s = schedule s' ->
   snd (run w s ticks) = snd (run w' s' ticks)
   /\ schedule (fst (run w s ticks)) = schedule (fst (run w' s' ticks)))
  /\ schedule (reset s) = schedule init
  /\ _audio_queue (reset s) = []
  /\ snd (run w (reset s) ticks) = snd (run w' init ticks).
Proof.
  assert (H : forall s1 s2, schedule s1 = schedule s2 ->
                snd (run w s1 ticks) = snd (run w' s2 ticks)
                /\ schedule (fst (run w s1 ticks))
                   = schedule (fst (run w' s2 ticks))).
  { intros s1 s2 E.
    pose proof (schedule_run w ticks s1) as H1.
    pose proof (schedule_run w' ticks s2) as H2.
    rewrite E, H2 in H1.
    split; [exact (eq_sym (f_equal snd H1)) | exact (eq_sym (f_equal fst H1))]. }
  assert (Hreset : schedule (reset s) = schedule init) by reflexivity.
  split; [apply H |]. split; [exact Hreset |]. split.
  - unfold reset, _clear_audio_queue. cbn. apply drain_nil.
  - apply (H (reset s) init Hreset).
Qed.

Lemma X17_schedule_independent_of_playback_witness :
  snd (run true (fst (run true init (map lap_tick [0.4; 0.481]))) two_laps)
  = snd (run false
           (schedule (fst (run true init (map lap_tick [0.4; 0.481]))))
           two_laps).
Proof.
  apply (proj1 (X17_schedule_independent_of_playback true false
                  (fst (run true init (map lap_tick [0.4; 0.481])))
                  (schedule (fst (run true init (map lap_tick [0.4; 0.481]))))
                  two_laps)).
  reflexivity.
Defined.

(* ===================================================================== *)
(** ** The fraction mode *)
(* ===================================================================== *)

Lemma handle_stage_pct_mode w s idx ev d last a b off off' q f :
  _handle_stage w s idx ev d last a b off q true f
  = _handle_stage w s idx ev d last a b off' q true f.
Proof. reflexivity. Qed.

(** X18. Without a usable track length ([None], zero, or at most 1 m) a call
    of [update] works on lap fractions: what it does depends on the lap
    fraction, the events' kinds and lap fractions, the three switches and
    the quiet mode only.  The speed, the two lead times, the final-cue
    offset and the track length handed to it make no difference. *)
Theorem X18_fraction_mode_inputs (w : bool) (s : AudioCues.t) (a a' : Args) :
  distance_mode a = false ->
  distance_mode a' = false ->
  lap_pct a = lap_pct a' ->
  events a = events a' ->
  enable_brake a = enable_brake a' ->
  enable_lift a = enable_lift a' ->
  enable_power a = enable_power a' ->
  quiet_mode a = quiet_mode a' ->
  update w s a = update w s a'.
Proof.
  intros Hm Hm' Hp Hev Hb Hl Hpo Hq.
  destruct (lap_pct a) as [p |] eqn:Ep.
  2:{ unfold update. now rewrite Ep, <- Hp. }
  rewrite (update_fold w s a p Ep), (update_fold w s a' p (eq_sym Hp)), <- Hev.
  apply fold_left_ext. intros [s0 log] [idx ev].
  unfold tick_body, tick_distance, tick_thresholds, kind_disabled.
  rewrite Hm, Hm', <- Hb, <- Hl, <- Hpo. cbn [fst snd negb].
  destruct (String.eqb (kind ev) "brake" && negb (enable_brake a)
            || String.eqb (kind ev) "lift" && negb (enable_lift a)
            || String.eqb (kind ev) "power" && negb (enable_power a));
    [reflexivity |].
  unfold stage_event. rewrite <- Hq.
  now rewrite !(handle_stage_pct_mode w _ _ _ _ _ _ _ (final_cue_offset_m a)
                  (final_cue_offset_m a')).
Qed.

Lemma X18_fraction_mode_inputs_witness :
  update true init
    {| lap_pct := Some 0.495; track_len_m := None;
       events := [new_event "brake" 0.5];
       approach_a_s := 2; approach_b_s := 1; final_cue_offset_m := 0;
       enable_brake := true; enable_lift := true; enable_power := true;
       quiet_mode := false; speed_mps := Some 50 |}
  = update true init
      {| lap_pct := Some 0.495; track_len_m := Some 1;
         events := [new_event "brake" 0.5];
         approach_a_s := 5; approach_b_s := 3; final_cue_offset_m := 30;
         enable_brake := true; enable_lift := true; enable_power := true;
         quiet_mode := false; speed_mps := None |}.
Proof.
  apply X18_fraction_mode_inputs; reflexivity.
Defined.

(* ===================================================================== *)
(** ** Loading the reference lap *)
(* ===================================================================== *)

Lemma chain_app (l1 l2 : list (nat * nat)) (a b c : nat) :
  chain l1 a b -> chain l2 b c -> chain (l1 ++ l2) a c.
Proof.
  revert a. induction l1 as [| [s e] l1 IH]; intros a H1 H2; cbn in *.
  - now subst.
  - destruct H1 as (-> & Hlt & H1). repeat split; [exact Hlt |]. now apply IH.
Qed.

Lemma chain_cover (l : list (nat * nat)) (a b i : nat) :
  chain l a b -> (a <= i < b)%nat ->
  exists s e, In (s, e) l /\ (s <= i < e)%nat.
Proof.
  revert a. induction l as [| [s e] l IH]; intros a H Hi; cbn in H.
  - lia.
  - destruct H as (-> & Hlt & H).
    destruct (le_lt_dec e i) as [Hei | Hei].
    + destruct (IH e H) as (s' & e' & Hin & Hr); [lia |].
      exists s', e'. split; [now right | exact Hr].
    + exists a, e. split; [now left | lia].
Qed.

(** What the cutting loop has found after the samples 1 to [k]. *)
Lemma cut_loop_inv (l : list Q) (k : nat) :
  let r := fold_left (ReferenceLap.cut_step l) (seq 1 k) ([], 0%nat) in
  chain (fst r) 0 (snd r)
  /\ (snd r <= k)%nat
  /\ (forall s e, In (s, e) (fst r) ->
        rolls_over l e = true
        /\ (e <= k)%nat
        /\ forall i, (s < i < e)%nat -> rolls_over l i = false)
  /\ (forall i, (snd r < i <= k)%nat -> rolls_over l i = false).
Proof.
  induction k as [| k IH]; cbv zeta.
  - cbn. repeat split; try lia; intros s e [].
  - rewrite seq_S, fold_left_app. cbn [Nat.add fold_left].
    cbv zeta in IH.
    destruct (fold_left (ReferenceLap.cut_step l) (seq 1 k) ([], 0%nat))
      as [segs start].
    cbn [fst snd] in IH. destruct IH as (Hc & Hs & Hseg & Hcur).
    unfold ReferenceLap.cut_step.
    fold (rolls_over l (S k)).
    destruct (rolls_over l (S k)) eqn:Er; cbn [fst snd].
    + split; [| split; [lia | split]].
      * apply (chain_app segs [(start, S k)] 0 start (S k) Hc).
        cbn. repeat split; lia.
      * intros s e Hin. apply in_app_or in Hin as [Hin | [[= <- <-] | []]].
        -- destruct (Hseg s e Hin) as (H1 & H2 & H3).
           split; [exact H1 |]. split; [lia | exact H3].
        -- split; [exact Er |]. split; [lia |].
           intros i Hi. apply Hcur. lia.
      * intros i Hi. lia.
    + split; [exact Hc |]. split; [lia |]. split.
      * intros s e Hin. destruct (Hseg s e Hin) as (H1 & H2 & H3).
        split; [exact H1 |]. split; [lia | exact H3].
      * intros i Hi. destruct (Nat.eq_dec i (S k)) as [-> | Hne]; [exact Er |].
        apply Hcur. lia.
Qed.

Lemma cut_segments_spec (l : list Q) :
  l <> [] ->
  chain (ReferenceLap.cut_segments l) 0 (length l)
  /\ forall s e, In (s, e) (ReferenceLap.cut_segments l) ->
       (s < e <= length l)%nat
       /\ (e = length l \/ rolls_over l e = true)
       /\ forall i, (s < i < e)%nat -> rolls_over l i = false.
Proof.
  intros Hne.
  assert (Hn : (0 < length l)%nat) by (destruct l; [congruence | cbn; lia]).
  unfold ReferenceLap.cut_segments.
  pose proof (cut_loop_inv l (length l - 1)) as H. cbv zeta in H.
  destruct (fold_left (ReferenceLap.cut_step l) (seq 1 (length l - 1))
              ([], 0%nat)) as [segs start].
  cbn [fst snd] in H. destruct H as (Hc & Hs & Hseg & Hcur).
  assert (Hchain : chain (segs ++ [(start, length l)]) 0 (length l)).
  { apply (chain_app segs [(start, length l)] 0 start (length l) Hc).
    cbn. repeat split; lia. }
  split; [exact Hchain |].
  intros s e Hin. apply in_app_or in Hin as [Hin | [[= <- <-] | []]].
  - destruct (Hseg s e Hin) as (H1 & H2 & H3).
    assert (Hse : (s < e)%nat).
    { clear - Hc Hin. revert Hc Hin. generalize 0%nat as a.
      induction segs as [| [s' e'] segs IH]; intros a Hc Hin; [destruct Hin |].
      cbn in Hc. destruct Hc as (-> & Hlt & Hc).
      destruct Hin as [[= <- <-] | Hin]; [exact Hlt | now apply (IH e')]. }
    split; [lia |]. split; [now right | exact H3].
  - split; [lia |]. split; [now left |]. intros i Hi. apply Hcur. lia.
Qed.

Lemma longest_spec (seg : nat * nat) (segs : list (nat * nat)) :
  In (ReferenceLap.longest seg segs) (seg :: segs)
  /\ forall x, In x (seg :: segs) ->
       (snd x - fst x
        <= snd (ReferenceLap.longest seg segs)
           - fst (ReferenceLap.longest seg segs))%nat.
Proof.
  unfold ReferenceLap.longest.
  revert seg. induction segs as [| y segs IH]; intros seg.
  - cbn. split; [now left |]. intros x [<- | []]. lia.
  - cbn [fold_left].
    destruct (snd seg - fst seg <? snd y - fst y)%nat eqn:E.
    + apply Nat.ltb_lt in E. destruct (IH y) as [H1 H2]. split.
      * destruct H1 as [H1 | H1]; [right; left; exact H1 | right; right; exact H1].
      * intros x [<- | Hx]; [| now apply H2].
        specialize (H2 y (or_introl eq_refl)). lia.
    + apply Nat.ltb_ge in E. destruct (IH seg) as [H1 H2]. split.
      * destruct H1 as [H1 | H1]; [left; exact H1 | right; right; exact H1].
      * intros x [<- | [<- | Hx]].
        -- apply H2. now left.
        -- specialize (H2 seg (or_introl eq_refl)). lia.
        -- apply H2. now right.
Qed.

Lemma slice_length {A} (l : list A) (s e : nat) :
  (e <= length l)%nat -> length (Py.slice l s e) = (e - s)%nat.
Proof.
  intros H. unfold Py.slice. rewrite length_firstn, length_skipn. lia.
Qed.

Lemma list_max_exceeds (x : Q) (l : list Q) (b : Q) :
  Py.ltb b (Py.list_max x l) = true <-> Exists (fun y => b < y) (x :: l).
Proof.
  unfold Py.list_max. revert x. induction l as [| y l IH]; intros x; cbn [fold_left].
  - rewrite ltb_lt, Exists_cons, Exists_nil. tauto.
  - rewrite IH, !Exists_cons.
    destruct (max_cases x y) as [[Hxy ->] | [Hxy ->]].
    + split; [tauto |]. intros [H | H]; [left; lra | exact H].
    + split; [tauto |]. intros [H | [H | H]]; [tauto | left; lra | tauto].
Qed.

Lemma list_max_spec (x : Q) (l : list Q) :
  In (Py.list_max x l) (x :: l)
  /\ Forall (fun y => y <= Py.list_max x l) (x :: l).
Proof.
  unfold Py.list_max. revert x. induction l as [| y l IH]; intros x; cbn [fold_left].
  - split; [now left |]. repeat constructor. lra.
  - destruct (IH (Py.max x y)) as [H1 H2].
    inversion H2 as [| ? ? Hm Hl]; subst.
    destruct (max_cases x y) as [[Hxy E] | [Hxy E]]; rewrite E in *.
    + split; [now right |].
      constructor; [lra |]. constructor; [exact Hm | exact Hl].
    + split.
      * destruct H1 as [H1 | H1]; [now left | right; now right].
      * constructor; [exact Hm |]. constructor; [lra | exact Hl].
Qed.

(** The shape of [_load_ibt] on a file with lap fractions: the segment it
    picks, and the call of [_build_events] that it ends with. *)
Lemma load_ibt_shape (ibt : ReferenceLap.Ibt) (brake_th lift_th power_th : Q) :
  ReferenceLap.LapDistPct ibt <> [] ->
  exists s e,
    In (s, e) (ReferenceLap.cut_segments (ReferenceLap.LapDistPct ibt))
    /\ (forall x, In x (ReferenceLap.cut_segments (ReferenceLap.LapDistPct ibt)) ->
          (snd x - fst x <= e - s)%nat)
    /\ let channel (all : list Q) :=
         match all with
         | [] => repeat 0.0 (e - s)
         | _ => Py.slice all s e
         end in
       ReferenceLap._load_ibt ibt brake_th lift_th power_th
       = match
           ReferenceLap._build_events
             (ReferenceLap.mk
                (normalised (Py.slice (ReferenceLap.LapDistPct ibt) s e))
                (channel (ReferenceLap.Throttle ibt))
                (channel (ReferenceLap.Brake ibt))
                brake_th lift_th power_th [] [])
         with
         | Raise err => inl (ReferenceLap.ScanError err)
         | Ok lap =>
             inr (ReferenceLap.mkLap lap
                    (channel (ReferenceLap.SteeringWheelAngle ibt))
                    (match ReferenceLap.Gear ibt with
                     | [] => repeat 0%Z (e - s)
                     | _ => Py.slice (ReferenceLap.Gear ibt) s e
                     end)
                    (channel (ReferenceLap.Speed ibt))
                    (match ReferenceLap.LapDist ibt with
                     | [] => None
                     | _ =>
                         match Py.slice (ReferenceLap.LapDist ibt) s e with
                         | [] => None
                         | d :: rest =>
                             if Py.ltb 0 (Py.list_max d rest)
                             then Some (Py.list_max d rest) else None
                         end
                     end))
         end.
Proof.
  intros Hne.
  destruct (cut_segments_spec _ Hne) as [Hchain _].
  unfold ReferenceLap._load_ibt.
  destruct (ReferenceLap.LapDistPct ibt) as [| q0 all0] eqn:Eall; [congruence |].
  rewrite <- Eall in *.
  destruct (ReferenceLap.cut_segments (ReferenceLap.LapDistPct ibt))
    as [| seg segs] eqn:Eseg.
  { cbn in Hchain. rewrite Eall in Hchain. discriminate. }
  destruct (longest_spec seg segs) as [Hin Hmax].
  destruct (ReferenceLap.longest seg segs) as [s e]. cbn [fst snd] in Hmax.
  exists s, e. split; [exact Hin |]. split; [exact Hmax |]. reflexivity.
Qed.

(** A file whose throttle and brake channels are missing or complete loads,
    and every channel of the lap has the length of its lap fractions. *)
Lemma load_ibt_lengths (ibt : ReferenceLap.Ibt) (brake_th lift_th power_th : Q) :
  let n := length (ReferenceLap.LapDistPct ibt) in
  ReferenceLap.LapDistPct ibt <> [] ->
  ReferenceLap.Throttle ibt = []
  \/ (n <= length (ReferenceLap.Throttle ibt))%nat ->
  ReferenceLap.Brake ibt = []
  \/ (n <= length (ReferenceLap.Brake ibt))%nat ->
  exists lap,
    ReferenceLap._load_ibt ibt brake_th lift_th power_th = inr lap
    /\ let m := length (ReferenceLap.lap_pct (ReferenceLap.core lap)) in
       (0 < m)%nat
       /\ length (ReferenceLap.throttle (ReferenceLap.core lap)) = m
       /\ length (ReferenceLap.brake (ReferenceLap.core lap)) = m
       /\ (ReferenceLap.SteeringWheelAngle ibt = []
           \/ (n <= length (ReferenceLap.SteeringWheelAngle ibt))%nat ->
           length (ReferenceLap.steering lap) = m)
       /\ (ReferenceLap.Gear ibt = []
           \/ (n <= length (ReferenceLap.Gear ibt))%nat ->
           length (ReferenceLap.gear lap) = m)
       /\ (ReferenceLap.Speed ibt = []
           \/ (n <= length (ReferenceLap.Speed ibt))%nat ->
           length (ReferenceLap.speed lap) = m)
       /\ ReferenceLap.brake_threshold (ReferenceLap.core lap) = brake_th
       /\ ReferenceLap.lift_threshold (ReferenceLap.core lap) = lift_th
       /\ ReferenceLap.power_threshold (ReferenceLap.core lap) = power_th.
Proof.
  cbv zeta. intros Hne Hthr Hbrk.
  destruct (load_ibt_shape ibt brake_th lift_th power_th Hne)
    as (s & e & Hin & _ & Eload).
  cbv zeta in Eload. rewrite Eload. clear Eload.
  destruct (cut_segments_spec _ Hne) as [_ Hseg].
  destruct (Hseg s e Hin) as (Hse & _ & _).
  assert (Hnorm : length (normalised (Py.slice (ReferenceLap.LapDistPct ibt) s e))
                  = (e - s)%nat).
  { unfold normalised.
    destruct (Py.slice (ReferenceLap.LapDistPct ibt) s e) as [| x rest] eqn:Es.
    - rewrite <- Es. apply slice_length. lia.
    - destruct (Py.ltb 1.5 (Py.list_max x rest));
        rewrite ?length_map, <- Es; apply slice_length; lia. }
  assert (Hch : forall all : list Q,
             all = [] \/ (length (ReferenceLap.LapDistPct ibt) <= length all)%nat ->
             length (match all with
                     | [] => repeat 0.0 (e - s)
                     | _ => Py.slice all s e
                     end) = (e - s)%nat).
  { intros all [-> | H]; [apply repeat_length |].
    destruct all as [| y all'] eqn:E; [apply repeat_length |].
    rewrite <- E in *. apply slice_length. lia. }
  set (self := ReferenceLap.mk _ _ _ brake_th lift_th power_th [] []).
  destruct (build_events_succeeds self) as [r Hr].
  { right. unfold self. cbn [ReferenceLap.lap_pct ReferenceLap.brake
                               ReferenceLap.throttle].
    rewrite Hnorm, (Hch _ Hthr), (Hch _ Hbrk). lia. }
  rewrite Hr.
  destruct (build_events_returns self r Hr) as (_ & _ & st & _ & Er).
  eexists. split; [reflexivity |].
  cbn [ReferenceLap.core ReferenceLap.steering ReferenceLap.gear
         ReferenceLap.speed].
  rewrite Er. lap_fields. unfold self.
  cbn [ReferenceLap.lap_pct ReferenceLap.brake ReferenceLap.throttle
         ReferenceLap.brake_threshold ReferenceLap.lift_threshold
         ReferenceLap.power_threshold].
  rewrite Hnorm, (Hch _ Hthr), (Hch _ Hbrk).
  split; [lia |]. split; [reflexivity |]. split; [reflexivity |].
  split; [intros H; now apply Hch |]. split; [| split; [| repeat split]].
  - intros [-> | H]; [apply repeat_length |].
    destruct (ReferenceLap.Gear ibt) as [| y all'] eqn:E; [apply repeat_length |].
    rewrite <- E in *. apply slice_length. lia.
  - intros H; now apply Hch.
Qed.

(** X19. [_load_ibt] raises [ValueError] when the file has no lap fractions.
    Otherwise, if the throttle and the brake channel are each missing or at
    least as long as the lap fractions, it returns a reference lap that has
    at least one sample and as many throttle and brake samples as lap
    fractions (zeros for a missing channel), with the thresholds it was
    given; the same holds for the steering, gear and speed channels when
    they are missing or long enough. *)
Theorem X19_load_ibt_result (ibt : ReferenceLap.Ibt)
    (brake_th lift_th power_th : Q) :
  let n := length (ReferenceLap.LapDistPct ibt) in
  (ReferenceLap.LapDistPct ibt = [] ->
   ReferenceLap._load_ibt ibt brake_th lift_th power_th
   = inl ReferenceLap.ValueError)
  /\ (ReferenceLap.LapDistPct ibt <> [] ->
      ReferenceLap.Throttle ibt = []
      \/ (n <= length (ReferenceLap.Throttle ibt))%nat ->
      ReferenceLap.Brake ibt = []
      \/ (n <= length (ReferenceLap.Brake ibt))%nat ->
      exists lap,
        ReferenceLap._load_ibt ibt brake_th lift_th power_th = inr lap
        /\ let m := length (ReferenceLap.lap_pct (ReferenceLap.core lap)) in
           (0 < m)%nat
           /\ length (ReferenceLap.throttle (ReferenceLap.core lap)) = m
           /\ length (ReferenceLap.brake (ReferenceLap.core lap)) = m
           /\ (ReferenceLap.SteeringWheelAngle ibt = []
               \/ (n <= length (ReferenceLap.SteeringWheelAngle ibt))%nat ->
               length (ReferenceLap.steering lap) = m)
           /\ (ReferenceLap.Gear ibt = []
               \/ (n <= length (ReferenceLap.Gear ibt))%nat ->
               length (ReferenceLap.gear lap) = m)
           /\ (ReferenceLap.Speed ibt = []
               \/ (n <= length (ReferenceLap.Speed ibt))%nat ->
               length (ReferenceLap.speed lap) = m)
           /\ ReferenceLap.brake_threshold (ReferenceLap.core lap) = brake_th
           /\ ReferenceLap.lift_threshold (ReferenceLap.core lap) = lift_th
           /\ ReferenceLap.power_threshold (ReferenceLap.core lap) = power_th).
Proof.
  cbv zeta. split.
  - intros E. unfold ReferenceLap._load_ibt. now rewrite E.
  - apply load_ibt_lengths.
Qed.

Lemma X19_load_ibt_result_witness :
  exists lap,
    ReferenceLap._load_ibt three_laps_ibt 0.1 0.2 0.7 = inr lap
    /\ length (ReferenceLap.throttle (ReferenceLap.core lap))
       = length (ReferenceLap.lap_pct (ReferenceLap.core lap)).
Proof.
  destruct (proj2 (X19_load_ibt_result three_laps_ibt 0.1 0.2 0.7))
    as (lap & Hl & _ & Ht & _).
  - discriminate.
  - now left.
  - now left.
  - exists lap. split; [exact Hl | exact Ht].
Defined.

(** X20. The reference lap that [_load_ibt] returns holds the samples of one
    stretch [s, e) of the file, the lap fractions divided by 100 when one of
    the stretch exceeds 1.5 and as they are when none does.  Inside the
    stretch the lap fraction never drops by more than 0.5 from one sample to
    the next, and no stretch of the file with that property is longer.  A
    track length, when the lap has one, is a positive lap distance of the
    stretch, and the greatest of them. *)
Theorem X20_load_ibt_longest_lap (ibt : ReferenceLap.Ibt)
    (brake_th lift_th power_th : Q) (lap : ReferenceLap.Lap) :
  ReferenceLap._load_ibt ibt brake_th lift_th power_th = inr lap ->
  let all := ReferenceLap.LapDistPct ibt in
  exists s e,
    (s < e <= length all)%nat
    /\ (Forall (fun pct => pct <= 1.5) (Py.slice all s e) ->
        ReferenceLap.lap_pct (ReferenceLap.core lap) = Py.slice all s e)
    /\ (Exists (fun pct => 1.5 < pct) (Py.slice all s e) ->
        ReferenceLap.lap_pct (ReferenceLap.core lap)
        = map (fun pct => pct / 100.0) (Py.slice all s e))
    /\ (forall i, (s < i < e)%nat -> rolls_over all i = false)
    /\ (forall a b,
          (a < b <= length all)%nat ->
          (forall i, (a < i < b)%nat -> rolls_over all i = false) ->
          (b - a <= e - s)%nat)
    /\ (forall d,
          ReferenceLap.track_length_m lap = Some d ->
          0 < d
          /\ In d (Py.slice (ReferenceLap.LapDist ibt) s e)
          /\ Forall (fun x => x <= d) (Py.slice (ReferenceLap.LapDist ibt) s e)).
Proof.
  intros Hload. cbv zeta.
  assert (Hne : ReferenceLap.LapDistPct ibt <> []).
  { intros E. unfold ReferenceLap._load_ibt in Hload. rewrite E in Hload.
    discriminate. }
  destruct (load_ibt_shape ibt brake_th lift_th power_th Hne)
    as (s & e & Hin & Hmax & Eload).
  cbv zeta in Eload. rewrite Eload in Hload. clear Eload.
  destruct (cut_segments_spec _ Hne) as [Hchain Hseg].
  destruct (Hseg s e Hin) as (Hse & _ & Hfree).
  set (self := ReferenceLap.mk _ _ _ brake_th lift_th power_th [] []) in Hload.
  destruct (ReferenceLap._build_events self) as [r | err] eqn:Hr; [| discriminate].
  injection Hload as <-.
  destruct (build_events_returns self r Hr) as (_ & _ & st & _ & Er).
  assert (Elap : ReferenceLap.lap_pct r
                 = normalised (Py.slice (ReferenceLap.LapDistPct ibt) s e))
    by now rewrite Er.
  exists s, e. cbn [ReferenceLap.core ReferenceLap.track_length_m].
  rewrite Elap.
  split; [exact Hse |]. split; [| split; [| split; [exact Hfree | split]]].
  - intros Hall. unfold normalised.
    destruct (Py.slice (ReferenceLap.LapDistPct ibt) s e) as [| x rest];
      [reflexivity |].
    destruct (Py.ltb 1.5 (Py.list_max x rest)) eqn:E; [| reflexivity].
    apply list_max_exceeds in E. apply List.Exists_exists in E as (y & Hy & Hlt).
    rewrite List.Forall_forall in Hall. specialize (Hall y Hy). lra.
  - intros Hex. unfold normalised.
    destruct (Py.slice (ReferenceLap.LapDistPct ibt) s e) as [| x rest];
      [inversion Hex |].
    apply list_max_exceeds in Hex. now rewrite Hex.
  - intros a b Hab Hfree'.
    destruct (chain_cover _ 0 (length (ReferenceLap.LapDistPct ibt)) a Hchain)
      as (s' & e' & Hin' & Ha); [lia |].
    destruct (Hseg s' e' Hin') as (Hse' & Hend & _).
    specialize (Hmax (s', e') Hin'). cbn [fst snd] in Hmax.
    destruct (le_lt_dec b e') as [Hbe | Hbe]; [lia |].
    destruct Hend as [-> | Hroll]; [lia |].
    rewrite Hfree' in Hroll by lia. discriminate.
  - intros d Hd.
    destruct (ReferenceLap.LapDist ibt) as [| d0 dist0] eqn:Edist; [discriminate |].
    rewrite <- Edist in *.
    destruct (Py.slice (ReferenceLap.LapDist ibt) s e) as [| x rest];
      [discriminate |].
    destruct (Py.ltb 0 (Py.list_max x rest)) eqn:E; [| discriminate].
    injection Hd as <-. py_bool.
    destruct (list_max_spec x rest) as [H1 H2]. auto.
Qed.

Lemma X20_load_ibt_longest_lap_witness :
  exists lap s e,
    ReferenceLap._load_ibt three_laps_ibt 0.1 0.2 0.7 = inr lap
    /\ (s < e <= 11)%nat
    /\ forall i, (s < i < e)%nat ->
         rolls_over (ReferenceLap.LapDistPct three_laps_ibt) i = false.
Proof.
  assert (H : exists lap,
             ReferenceLap._load_ibt three_laps_ibt 0.1 0.2 0.7 = inr lap)
    by (eexists; vm_compute; reflexivity).
  destruct H as [lap H].
  destruct (X20_load_ibt_longest_lap three_laps_ibt 0.1 0.2 0.7 lap H)
    as (s & e & Hse & _ & _ & Hfree & _).
  exists lap, s, e. split; [exact H |]. split; [exact Hse | exact Hfree].
Defined.

(* ===================================================================== *)
(** ** The points of a telemetry line *)
(* ===================================================================== *)

Lemma points_within_app (low high : Q) (l : list Q) (x y : Q) :
  points_within low high l -> low <= y <= high ->
  points_within low high (l ++ [x; y]).
Proof.
  revert l. fix IH 1. intros [| a [| b l]] H Hy; cbn in *.
  - auto.
  - destruct H.
  - destruct H as [Hb H]. split; [exact Hb |]. now apply IH.
Qed.

Lemma point_step_inv key origin_x bottom height cutoff flow_window_s split_x
    series_offset_s acc sample acc' :
  0 <= height ->
  OverlayWindow.point_step key origin_x bottom height cutoff flow_window_s
    split_x series_offset_s acc sample = inr acc' ->
  Forall (fun pts => (4 <= length pts)%nat
                     /\ points_within (bottom - height) bottom pts) (fst acc) ->
  points_within (bottom - height) bottom (snd acc) ->
  Forall (fun pts => (4 <= length pts)%nat
                     /\ points_within (bottom - height) bottom pts) (fst acc')
  /\ points_within (bottom - height) bottom (snd acc').
Proof.
  intros Hh E Hsegs Hcur. destruct acc as [segments current].
  unfold OverlayWindow.point_step in E. cbn [fst snd] in *.
  destruct (sample !! key) as [[value |] |].
  - destruct (sample !! "t") as [[t |] |]; [| | discriminate].
    + destruct (Py.eqb flow_window_s 0); [discriminate |].
      injection E as <-. cbn [fst snd]. split; [exact Hsegs |].
      apply points_within_app; [exact Hcur |].
      destruct (clamp_cases value 0.0 1.0) as [[_ Ec] | [[Hv Ec] | [_ Ec]]];
        [lra | | |]; rewrite Ec.
      * lra.
      * assert (0 <= value * height) by (apply Qmult_le_0_compat; lra).
        assert (0 <= (1 - value) * height) by (apply Qmult_le_0_compat; lra).
        lra.
      * lra.
    + injection E as <-. auto.
  - assert (E' : acc' = (if (4 <=? length current)%nat
                         then segments ++ [current] else segments, []))
      by congruence.
    subst acc'. cbn [fst snd]. split; [| exact I].
    destruct (4 <=? length current)%nat eqn:E4; [| exact Hsegs].
    apply Nat.leb_le in E4. apply Forall_app. split; [exact Hsegs |].
    repeat constructor; assumption.
  - assert (E' : acc' = (if (4 <=? length current)%nat
                         then segments ++ [current] else segments, []))
      by congruence.
    subst acc'. cbn [fst snd]. split; [| exact I].
    destruct (4 <=? length current)%nat eqn:E4; [| exact Hsegs].
    apply Nat.leb_le in E4. apply Forall_app. split; [exact Hsegs |].
    repeat constructor; assumption.
Qed.

(** X21. Every point list that [_build_line_points] returns holds at least
    two points, as pairs of an [x] and a [y], and with a height that is not
    negative every [y] lies between [bottom - height] and [bottom]: values
    outside 0 to 1 are drawn at the edge of the band. *)
Theorem X21_build_line_points_segments (window : list OverlayWindow.Sample)
    (key : string)
    (origin_x bottom height cutoff flow_window_s split_x series_offset_s : Q)
    (segments : list (list Q)) :
  0 <= height ->
  OverlayWindow._build_line_points window key origin_x bottom height cutoff
    flow_window_s split_x series_offset_s = inr segments ->
  Forall (fun points =>
            (4 <= length points)%nat
            /\ points_within (bottom - height) bottom points)
    segments.
Proof.
  intros Hh. unfold OverlayWindow._build_line_points.
  set (step := OverlayWindow.point_step key origin_x bottom height cutoff
                 flow_window_s split_x series_offset_s).
  assert (H : forall acc acc',
             OverlayWindow.point_loop step window acc = inr acc' ->
             Forall (fun pts => (4 <= length pts)%nat
                                /\ points_within (bottom - height) bottom pts)
               (fst acc) ->
             points_within (bottom - height) bottom (snd acc) ->
             Forall (fun pts => (4 <= length pts)%nat
                                /\ points_within (bottom - height) bottom pts)
               (fst acc')
             /\ points_within (bottom - height) bottom (snd acc')).
  { induction window as [| sample window IH]; intros acc acc' E Hs Hc.
    - cbn in E. injection E as <-. auto.
    - cbn [OverlayWindow.point_loop] in E.
      destruct (step acc sample) as [err | acc1] eqn:E1; [discriminate |].
      destruct (point_step_inv _ _ _ _ _ _ _ _ _ _ _ Hh E1 Hs Hc) as [Hs1 Hc1].
      exact (IH acc1 acc' E Hs1 Hc1). }
  destruct (OverlayWindow.point_loop step window ([], [])) as [err | [segs cur]] eqn:E;
    [discriminate |].
  intros Hret.
  assert (E' : segments = if (4 <=? length cur)%nat then segs ++ [cur] else segs)
    by congruence.
  subst segments. clear Hret.
  destruct (H _ _ E) as [Hs Hc]; [constructor | exact I |].
  cbn [fst snd] in *.
  destruct (4 <=? length cur)%nat eqn:E4; [| exact Hs].
  apply Nat.leb_le in E4. apply Forall_app. split; [exact Hs |].
  repeat constructor; assumption.
Qed.

Lemma X21_build_line_points_segments_witness :
  exists segments,
    OverlayWindow._build_line_points
      [throttle_sample 1 0.2; throttle_sample 2 1.4; throttle_sample 3 0.5]
      "throttle" 20 200 150 0 10 600 0 = inr segments
    /\ Forall (fun points =>
                 (4 <= length points)%nat /\ points_within (200 - 150) 200 points)
         segments.
Proof.
  assert (H : exists segments,
             OverlayWindow._build_line_points
               [throttle_sample 1 0.2; throttle_sample 2 1.4;
                throttle_sample 3 0.5]
               "throttle" 20 200 150 0 10 600 0 = inr segments)
    by (eexists; vm_compute; reflexivity).
  destruct H as [segments H]. exists segments. split; [exact H |].
  refine (X21_build_line_points_segments _ _ _ _ _ _ _ _ _ _ _ H).
  vm_compute. discriminate.
Defined.

Lemma point_loop_full key origin_x bottom height cutoff flow_window_s split_x
    series_offset_s (window : list OverlayWindow.Sample) (values ts : list Q) :
  ~ flow_window_s == 0 ->
  map (fun sample => sample !! key) window = map (fun v => Some (Some v)) values ->
  map (fun sample => sample !! "t") window = map (fun t => Some (Some t)) ts ->
  forall segments current,
    OverlayWindow.point_loop
      (OverlayWindow.point_step key origin_x bottom height cutoff flow_window_s
         split_x series_offset_s)
      window (segments, current)
    = inr (segments,
           current
           ++ concat (map (fun vt =>
                             line_point origin_x bottom height cutoff
                               flow_window_s split_x series_offset_s
                               (fst vt) (snd vt))
                        (combine values ts))).
Proof.
  intros Hfw. revert values ts.
  induction window as [| sample window IH]; intros values ts Hv Ht segments current.
  - destruct values; [| discriminate]. cbn. now rewrite app_nil_r.
  - destruct values as [| v values]; [discriminate |].
    destruct ts as [| t ts]; [discriminate |].
    cbn [map] in Hv, Ht. injection Hv as Hv0 Hv. injection Ht as Ht0 Ht.
    cbn [OverlayWindow.point_loop]. unfold OverlayWindow.point_step at 1.
    rewrite Hv0, Ht0.
    assert (E : Py.eqb flow_window_s 0 = false) by now apply eqb_neq.
    rewrite E. rewrite (IH values ts Hv Ht).
    cbn [combine map concat fst snd]. unfold line_point at 2.
    now rewrite <- app_assoc.
Qed.

(** X22. [_build_line_points] raises [KeyError] only on a sample without a
    ["t"] entry and divides by the flow window only: with a flow window that
    is not zero, on a window in which every sample has a value for the key
    and a time stamp, it returns a single line with one point per sample, in
    the order of the samples, when there are at least two samples, and no
    line when there are fewer. *)
Theorem X22_build_line_points_unbroken (window : list OverlayWindow.Sample)
    (key : string)
    (origin_x bottom height cutoff flow_window_s split_x series_offset_s : Q)
    (values ts : list Q) :
  ~ flow_window_s == 0 ->
  map (fun sample => sample !! key) window = map (fun v => Some (Some v)) values ->
  map (fun sample => sample !! "t") window = map (fun t => Some (Some t)) ts ->
  let points :=
    concat (map (fun vt =>
                   line_point origin_x bottom height cutoff flow_window_s
                     split_x series_offset_s (fst vt) (snd vt))
              (combine values ts)) in
  length points = (2 * length window)%nat
  /\ OverlayWindow._build_line_points window key origin_x bottom height cutoff
       flow_window_s split_x series_offset_s
     = inr (if (2 <=? length window)%nat then [points] else []).
Proof.
  intros Hfw Hv Ht. cbv zeta.
  assert (Hlen : length (concat
                           (map (fun vt =>
                                   line_point origin_x bottom height cutoff
                                     flow_window_s split_x series_offset_s
                                     (fst vt) (snd vt))
                              (combine values ts)))
                 = (2 * length window)%nat).
  { assert (Lv : length values = length window).
    { apply (f_equal (@length _)) in Hv. rewrite !length_map in Hv. lia. }
    assert (Lt : length ts = length window).
    { apply (f_equal (@length _)) in Ht. rewrite !length_map in Ht. lia. }
    rewrite <- Lv. clear - Lv Lt. rewrite <- Lt in Lv. clear Lt.
    revert ts Lv. induction values as [| v values IH]; intros [| t ts] Lv;
      try discriminate; [reflexivity |].
    cbn [combine map concat]. rewrite length_app, IH by (cbn in Lv; lia).
    cbn. lia. }
  split; [exact Hlen |].
  unfold OverlayWindow._build_line_points.
  rewrite (point_loop_full _ _ _ _ _ _ _ _ window values ts Hfw Hv Ht).
  cbn [app]. rewrite Hlen.
  destruct (2 <=? length window)%nat eqn:E2.
  - apply Nat.leb_le in E2.
    assert (E4 : (4 <=? 2 * length window)%nat = true) by (apply Nat.leb_le; lia).
    now rewrite E4.
  - apply Nat.leb_gt in E2.
    assert (E4 : (4 <=? 2 * length window)%nat = false) by (apply Nat.leb_gt; lia).
    now rewrite E4.
Qed.

Lemma X22_build_line_points_unbroken_witness :
  OverlayWindow._build_line_points
    [throttle_sample 1 0.2; throttle_sample 2 1.4] "throttle" 20 200 150 0 10
    600 0
  = inr [line_point 20 200 150 0 10 600 0 0.2 1
         ++ line_point 20 200 150 0 10 600 0 1.4 2 ++ []].
Proof.
  apply (proj2 (X22_build_line_points_unbroken
                  [throttle_sample 1 0.2; throttle_sample 2 1.4] "throttle"
                  20 200 150 0 10 600 0 [0.2; 1.4] [1; 2]
                  ltac:(discriminate) eq_refl eq_refl)).
Defined.

(** X23. On a file whose channels are each missing or at least as long as
    the lap fractions, the reference lap loads and every query that the
    overlay makes on it returns a value for every lap fraction: the
    interpolated throttle, brake and speed, and the gear. *)
Theorem X23_loaded_lap_answers_queries (ibt : ReferenceLap.Ibt)
    (brake_th lift_th power_th pct : Q) :
  let n := length (ReferenceLap.LapDistPct ibt) in
  ReferenceLap.LapDistPct ibt <> [] ->
  ReferenceLap.Throttle ibt = []
  \/ (n <= length (ReferenceLap.Throttle ibt))%nat ->
  ReferenceLap.Brake ibt = []
  \/ (n <= length (ReferenceLap.Brake ibt))%nat ->
  ReferenceLap.Gear ibt = []
  \/ (n <= length (ReferenceLap.Gear ibt))%nat ->
  ReferenceLap.Speed ibt = []
  \/ (n <= length (ReferenceLap.Speed ibt))%nat ->
  exists lap throttle brake speed gear,
    ReferenceLap._load_ibt ibt brake_th lift_th power_th = inr lap
    /\ ReferenceLap.ref_at_pct (ReferenceLap.core lap)
         (ReferenceLap.throttle (ReferenceLap.core lap)) pct = Ok throttle
    /\ ReferenceLap.ref_at_pct (ReferenceLap.core lap)
         (ReferenceLap.brake (ReferenceLap.core lap)) pct = Ok brake
    /\ ReferenceLap.ref_at_pct (ReferenceLap.core lap)
         (ReferenceLap.speed lap) pct = Ok speed
    /\ ReferenceLap.ref_gear_at_pct lap pct = Ok gear.
Proof.
  cbv zeta. intros Hne Hthr Hbrk Hgear Hspeed.
  destruct (load_ibt_lengths ibt brake_th lift_th power_th Hne Hthr Hbrk)
    as (lap & Hload & Hm & Ht & Hb & _ & Hg & Hs & _).
  specialize (Hg Hgear). specialize (Hs Hspeed).
  assert (Hlap : ReferenceLap.lap_pct (ReferenceLap.core lap) <> []).
  { intros E. rewrite E in Hm. cbn in Hm. lia. }
  destruct (ref_at_pct_neighbours (ReferenceLap.core lap) _ pct Ht Hlap)
    as (throttle & Hq1 & _).
  destruct (ref_at_pct_neighbours (ReferenceLap.core lap) _ pct Hb Hlap)
    as (brake & Hq2 & _).
  destruct (ref_at_pct_neighbours (ReferenceLap.core lap) _ pct Hs Hlap)
    as (speed & Hq3 & _).
  assert (Hg' : length (map inject_Z (ReferenceLap.gear lap))
                = length (ReferenceLap.lap_pct (ReferenceLap.core lap)))
    by now rewrite length_map.
  destruct (ref_at_pct_neighbours (ReferenceLap.core lap) _ pct Hg' Hlap)
    as (g & Hq4 & _).
  exists lap, throttle, brake, speed, (Py.round g).
  repeat split; try assumption.
  unfold ReferenceLap.ref_gear_at_pct. now rewrite Hq4.
Qed.

Lemma X23_loaded_lap_answers_queries_witness :
  exists lap speed,
    ReferenceLap._load_ibt three_laps_ibt 0.1 0.2 0.7 = inr lap
    /\ ReferenceLap.ref_at_pct (ReferenceLap.core lap) (ReferenceLap.speed lap)
         0.42 = Ok speed.
Proof.
  destruct (X23_loaded_lap_answers_queries three_laps_ibt 0.1 0.2 0.7 0.42)
    as (lap & _ & _ & speed & _ & Hl & _ & _ & Hs & _);
    [discriminate | now left .. |].
  exists lap, speed. split; [exact Hl | exact Hs].
Defined.

(* ===================================================================== *)
(** ** The lap counter of the scheduler and the unwrapper *)
(* ===================================================================== *)

Lemma rollover_drop (s : AudioCues.t) (last p : Q) :
  _last_lap_pct s = Some last ->
  rollover s p = Py.ltb (p - last) (-0.5).
Proof.
  intros H. unfold rollover. rewrite H.
  destruct (Py.ltb p (last - 0.5)) eqn:E1, (Py.ltb (p - last) (-0.5)) eqn:E2;
    try reflexivity; py_bool; lra.
Qed.

Lemma update_lap_id w s a p :
  lap_pct a = Some p ->
  _lap_id (fst (update w s a))
  = (_lap_id s + if rollover s p then 1 else 0)%Z.
Proof.
  intros Hp. destruct (update_advances w s a p Hp) as (-> & _).
  unfold begin_tick. destruct (rollover s p); cbn; lia.
Qed.

Lemma run_lap_id w (ticks : list Args) :
  forall (s : AudioCues.t) (last : Q) (pcts : list Q),
    _last_lap_pct s = Some last ->
    map lap_pct ticks = map Some pcts ->
    _lap_id (fst (run w s ticks)) = (_lap_id s + wraps last pcts)%Z
    /\ _last_lap_pct (fst (run w s ticks)) = Some (List.last pcts last).
Proof.
  induction ticks as [| a ticks IH]; intros s last pcts Hlast Hmap.
  - destruct pcts; [| discriminate]. cbn. split; [lia | exact Hlast].
  - destruct pcts as [| p pcts]; [discriminate |].
    cbn [map] in Hmap. injection Hmap as Hp Hmap.
    rewrite run_cons. cbn [fst].
    destruct (IH (fst (update w s a)) p pcts
                (update_last_lap_pct w s a p Hp) Hmap) as [H1 H2].
    rewrite H1, H2, (update_lap_id w s a p Hp), (rollover_drop s last p Hlast).
    cbn [wraps]. rewrite last_cons. split; [lia | reflexivity].
Qed.

(** X24. Fed the same lap fractions, the scheduler and the unwrapper count
    the same laps: after ticks with the lap fractions [p0 :: pcts], the lap
    counter of a new scheduler is the number of steps on which the fraction
    dropped by more than 0.5, and, on a positive track length, the unwrapped
    distance of a new unwrapper is that lap counter plus the last lap
    fraction, times the track length. *)
Theorem X24_lap_counter_and_unwrapper (w : bool) (ticks : list Args)
    (p0 : Q) (pcts : list Q) (track_len_m : Q) :
  map lap_pct ticks = map Some (p0 :: pcts) ->
  0 < track_len_m ->
  let s := fst (run w init ticks) in
  let app := fst (NishizumiApp.feed NishizumiApp.unset track_len_m (p0 :: pcts)) in
  _lap_id s = wraps p0 pcts
  /\ _last_lap_pct s = Some (List.last pcts p0)
  /\ NishizumiApp.last_live_lap_pct app = Some (List.last pcts p0)
  /\ exists u,
       NishizumiApp.live_unwrapped_m app = Some u
       /\ u == (inject_Z (_lap_id s) + List.last pcts p0) * track_len_m.
Proof.
  intros Hmap Hlen. cbv zeta.
  destruct ticks as [| a ticks]; [discriminate |].
  cbn [map] in Hmap. injection Hmap as Hp Hmap.
  rewrite run_cons. cbn [fst].
  destruct (run_lap_id w ticks (fst (update w init a)) p0 pcts
              (update_last_lap_pct w init a p0 Hp) Hmap) as [H1 H2].
  rewrite H1, H2, (update_lap_id w init a p0 Hp).
  change (rollover init p0) with false. cbn [_lap_id init].
  split; [lia |]. split; [reflexivity |].
  set (self1 := {| NishizumiApp.last_live_lap_pct := Some p0;
                   NishizumiApp.live_unwrapped_m := Some (p0 * track_len_m) |}).
  assert (E : Py.leb track_len_m 0 = false) by (apply leb_gt; lra).
  assert (Eseed : NishizumiApp._update_live_unwrapped NishizumiApp.unset p0
                    track_len_m = (self1, Some (p0 * track_len_m))).
  { unfold NishizumiApp._update_live_unwrapped. now rewrite E. }
  cbn [NishizumiApp.feed]. rewrite Eseed.
  destruct (feed_wraps track_len_m pcts Hlen self1 p0 (p0 * track_len_m)
              eq_refl eq_refl) as (F1 & _ & u' & F3 & _ & F5).
  cbv zeta in *.
  destruct (NishizumiApp.feed self1 track_len_m pcts) as [self2 rs].
  cbn [fst snd] in *.
  split; [exact F1 |]. exists u'. split; [exact F3 |].
  rewrite F5. replace (0 + 0 + wraps p0 pcts)%Z with (wraps p0 pcts) by lia.
  ring.
Qed.

Lemma X24_lap_counter_and_unwrapper_witness :
  _lap_id (fst (run true init two_laps)) = 1%Z.
Proof.
  exact (proj1 (X24_lap_counter_and_unwrapper true two_laps 0.4
                  [0.481; 0.492; 0.4995; 0.5005; 0.9;
                   0.1; 0.481; 0.492; 0.4995; 0.5005]
                  5000 eq_refl eq_refl)).
Defined.

(* ===================================================================== *)
(** ** The cues of one event on one tick *)
(* ===================================================================== *)

Lemma trigger_effect w s idx ev q f st :
  is_Some (_stage_state s !! idx) ->
  snd (trigger w s idx ev q f st)
  = (if stage_flag s idx st then []
     else [{| cue_lap := _lap_id s; cue_idx := idx; cue_stage := st;
              cue_forced := f |}])
  /\ (forall i st',
        stage_flag (fst (trigger w s idx ev q f st)) i st'
        = bool_decide (i = idx /\ st' = st) || stage_flag s i st')
  /\ _lap_id (fst (trigger w s idx ev q f st)) = _lap_id s
  /\ _last_dist_to_event (fst (trigger w s idx ev q f st)) = _last_dist_to_event s
  /\ is_Some (_stage_state (fst (trigger w s idx ev q f st)) !! idx).
Proof.
  intros He.
  destruct (trigger_spec w s idx ev q f st He) as ((Hl & Hm & Hf) & Hd & Hs & Hc & Hset).
  split; [exact Hc |]. split; [| auto].
  intros i st'.
  destruct (decide (i = idx /\ st' = st)) as [[-> ->] | Hne].
  - rewrite bool_decide_eq_true_2 by tauto. exact Hset.
  - rewrite bool_decide_eq_false_2 by exact Hne. cbn [orb].
    destruct (stage_flag s i st') eqn:E; [now apply Hm |].
    specialize (Hf (_lap_id s) i st').
    rewrite Hc in Hf.
    destruct (stage_flag s idx st).
    + rewrite fired_nil in Hf.
      rewrite bool_decide_eq_true_2 in Hf by reflexivity. rewrite E in Hf.
      now destruct (stage_flag (fst (trigger w s idx ev q f st)) i st').
    + rewrite fired_single in Hf. cbn [cue_lap cue_idx cue_stage] in Hf.
      rewrite bool_decide_eq_false_2 in Hf by (intros (_ & <- & <-); tauto).
      rewrite bool_decide_eq_true_2 in Hf by reflexivity. rewrite E in Hf.
      now destruct (stage_flag (fst (trigger w s idx ev q f st)) i st').
Qed.

(** A test followed by [trigger], as [_handle_stage] does it three times. *)
Lemma maybe_trigger_effect w s idx ev q st (c : bool) :
  is_Some (_stage_state s !! idx) ->
  let r := if c && negb (stage_flag s idx st)
           then trigger w s idx ev q false st else (s, []) in
  snd r
  = (if c && negb (stage_flag s idx st)
     then [{| cue_lap := _lap_id s; cue_idx := idx; cue_stage := st;
              cue_forced := false |}]
     else [])
  /\ (forall i st',
        stage_flag (fst r) i st'
        = c && bool_decide (i = idx /\ st' = st) || stage_flag s i st')
  /\ _lap_id (fst r) = _lap_id s
  /\ _last_dist_to_event (fst r) = _last_dist_to_event s
  /\ is_Some (_stage_state (fst r) !! idx).
Proof.
  intros He. cbv zeta.
  destruct (trigger_effect w s idx ev q false st He) as (Hc & Hf & Hl & Hd & Hs).
  destruct c; cbn [andb].
  - destruct (stage_flag s idx st) eqn:E; cbn [negb fst snd].
    + split; [reflexivity |]. split; [| auto].
      intros i st'.
      destruct (decide (i = idx /\ st' = st)) as [[-> ->] | Hne].
      * rewrite bool_decide_eq_true_2 by tauto. now rewrite E.
      * now rewrite bool_decide_eq_false_2.
    + rewrite Hc. split; [reflexivity |]. auto.
  - cbn [fst snd]. split; [reflexivity |]. auto.
Qed.

Lemma setdefault_lap s idx : _lap_id (setdefault s idx) = _lap_id s.
Proof. unfold setdefault. now destruct (_stage_state s !! idx). Qed.

Lemma setdefault_last_dist s idx :
  _last_dist_to_event (setdefault s idx) = _last_dist_to_event s.
Proof. unfold setdefault. now destruct (_stage_state s !! idx). Qed.

(** The ordinary call of [_handle_stage]. *)
Lemma handle_stage_effect w s idx ev d last A B off q pm :
  let r := _handle_stage w s idx ev d last A B off q pm false in
  let C := if pm then 0.001 else Py.max 0.0 off in
  snd r
  = (if crossed d last A && negb (stage_flag s idx StageA)
     then [{| cue_lap := _lap_id s; cue_idx := idx; cue_stage := StageA;
              cue_forced := false |}] else [])
    ++ (if crossed d last B && negb (stage_flag s idx StageB)
        then [{| cue_lap := _lap_id s; cue_idx := idx; cue_stage := StageB;
                 cue_forced := false |}] else [])
    ++ (if crossed d last C && negb (stage_flag s idx StageC)
        then [{| cue_lap := _lap_id s; cue_idx := idx; cue_stage := StageC;
                 cue_forced := false |}] else [])
  /\ stage_flag (fst r) idx StageC
     = crossed d last C || stage_flag s idx StageC
  /\ _lap_id (fst r) = _lap_id s
  /\ _last_dist_to_event (fst r) = _last_dist_to_event s.
Proof.
  cbv zeta. unfold _handle_stage.
  pose proof (setdefault_entry s idx) as E0.
  pose proof (setdefault_flag s idx) as F0.
  pose proof (setdefault_lap s idx) as L0.
  pose proof (setdefault_last_dist s idx) as D0.
  set (s0 := setdefault s idx) in *. clearbody s0.
  destruct (maybe_trigger_effect w s0 idx ev q StageA (crossed d last A) E0)
    as (C1 & F1 & L1 & D1 & E1).
  cbv zeta in *.
  destruct (if crossed d last A && negb (stage_flag s0 idx StageA)
            then trigger w s0 idx ev q false StageA else (s0, [])) as [s1 c1].
  cbn [fst snd] in *.
  destruct (maybe_trigger_effect w s1 idx ev q StageB (crossed d last B) E1)
    as (C2 & F2 & L2 & D2 & E2).
  cbv zeta in *.
  destruct (if crossed d last B && negb (stage_flag s1 idx StageB)
            then trigger w s1 idx ev q false StageB else (s1, [])) as [s2 c2].
  cbn [fst snd] in *.
  destruct (maybe_trigger_effect w s2 idx ev q StageC
              (crossed d last (if pm then 0.001 else Py.max 0.0 off)) E2)
    as (C3 & F3 & L3 & D3 & E3).
  cbv zeta in *.
  destruct (if crossed d last (if pm then 0.001 else Py.max 0.0 off)
               && negb (stage_flag s2 idx StageC)
            then trigger w s2 idx ev q false StageC else (s2, [])) as [s3 c3].
  cbn [fst snd] in *.
  assert (FB : stage_flag s1 idx StageB = stage_flag s idx StageB).
  { rewrite F1, F0. rewrite bool_decide_eq_false_2 by (intros [_ H]; discriminate).
    now rewrite andb_false_r. }
  assert (FC : stage_flag s2 idx StageC = stage_flag s idx StageC).
  { rewrite F2, F1, F0.
    rewrite !bool_decide_eq_false_2 by (intros [_ H]; discriminate).
    now rewrite !andb_false_r. }
  subst c1 c2 c3. rewrite F0, FB, FC, L2, L1, L0.
  split; [reflexivity |]. split; [| split; congruence].
  rewrite F3, FC. rewrite bool_decide_eq_true_2 by tauto.
  now rewrite andb_true_r.
Qed.

Lemma stage_event_cues w a s idx ev d :
  let pm := negb (distance_mode a) in
  snd (stage_event w a pm (fst (tick_thresholds a)) (snd (tick_thresholds a))
         s idx ev d)
  = stage_cues (_lap_id s) idx (stage_flag s idx StageA)
      (stage_flag s idx StageB) (stage_flag s idx StageC)
      (_last_dist_to_event s !! idx) d (fst (tick_thresholds a))
      (snd (tick_thresholds a)) (final_threshold a).
Proof.
  cbv zeta. unfold stage_event, stage_cues, final_threshold.
  set (A := fst (tick_thresholds a)). set (B := snd (tick_thresholds a)).
  set (last := _last_dist_to_event s !! idx).
  destruct (handle_stage_effect w s idx ev d last A B (final_cue_offset_m a)
              (quiet_mode a) (negb (distance_mode a))) as (Hc & Hf & Hl & _).
  cbv zeta in *.
  destruct (_handle_stage w s idx ev d last A B (final_cue_offset_m a)
              (quiet_mode a) (negb (distance_mode a)) false) as [s1 c1].
  cbn [fst snd] in *.
  assert (EC : (if negb (distance_mode a) then 0.001
                else Py.max 0.0 (final_cue_offset_m a))
               = (if distance_mode a then Py.max 0.0 (final_cue_offset_m a)
                  else 0.001))
    by now destruct (distance_mode a).
  rewrite EC in *. clear EC.
  set (C := if distance_mode a then Py.max 0.0 (final_cue_offset_m a) else 0.001)
    in *.
  assert (Hforced :
            snd (match last with
                 | Some l =>
                     if Py.leb l B && Py.ltb l d
                     then _handle_stage w s1 idx ev 0.0 last A B
                            (final_cue_offset_m a) (quiet_mode a)
                            (negb (distance_mode a)) true
                     else (s1, [])
                 | None => (s1, [])
                 end)
            = match last with
              | Some l =>
                  if Py.leb l B && Py.ltb l d && negb (stage_flag s idx StageC)
                  then [{| cue_lap := _lap_id s; cue_idx := idx;
                           cue_stage := StageC; cue_forced := true |}]
                  else []
              | None => []
              end).
  { destruct last as [l |]; [| reflexivity].
    destruct (Py.leb l B) eqn:E1; [| reflexivity].
    destruct (Py.ltb l d) eqn:E2; [| reflexivity].
    cbn [andb]. unfold _handle_stage.
    destruct (trigger_effect w (setdefault s1 idx) idx ev (quiet_mode a) true
                StageC (setdefault_entry s1 idx)) as (Ht & _).
    rewrite Ht, setdefault_flag, setdefault_lap, Hf, Hl.
    rewrite crossed_increase by now apply ltb_lt.
    cbn [orb]. now destruct (stage_flag s idx StageC). }
  destruct (match last with
            | Some l =>
                if Py.leb l B && Py.ltb l d
                then _handle_stage w s1 idx ev 0.0 last A B
                       (final_cue_offset_m a) (quiet_mode a)
                       (negb (distance_mode a)) true
                else (s1, [])
            | None => (s1, [])
            end) as [s2 c2].
  cbn [fst snd] in *. subst c1 c2. now rewrite <- !app_assoc.
Qed.

Lemma fold_tick_event w a p idx ev d (l : list (nat * RefEvent)) :
  tick_distance a p ev = Some d ->
  forall s log,
    List.NoDup (map fst l) ->
    In (idx, ev) l ->
    exists cues,
      snd (fold_left (tick_body w a p) l (s, log)) = log ++ cues
      /\ cues_of cues idx
         = stage_cues (_lap_id s) idx (stage_flag s idx StageA)
             (stage_flag s idx StageB) (stage_flag s idx StageC)
             (_last_dist_to_event s !! idx) d (fst (tick_thresholds a))
             (snd (tick_thresholds a)) (final_threshold a)
      /\ _last_dist_to_event (fst (fold_left (tick_body w a p) l (s, log))) !! idx
         = Some d.
Proof.
  intros Hdist.
  induction l as [| [j e] l IH]; intros s log Hnd Hin; [destruct Hin |].
  cbn [map fst] in Hnd. apply List.NoDup_cons_iff in Hnd as [Hj Hnd].
  cbn [fold_left].
  destruct (decide (j = idx)) as [-> | Hne].
  - assert (e = ev) as ->.
    { destruct Hin as [[= ->] | Hin]; [reflexivity |].
      exfalso. apply Hj. apply (in_map fst) in Hin. exact Hin. }
    destruct (stage_event_step w a (negb (distance_mode a))
                (fst (tick_thresholds a)) (snd (tick_thresholds a)) s idx ev d)
      as (Ha & Hc & Hld).
    pose proof (stage_event_cues w a s idx ev d) as Hcues. cbv zeta in Hcues.
    set (r := stage_event w a (negb (distance_mode a)) (fst (tick_thresholds a))
                (snd (tick_thresholds a)) s idx ev d) in *.
    assert (Ebody : tick_body w a p (s, log) (idx, ev) = (fst r, log ++ snd r)).
    { unfold tick_body. cbn [fst snd]. now rewrite Hdist. }
    rewrite Ebody.
    destruct (fold_tick_step w a p l (fst r) (log ++ snd r))
      as (c2 & E2 & Ha2 & Hc2 & Hd2).
    rewrite E2. cbn [fst snd].
    assert (Hother : Forall (fun c => cue_idx c <> idx) c2).
    { eapply List.Forall_impl; [| exact Hc2]. cbn. intros c H E.
      rewrite E in H. tauto. }
    exists (snd r ++ c2). split; [now rewrite app_assoc |]. split.
    + rewrite cues_of_app, (cues_of_other c2 idx Hother), app_nil_r.
      rewrite (cues_of_same _ idx Hc). exact Hcues.
    + rewrite (Hd2 idx Hj), Hld. apply lookup_insert_eq.
  - assert (Hin' : In (idx, ev) l).
    { destruct Hin as [[= -> _] | Hin]; [congruence | exact Hin]. }
    destruct (tick_body_step w a p s log (j, e)) as (c1 & E1 & Ha1 & Hc1 & Hd1).
    cbn [fst] in Hc1, Hd1.
    assert (Hother : Forall (fun c => cue_idx c <> idx) c1).
    { eapply List.Forall_impl; [| exact Hc1]. cbn. intros c E. congruence. }
    rewrite E1.
    set (s1 := fst (tick_body w a p (s, log) (j, e))) in *.
    destruct (IH s1 (log ++ c1) Hnd Hin') as (c2 & E2 & Hcues & Hlast).
    exists (c1 ++ c2). split; [now rewrite E2, app_assoc |]. split.
    + rewrite cues_of_app, (cues_of_other c1 idx Hother). cbn [app].
      rewrite Hcues, !(advances_frame _ _ _ idx Ha1 Hother).
      rewrite Hd1 by congruence.
      destruct Ha1 as (-> & _). reflexivity.
    + exact Hlast.
Qed.

(** X25. The cues that a call of [update] fires for an event of its list
    that it does not skip are those of that event alone, whatever the other
    events of the list: with the flags and the last distance as the head of
    [update] leaves them (cleared on a lap rollover), each of the stages A,
    B, C, in this order, whose flag is not set and whose threshold the
    distance has crossed (last distance above it and new distance at or
    below it; without a last distance, new distance at or below it), and
    then the forced final cue when the last distance was at most the near
    threshold and the new one is larger, unless the final flag is set.  The
    new distance becomes the last distance of the event. *)
Theorem X25_cues_of_one_event (w : bool) (s : AudioCues.t) (a : Args)
    (idx : nat) (event : RefEvent) (p d : Q) :
  lap_pct a = Some p ->
  nth_error (events a) idx = Some event ->
  tick_distance a p event = Some d ->
  let s0 := begin_tick s p in
  cues_of (snd (update w s a)) idx
  = stage_cues (_lap_id s0) idx (stage_flag s0 idx StageA)
      (stage_flag s0 idx StageB) (stage_flag s0 idx StageC)
      (_last_dist_to_event s0 !! idx) d (fst (tick_thresholds a))
      (snd (tick_thresholds a)) (final_threshold a)
  /\ _last_dist_to_event (fst (update w s a)) !! idx = Some d.
Proof.
  intros Hp Hev Hd. cbv zeta.
  rewrite (update_fold w s a p Hp).
  destruct (fold_tick_event w a p idx event d (Py.enumerate (events a)) Hd
              (begin_tick s p) [] (enumerate_NoDup _) (enumerate_In _ _ _ Hev))
    as (cues & E & Hcues & Hlast).
  rewrite E. cbn [app]. split; [exact Hcues | exact Hlast].
Qed.

Lemma X25_cues_of_one_event_witness :
  cues_of
    (snd (update true (fst (run true init (map close_events_tick [0.488; 0.4988])))
            (close_events_tick 0.5002)))
    1
  = [ {| cue_lap := 0; cue_idx := 1; cue_stage := StageB; cue_forced := false |} ].
Proof.
  refine (eq_trans
            (proj1 (X25_cues_of_one_event true
                      (fst (run true init (map close_events_tick [0.488; 0.4988])))
                      (close_events_tick 0.5002) 1
                      {| kind := "brake"; ev_lap_pct := 0.504; dist_m := Some 2520 |}
                      0.5002 _ eq_refl eq_refl eq_refl))
            _).
  vm_compute. reflexivity.
Defined.

(* ===================================================================== *)
(** ** Lift and power events *)
(* ===================================================================== *)

Ltac scan_kinds_leaf p :=
  let finish bl bp :=
    (exists bl, bp; split; [reflexivity |];
     cbn [app ReferenceLap.in_brake ReferenceLap.in_lift
            ReferenceLap.scan_events ReferenceLap.scan_brake_points
            negb andb orb];
     split; [rewrite ?app_nil_r; reflexivity |];
     split; [first [discriminate | intros _; reflexivity] |];
     split; [first [discriminate | intros _; split; reflexivity] |];
     first [discriminate | intros _; reflexivity]) in
  eexists;
  first [ finish false false | finish true false
        | finish false true | finish true true ].

(** One iteration of the scan, with what it appends of each kind. *)
Lemma scan_step_kinds (self : ReferenceLap.t) (st : ReferenceLap.Scan) (i : nat) :
  (1 <= i)%nat ->
  (i < length (ReferenceLap.lap_pct self))%nat ->
  (i < length (ReferenceLap.brake self))%nat ->
  (i < length (ReferenceLap.throttle self))%nat ->
  let p := nth i (ReferenceLap.lap_pct self) 0 in
  let fire := negb (ReferenceLap.in_brake st) && brake_rises self i in
  exists st' (lift power : bool),
    ReferenceLap.scan_step self st i = Ok st'
    /\ ReferenceLap.scan_events st'
       = ReferenceLap.scan_events st
         ++ (if fire then [new_event "brake" p] else [])
         ++ (if lift then [new_event "lift" p] else [])
         ++ (if power then [new_event "power" p] else [])
    /\ (lift = true -> throttle_lifts self i = true)
    /\ (power = true ->
        throttle_rises self i = true
        /\ fire || ReferenceLap.in_brake st || ReferenceLap.in_lift st || lift
           = true)
    /\ (ReferenceLap.in_brake st' || ReferenceLap.in_lift st' = true ->
        fire || ReferenceLap.in_brake st || ReferenceLap.in_lift st || lift
        = true).
Proof.
  intros H1 Hl Hb Ht. cbv zeta.
  unfold ReferenceLap.scan_step, brake_rises, throttle_lifts, throttle_rises.
  rewrite (index_nth (ReferenceLap.brake self) i 0) by lia.
  rewrite (index_nth (ReferenceLap.throttle self) i 0) by lia.
  rewrite (index_nth (ReferenceLap.brake self) (i - 1) 0) by lia.
  rewrite (index_nth (ReferenceLap.throttle self) (i - 1) 0) by lia.
  rewrite (index_nth (ReferenceLap.lap_pct self) i 0) by lia.
  cbn [Py.bind].
  set (p := nth i (ReferenceLap.lap_pct self) 0).
  destruct st as [ib il evs bps]. cbn [ReferenceLap.in_brake ReferenceLap.in_lift
    ReferenceLap.scan_events ReferenceLap.scan_brake_points].
  destruct ib, il;
    destruct (Py.ltb (nth (i - 1) (ReferenceLap.brake self) 0)
                (ReferenceLap.brake_threshold self));
    destruct (Py.leb (ReferenceLap.brake_threshold self)
                (nth i (ReferenceLap.brake self) 0));
    cbn [negb andb orb Py.bind ReferenceLap.in_brake ReferenceLap.in_lift
           ReferenceLap.scan_events ReferenceLap.scan_brake_points];
    destruct (Py.ltb (nth i (ReferenceLap.brake self) 0)
                (ReferenceLap.brake_threshold self * 0.5));
    cbn [negb andb orb Py.bind ReferenceLap.in_brake ReferenceLap.in_lift
           ReferenceLap.scan_events ReferenceLap.scan_brake_points];
    destruct (Py.leb (ReferenceLap.lift_threshold self)
                (nth (i - 1) (ReferenceLap.throttle self) 0));
    destruct (Py.ltb (nth i (ReferenceLap.throttle self) 0)
                (ReferenceLap.lift_threshold self));
    destruct (Py.ltb (nth i (ReferenceLap.brake self) 0)
                (ReferenceLap.brake_threshold self));
    cbn [negb andb orb Py.bind ReferenceLap.in_brake ReferenceLap.in_lift
           ReferenceLap.scan_events ReferenceLap.scan_brake_points];
    destruct (Py.ltb (ReferenceLap.lift_threshold self * 1.2)
                (nth i (ReferenceLap.throttle self) 0));
    cbn [negb andb orb Py.bind ReferenceLap.in_brake ReferenceLap.in_lift
           ReferenceLap.scan_events ReferenceLap.scan_brake_points];
    destruct (Py.ltb (nth (i - 1) (ReferenceLap.throttle self) 0)
                (ReferenceLap.power_threshold self));
    destruct (Py.leb (ReferenceLap.power_threshold self)
                (nth i (ReferenceLap.throttle self) 0));
    cbn [negb andb orb Py.bind ReferenceLap.in_brake ReferenceLap.in_lift
           ReferenceLap.scan_events ReferenceLap.scan_brake_points];
    rewrite <- ?app_assoc;
    scan_kinds_leaf p.
Qed.

(** What holds of the lift and power events after the samples 1 to [k]. *)
Lemma scan_upto_kinds (self : ReferenceLap.t) (k : nat) :
  (k <= length (ReferenceLap.lap_pct self) - 1)%nat ->
  (k <= length (ReferenceLap.brake self) - 1)%nat ->
  (k <= length (ReferenceLap.throttle self) - 1)%nat ->
  exists st,
    scan_upto self k = Ok st
    /\ (length (events_of_kind "lift" (ReferenceLap.scan_events st))
        <= length (List.filter (throttle_lifts self) (seq 1 k)))%nat
    /\ (length (events_of_kind "power" (ReferenceLap.scan_events st))
        <= length (List.filter (throttle_rises self) (seq 1 k)))%nat
    /\ (ReferenceLap.in_brake st || ReferenceLap.in_lift st = true ->
        ReferenceLap.scan_events st <> [])
    /\ match ReferenceLap.scan_events st with
       | e :: _ => kind e <> "power"
       | [] => True
       end.
Proof.
  induction k as [| k IH]; intros Hl Hb Ht.
  - eexists. split; [reflexivity |]. cbn.
    repeat split; auto; try lia; discriminate.
  - destruct IH as (st & Est & Il & Ip & Iin & Ihd); [lia .. |].
    rewrite scan_upto_S, Est. cbn [Py.bind].
    destruct (scan_step_kinds self st (S k))
      as (st' & lift & power & E & Eev & Hlift & Hpower & Hin); [lia .. |].
    cbv zeta in *.
    set (p := nth (S k) (ReferenceLap.lap_pct self) 0) in *.
    set (fire := negb (ReferenceLap.in_brake st) && brake_rises self (S k)) in *.
    exists st'. split; [exact E |].
    rewrite Eev, !filter_seq_S, !events_of_kind_app, !length_app.
    split; [| split; [| split]].
    + destruct fire, lift, power; cbn [events_of_kind List.filter kind new_event
                                         String.eqb Ascii.eqb Bool.eqb length app];
        try rewrite (Hlift eq_refl); cbn; lia.
    + destruct fire, lift, power; cbn [events_of_kind List.filter kind new_event
                                         String.eqb Ascii.eqb Bool.eqb length app];
        try rewrite (proj1 (Hpower eq_refl)); cbn; lia.
    + intros H Happ. apply app_eq_nil in Happ as [H0 Happ].
      specialize (Hin H).
      destruct (ReferenceLap.in_brake st || ReferenceLap.in_lift st) eqn:Ein.
      * now apply Iin.
      * apply orb_false_elim in Ein as [Eb El].
        destruct fire, lift; cbn [app orb] in *; try discriminate.
        rewrite Eb, El in Hin. discriminate.
    + destruct (ReferenceLap.scan_events st) as [| e evs] eqn:Eevs;
        [| exact Ihd].
      assert (Eflags : ReferenceLap.in_brake st || ReferenceLap.in_lift st = false).
      { destruct (ReferenceLap.in_brake st || ReferenceLap.in_lift st);
          [exfalso; now apply Iin | reflexivity]. }
      apply orb_false_elim in Eflags as [Eb El].
      destruct fire, lift, power; cbn [app new_event kind]; try discriminate;
        try exact I.
      destruct (Hpower eq_refl) as [_ H]. rewrite Eb, El in H. discriminate.
Qed.

(** X26. When [_build_events] returns, there are not more lift events than
    samples at which the throttle falls through the lift threshold with the
    brake below the brake threshold, and not more power events than samples
    at which the throttle rises through the power threshold.  The first
    event of the list is never a power event: a power event needs a brake or
    a lift that has begun before. *)
Theorem X26_build_events_lift_power (self r : ReferenceLap.t) :
  ReferenceLap._build_events self = Ok r ->
  let samples := seq 1 (length (ReferenceLap.lap_pct self) - 1) in
  (length (events_of_kind "lift" (ReferenceLap.events r))
   <= length (List.filter (throttle_lifts self) samples))%nat
  /\ (length (events_of_kind "power" (ReferenceLap.events r))
      <= length (List.filter (throttle_rises self) samples))%nat
  /\ match ReferenceLap.events r with
     | e :: _ => kind e <> "power"
     | [] => True
     end.
Proof.
  intros H.
  destruct (build_events_returns self r H) as (Hb & Ht & st & Est & ->).
  destruct (scan_upto_kinds self _ (Nat.le_refl _) Hb Ht)
    as (st' & Est' & Il & Ip & _ & Ihd).
  rewrite Est in Est'. injection Est' as <-.
  cbv zeta. lap_fields. auto.
Qed.

Lemma X26_build_events_lift_power_witness :
  exists r,
    ReferenceLap._build_events braking_lap = Ok r
    /\ (length (events_of_kind "lift" (ReferenceLap.events r)) <= 0)%nat.
Proof.
  eexists. split; [vm_compute; reflexivity |].
  refine (proj1 (X26_build_events_lift_power braking_lap _ _)).
  vm_compute. reflexivity.
Defined.
